(** * ARE: the Authority Realization Engine, embedded in Rocq

    A shallow embedding of the Go package [core] (data model, validator,
    compiler pipeline, runtime reader) together with the properties its
    specification states about it.

    Conventions of the embedding
    - Go [string] is [string] (a sequence of bytes); [<] on strings is the
      bytewise lexicographic order [String.ltb].
    - Go [int] is [Z]; the only integers here are slice lengths, a
      delegation depth bounded by the number of edges, and version numbers
      clamped by [strconv.Atoi], so no operation can wrap around.
    - [map[K]V] is [gmap K V]; a map that may be [nil] is an [option] of one.
      A [map[string]bool] that only ever stores [true] is a [gset string].
    - [interface{}] values of the decoded source are the type [Value].
    - [time.Time] is an instant, a [Z]; [Before]/[After] are [<]/[>].
    - A Go function returning [(T, error)] returns a pair [T * option error].
    - The compiler's [sources] table is threaded explicitly. *)

From stdpp Require Import base gmap strings list pretty relations.
From Stdlib Require Import ZArith Lia Permutation Ascii Sorted.

Open Scope Z_scope.

(* stdpp's solvers clear hypotheses by name; the notice is noise here *)
Set Warnings "-clear-no-such-hyp".

(** ** Go runtime helpers *)

Module Go.

(** [sort.Slice(data, less)]: for slices of at most 12 elements the Go
    runtime runs [insertionSortLessFunc]; that algorithm is the model used
    for every length.  [insertBack] is its inner loop: the element moves
    left while it is [less] than its left neighbour.  The already sorted
    prefix is kept reversed (nearest neighbour first).  Where the order is
    total on the elements (strings, edges) every sorting algorithm gives
    this result; the general properties of the resolver below use only that
    the result is a permutation of the input. *)
Section sortSlice.
Context {A : Type} (less : A → A → bool).

Fixpoint insertBack (x : A) (rprefix : list A) : list A :=
  match rprefix with
  | [] => [x]
  | y :: r => if less x y then y :: insertBack x r else x :: rprefix
  end.

Definition sortSlice (data : list A) : list A :=
  rev (fold_left (λ acc x, insertBack x acc) data []).
End sortSlice.

(** [sort.Strings] *)
Definition sortStrings (l : list string) : list string :=
  sortSlice String.ltb l.

(** [strings.HasPrefix], [strings.HasSuffix], [strings.TrimSuffix],
    [strings.Contains] *)
Definition HasPrefix (s p : string) : bool := String.prefix p s.

Definition revString (s : string) : string :=
  String.string_of_list_ascii (rev (String.list_ascii_of_string s)).

Definition HasSuffix (s suffix : string) : bool :=
  String.prefix (revString suffix) (revString s).

Definition TrimSuffix (s suffix : string) : string :=
  if HasSuffix s suffix
  then String.substring 0 (String.length s - String.length suffix)%nat s
  else s.

Definition Contains (s substr : string) : bool :=
  match String.index 0 substr s with Some _ => true | None => false end.

(** [strings.Join] *)
Fixpoint Join (l : list string) (sep : string) : string :=
  match l with
  | [] => ""
  | [x] => x
  | x :: r => x +:+ sep +:+ Join r sep
  end.

(** [fmt.Sprintf("%d", n)] *)
Definition Itoa (n : Z) : string := pretty n.

(** [fmt.Sprintf("%v", ids)] for a [[]string] *)
Definition SprintStrings (ids : list string) : string :=
  "[" +:+ Join ids " " +:+ "]".

(** [len] of a map that may be nil *)
Definition lenMap {V} (m : option (gmap string V)) : Z :=
  match m with Some m => Z.of_nat (size m) | None => 0 end.

Definition len {A} (l : list A) : Z := Z.of_nat (List.length l).

End Go.

(** ** air.go: the data model *)

(** [time.Time], as an instant. *)
Definition Time : Type := Z.
Definition zeroTime : Time := 0.

(** Dynamically typed values ([interface{}]) as they occur in a decoded
    source: strings, [[]interface{}], [map[string]interface{}]; every other
    dynamic type (numbers, booleans, [[]string], an explicit nil, ...) fails
    each type assertion the compiler makes and is [VOther]. *)
#[warnings="-register-all"]
Inductive Value : Type :=
  | VString (s : string)
  | VSlice (l : list Value)
  | VMap (m : gmap string Value)
  | VOther.

Definition AuthorityType : Type := string.
Definition Sovereign : AuthorityType := "sovereign".
Definition Legal : AuthorityType := "legal".
Definition Regulatory : AuthorityType := "regulatory".
Definition Organizational : AuthorityType := "organizational".
Definition Contractual : AuthorityType := "contractual".

Definition ClaimType : Type := string.
Definition Permission : ClaimType := "permission".
Definition Prohibition : ClaimType := "prohibition".
Definition Obligation : ClaimType := "obligation".
Definition Delegation : ClaimType := "delegation".

Definition EdgeType : Type := string.
Definition Delegates : EdgeType := "delegates".
Definition Revokes : EdgeType := "revokes".
Definition Supersedes : EdgeType := "supersedes".

Module Scope.
Record t : Type := mk {
  Jurisdictions : list string;
  TimeStart : option Time;
  TimeEnd : option Time;
  Operations : list string
}.
Definition zero : t := mk [] None None [].
End Scope.

Module Claim.
Record t : Type := mk {
  ID : string;
  Type_ : ClaimType;
  Subject : string;
  Action : string;
  Resource : string;
  Scope : Scope.t;
  Conditions : option (gmap string Value);
  SourceID : string
}.
Definition zero : t := mk "" "" "" "" "" Scope.zero None "".
End Claim.

Module AuthoritySource.
Record t : Type := mk {
  ID : string;
  Type_ : AuthorityType;
  Name : string;
  Description : string;
  Version : string;
  Metadata : gmap string Value
}.
Definition zero : t := mk "" "" "" "" "" ∅.
End AuthoritySource.

Module Edge.
Record t : Type := mk {
  FromID : string;
  ToID : string;
  EdgeType_ : EdgeType
}.
End Edge.

Module AuthorityGraph.
Record t : Type := mk {
  Nodes : option (gmap string Claim.t);
  Edges : list Edge.t
}.
Definition zero : t := mk None [].
End AuthorityGraph.

Module AuthorityArtifact.
Record t : Type := mk {
  ID : string;
  SourceID : string;
  Claims : list Claim.t;
  Graph : AuthorityGraph.t;
  GeneratedAt : Time
}.
Definition zero : t := mk "" "" [] AuthorityGraph.zero zeroTime.
Definition withClaims (a : t) (claims : list Claim.t) : t :=
  mk (ID a) (SourceID a) claims (Graph a) (GeneratedAt a).
Definition withGraph (a : t) (g : AuthorityGraph.t) : t :=
  mk (ID a) (SourceID a) (Claims a) g (GeneratedAt a).
End AuthorityArtifact.

Module CompilationSuccess.
Record t : Type := mk {
  Artifact : AuthorityArtifact.t;
  Proof_ : string
}.
End CompilationSuccess.

Module CompilationFailure.
Record t : Type := mk {
  FailureStage : string;
  ViolatedInvariant : string;
  InvolvedClaimIDs : list string;
  FailClosed : bool
}.
End CompilationFailure.

(** [AuthorityTypeOrder()]; a type outside the table reads as Go's zero
    value [0] in [authorityOrder[source.Type]]. *)
Definition AuthorityTypeOrder : gmap AuthorityType Z :=
  <[Sovereign := 0]> (<[Legal := 1]> (<[Regulatory := 2]>
    (<[Organizational := 3]> (<[Contractual := 4]> ∅)))).

Definition IsValidClaimType (t : ClaimType) : bool :=
  bool_decide (t = Permission) || bool_decide (t = Prohibition)
  || bool_decide (t = Obligation) || bool_decide (t = Delegation).

Definition IsValidEdgeType (t : EdgeType) : bool :=
  bool_decide (t = Delegates) || bool_decide (t = Revokes)
  || bool_decide (t = Supersedes).

(** ** errors.go *)

#[warnings="-register-all"]
Inductive error : Type :=
  | ErrNilArtifact
  | ErrNilSource
  | ErrEmptySourceID
  | ErrInvalidClaim
  | ErrCyclicGraph
  | ErrNilGraph
  | ErrUnresolvableConflict
  | ErrInvalidScope
  | ErrDelegationScopeViolation
  | ErrInvalidEdgeReference
  | ErrInvalidVersion
  | ValidationError (Field Message : string) (Err : option error)
  | CompilationError (Stage Message : string) (Err : option error)
  | ConflictError (ClaimIDs : list string) (Message : string)
  | context_Canceled
  | context_DeadlineExceeded.

(** The [Error()] method. *)
Fixpoint error_Error (e : error) : string :=
  match e with
  | ErrNilArtifact => "artifact is nil"
  | ErrNilSource => "source is nil"
  | ErrEmptySourceID => "source ID is empty"
  | ErrInvalidClaim => "invalid claim"
  | ErrCyclicGraph => "authority graph contains cycles"
  | ErrNilGraph => "graph nodes map is nil"
  | ErrUnresolvableConflict => "unresolvable authority conflict"
  | ErrInvalidScope => "invalid scope"
  | ErrDelegationScopeViolation => "delegation scope exceeds delegator scope"
  | ErrInvalidEdgeReference => "edge references non-existent node"
  | ErrInvalidVersion => "invalid version string"
  | ValidationError f m None => "validation error on " +:+ f +:+ ": " +:+ m
  | ValidationError f m (Some e') =>
      "validation error on " +:+ f +:+ ": " +:+ m +:+ ": " +:+ error_Error e'
  | CompilationError s m None => "compilation error at " +:+ s +:+ ": " +:+ m
  | CompilationError s m (Some e') =>
      "compilation error at " +:+ s +:+ ": " +:+ m +:+ ": " +:+ error_Error e'
  | ConflictError ids m =>
      "conflict resolution failed for claims " +:+ Go.SprintStrings ids
      +:+ ": " +:+ m
  | context_Canceled => "context canceled"
  | context_DeadlineExceeded => "context deadline exceeded"
  end.

Definition newValidationError (field message : string) (err : option error)
  : error := ValidationError field message err.

(** ** validate.go *)

(** The set a loop [for _, j := range l { set[j] = true }] builds. *)
Definition stringSet (l : list string) : gset string := list_to_set l.

Definition isScopeContained (inner outer : Scope.t) : bool :=
  (* Jurisdictions must be subset *)
  let innerSet := stringSet (Scope.Jurisdictions inner) in
  let outerSet := stringSet (Scope.Jurisdictions outer) in
  if negb (forallb (λ j, bool_decide (j ∈ outerSet)) (elements innerSet))
  then false else
  (* Operations must be subset *)
  let innerOpSet := stringSet (Scope.Operations inner) in
  let outerOpSet := stringSet (Scope.Operations outer) in
  if negb (forallb (λ o, bool_decide (o ∈ outerOpSet)) (elements innerOpSet))
  then false else
  (* Time bounds must be within outer bounds *)
  if match Scope.TimeStart outer, Scope.TimeStart inner with
     | Some ostart, Some istart => istart <? ostart
     | _, _ => false
     end
  then false else
  if match Scope.TimeEnd outer, Scope.TimeEnd inner with
     | Some oend, Some iend => iend >? oend
     | _, _ => false
     end
  then false else true.

(** [graph.Nodes[id]]: the zero claim when the key (or the table) is
    missing. *)
Definition nodeAt (graph : AuthorityGraph.t) (id : string) : Claim.t :=
  match AuthorityGraph.Nodes graph with
  | Some nodes => default Claim.zero (nodes !! id)
  | None => Claim.zero
  end.

Definition validateDelegationClaim (claim : Claim.t) (graph : AuthorityGraph.t)
  : bool :=
  (* Find delegator (parent in graph) *)
  let delegatorClaim :=
    match List.find (λ edge, bool_decide (Edge.ToID edge = Claim.ID claim)
                             && bool_decide (Edge.EdgeType_ edge = Delegates))
                    (AuthorityGraph.Edges graph) with
    | Some edge => nodeAt graph (Edge.FromID edge)
    | None => Claim.zero
    end in
  if bool_decide (Claim.ID delegatorClaim ≠ "")
  then isScopeContained (Claim.Scope claim) (Claim.Scope delegatorClaim)
  else true.

Definition validateClaim (claim : Claim.t) (graph : AuthorityGraph.t) : bool :=
  if bool_decide (Claim.ID claim = "") then false else
  if bool_decide (Claim.Subject claim = "") then false else
  if bool_decide (Claim.Action claim = "") then false else
  if bool_decide (Claim.Resource claim = "") then false else
  if bool_decide (Claim.SourceID claim = "") then false else
  if bool_decide (Claim.Type_ claim = Delegation)
  then validateDelegationClaim claim graph
  else true.

Definition validateClaimWithErrors (claim : Claim.t) (graph : AuthorityGraph.t)
  : option error :=
  if negb (validateClaim claim graph)
  then Some (ValidationError "claim"
               ("claim " +:+ Claim.ID claim +:+ " failed validation") None)
  else None.

(** The depth-first search of [hasCycles].  The state is the pair of the
    [visited] and [recStack] tables.  [visit] is recursive on the graph, so
    the model carries a fuel; [hasCycles_fuel_enough] below shows the fuel
    [hasCycles] passes is never exhausted. *)
Definition DfsState : Type := gset string * gset string.

Fixpoint visitEdges (rec : string → DfsState → option (bool * DfsState))
    (nodeID : string) (edges : list Edge.t) (st : DfsState)
  : option (bool * DfsState) :=
  match edges with
  | [] => Some (false, (st.1, st.2 ∖ {[nodeID]}))
  | edge :: rest =>
      if bool_decide (Edge.FromID edge = nodeID) then
        let neighbor := Edge.ToID edge in
        if bool_decide (neighbor ∉ st.1) then
          match rec neighbor st with
          | None => None
          | Some (true, st') => Some (true, st')
          | Some (false, st') => visitEdges rec nodeID rest st'
          end
        else if bool_decide (neighbor ∈ st.2) then Some (true, st)
        else visitEdges rec nodeID rest st
      else visitEdges rec nodeID rest st
  end.

Fixpoint visit (fuel : nat) (edges : list Edge.t) (nodeID : string)
    (st : DfsState) : option (bool * DfsState) :=
  match fuel with
  | O => None
  | S fuel' =>
      visitEdges (visit fuel' edges) nodeID edges
                 ({[nodeID]} ∪ st.1, {[nodeID]} ∪ st.2)
  end.

Fixpoint visitAll (fuel : nat) (edges : list Edge.t) (nodeIDs : list string)
    (st : DfsState) : option bool :=
  match nodeIDs with
  | [] => Some false
  | nodeID :: rest =>
      if bool_decide (nodeID ∉ st.1) then
        match visit fuel edges nodeID st with
        | None => None
        | Some (true, _) => Some true
        | Some (false, st') => visitAll fuel edges rest st'
        end
      else visitAll fuel edges rest st
  end.

(** The keys of a table that may be nil, in the order [sort.Strings] gives
    them. *)
Definition sortedKeys {V} (m : option (gmap string V)) : list string :=
  Go.sortStrings (match m with Some m => elements (dom m) | None => [] end).

Definition hasCycles_fuel (graph : AuthorityGraph.t) : nat :=
  S (List.length (sortedKeys (AuthorityGraph.Nodes graph))
     + List.length (AuthorityGraph.Edges graph)).

Definition hasCycles (graph : AuthorityGraph.t) : bool :=
  let nodeIDs := sortedKeys (AuthorityGraph.Nodes graph) in
  default true
    (visitAll (hasCycles_fuel graph) (AuthorityGraph.Edges graph) nodeIDs (∅, ∅)).

Fixpoint checkEdges (nodeIDs : gset string) (edges : list Edge.t)
  : option error :=
  match edges with
  | [] => None
  | edge :: rest =>
      if bool_decide (Edge.FromID edge ∉ nodeIDs) then
        Some (ValidationError "edge.FromID"
                ("edge references non-existent node: " +:+ Edge.FromID edge)
                (Some ErrInvalidEdgeReference))
      else if bool_decide (Edge.ToID edge ∉ nodeIDs) then
        Some (ValidationError "edge.ToID"
                ("edge references non-existent node: " +:+ Edge.ToID edge)
                (Some ErrInvalidEdgeReference))
      else if bool_decide (Edge.EdgeType_ edge = "") then
        Some (ValidationError "edge.EdgeType" "edge type is required" None)
      else checkEdges nodeIDs rest
  end.

Definition validateGraphWithErrors (graph : AuthorityGraph.t) : option error :=
  match AuthorityGraph.Nodes graph with
  | None => Some ErrNilGraph
  | Some nodes =>
      match checkEdges (dom nodes) (AuthorityGraph.Edges graph) with
      | Some err => Some err
      | None => if hasCycles graph then Some ErrCyclicGraph else None
      end
  end.

Fixpoint validateClaims (claims : list Claim.t) (graph : AuthorityGraph.t)
  : option error :=
  match claims with
  | [] => None
  | claim :: rest =>
      match validateClaimWithErrors claim graph with
      | Some err => Some err
      | None => validateClaims rest graph
      end
  end.

Definition ValidateAirWithErrors (artifact : AuthorityArtifact.t)
  : option error :=
  let graph := AuthorityArtifact.Graph artifact in
  (* Validate graph is initialized *)
  match AuthorityGraph.Nodes graph with
  | None => Some ErrNilGraph
  | Some nodes =>
      (* Empty artifacts with initialized graph are valid *)
      if bool_decide (Go.len (AuthorityArtifact.Claims artifact) = 0)
         && bool_decide (Go.lenMap (Some nodes) = 0)
      then None else
      match validateClaims (AuthorityArtifact.Claims artifact) graph with
      | Some err => Some err
      | None => validateGraphWithErrors graph
      end
  end.

Definition ValidateAir (artifact : AuthorityArtifact.t) : bool :=
  match ValidateAirWithErrors artifact with None => true | Some _ => false end.

Definition ValidateScope (scope : Scope.t) : bool :=
  match Scope.TimeStart scope, Scope.TimeEnd scope with
  | Some ts, Some te => negb (ts >? te)
  | _, _ => true
  end.

(** ** compiler.go: versions and the precedence key *)

Definition isDigit (c : ascii) : bool :=
  let n := Ascii.N_of_ascii c in ((48 <=? n) && (n <=? 57))%N.

(** The class [[0-9A-Za-z-]] *)
Definition isIdentChar (c : ascii) : bool :=
  let n := Ascii.N_of_ascii c in
  (((48 <=? n) && (n <=? 57)) || ((65 <=? n) && (n <=? 90))
   || ((97 <=? n) && (n <=? 122)) || (n =? 45))%N.

Fixpoint span (p : ascii → bool) (l : list ascii) : list ascii * list ascii :=
  match l with
  | c :: r => if p c then let '(a, b) := span p r in (c :: a, b) else ([], l)
  | [] => ([], [])
  end.

(** An optional group [(?:\.(\d+))?]: the digits it captures (empty when
    the group does not take part) and the rest; [None] when the input goes
    on with a dot that no digit follows, where the whole match fails. *)
Definition optDotDigits (l : list ascii) : option (list ascii * list ascii) :=
  match l with
  | c :: r =>
      if Ascii.eqb c "."%char then
        match span isDigit r with
        | ([], _) => None
        | (ds, rest) => Some (ds, rest)
        end
      else Some ([], l)
  | [] => Some ([], [])
  end.

(** [[0-9A-Za-z-]+(?:\.[0-9A-Za-z-]+)*], read from the left: the rest after
    the longest match, or [None] where a part is empty (no continuation of
    the pattern accepts the dot that is left then).  [inPart] tells that
    the part being read has a character already. *)
Fixpoint dottedIdents (inPart : bool) (l : list ascii) : option (list ascii) :=
  match l with
  | [] => if inPart then Some [] else None
  | c :: r =>
      if isIdentChar c then dottedIdents true r
      else if negb inPart then None
      else if Ascii.eqb c "."%char then dottedIdents false r
      else Some l
  end.

(** An optional group [(?:-(...))?] or [(?:\+(...))?] opened by [mark]. *)
Definition optTagged (mark : ascii) (l : list ascii) : option (list ascii) :=
  match l with
  | c :: r => if Ascii.eqb c mark then dottedIdents false r else Some l
  | [] => Some []
  end.

(** [semverRegex.FindStringSubmatch]: the captures 1, 2 and 3 of
    [^v?(\d+)(?:\.(\d+))?(?:\.(\d+))?(?:-(...))?(?:\+(...))?$], or [None]
    when the string does not match. *)
Definition semverSubmatch (versionStr : string)
  : option (list ascii * list ascii * list ascii) :=
  let l := String.list_ascii_of_string versionStr in
  let l := match l with
           | c :: r => if Ascii.eqb c "v"%char then r else l
           | [] => l
           end in
  match span isDigit l with
  | ([], _) => None
  | (major, l) =>
      '(minor, l) ← optDotDigits l;
      '(patch, l) ← optDotDigits l;
      l ← optTagged "-"%char l;
      l ← optTagged "+"%char l;
      match l with [] => Some (major, minor, patch) | _ => None end
  end.

Definition MaxInt : Z := 2 ^ 63 - 1.

(** [strconv.Atoi] on a string of decimal digits, its error dropped: on
    overflow the value is the largest [int]. *)
Definition Atoi (digits : list ascii) : Z :=
  Z.min MaxInt
    (fold_left (λ acc c, 10 * acc + (Z.of_N (Ascii.N_of_ascii c) - 48)) digits 0).

Definition parseVersion (versionStr : string) : list Z :=
  if bool_decide (versionStr = "") then [0; 0; 0] else
  match semverSubmatch versionStr with
  | None => [0; 0; 0]
  | Some (m1, m2, m3) =>
      let major := Atoi m1 in
      let minor := match m2 with [] => 0 | _ => Atoi m2 end in
      let patch := match m3 with [] => 0 | _ => Atoi m3 end in
      [major; minor; patch]
  end.

(** [getDelegationDepth]: the loop climbs from the claim along incoming
    Delegates edges.  Every round adds a fresh id to [visited], so the
    number of edges plus two bounds the rounds; [getDelegationDepth_total]
    below shows that fuel is never exhausted. *)
Definition isDelegatesTo (currentID : string) (edge : Edge.t) : bool :=
  bool_decide (Edge.ToID edge = currentID)
  && bool_decide (Edge.EdgeType_ edge = Delegates).

Fixpoint depthLoop (fuel : nat) (edges : list Edge.t) (currentID : string)
    (visited : gset string) (depth : Z) : option Z :=
  match fuel with
  | O => None
  | S fuel' =>
      if bool_decide (currentID = "") then Some depth else
      if bool_decide (currentID ∈ visited) then Some 999 else
      let visited := {[currentID]} ∪ visited in
      match List.find (isDelegatesTo currentID) edges with
      | Some edge =>
          let parent := Edge.FromID edge in
          let depth := depth + 1 in
          if bool_decide (parent = "") then Some depth
          else depthLoop fuel' edges parent visited depth
      | None => Some depth
      end
  end.

Definition getDelegationDepth (claim : Claim.t) (graph : AuthorityGraph.t) : Z :=
  let edges := AuthorityGraph.Edges graph in
  default 999 (depthLoop (S (S (List.length edges))) edges (Claim.ID claim) ∅ 0).

Definition getScopeSpecificity (scope : Scope.t) : Z :=
  let specificity := 0 in
  let specificity := specificity + Go.len (Scope.Jurisdictions scope) in
  let specificity := specificity + Go.len (Scope.Operations scope) in
  let specificity :=
    if Scope.TimeStart scope is Some _ then specificity - 10 else specificity in
  let specificity :=
    if Scope.TimeEnd scope is Some _ then specificity - 10 else specificity in
  specificity.

(** The elements of a [[]interface{}] precedence key, by dynamic type. *)
Inductive KeyElem : Type :=
  | KInt (n : Z)
  | KInts (l : list Z)
  | KString (s : string).

Definition precedenceKey (source : AuthoritySource.t) (claim : Claim.t)
    (authorityOrder : gmap AuthorityType Z) (graph : AuthorityGraph.t)
  : list KeyElem :=
  let order := default 0 (authorityOrder !! AuthoritySource.Type_ source) in
  let version := parseVersion (AuthoritySource.Version source) in
  let depth := getDelegationDepth claim graph in
  let specificity := getScopeSpecificity (Claim.Scope claim) in
  [KInt order; KInts version; KInt depth; KInt (- specificity)].

(** [comparePrecedenceKeys]: the type switch has the cases [int] and
    [string] only; an element of any other dynamic type falls through and
    the loop moves on to the next index. *)
Fixpoint comparePrecedenceKeys (a b : list KeyElem) : Z :=
  match a, b with
  | [], [] => 0
  | [], _ :: _ => -1
  | _ :: _, [] => 1
  | av :: a', bv :: b' =>
      match av with
      | KInt av =>
          match bv with
          | KInt bv =>
              if av <? bv then -1
              else if av >? bv then 1
              else comparePrecedenceKeys a' b'
          | _ => -1
          end
      | KString av =>
          match bv with
          | KString bv =>
              if String.ltb av bv then -1
              else if String.ltb bv av then 1
              else comparePrecedenceKeys a' b'
          | _ => 1
          end
      | KInts _ => comparePrecedenceKeys a' b'
      end
  end.

(** ** compiler.go: graph construction *)

(** A type assertion [v.(string)] on the result of a map lookup. *)
Definition asString (v : option Value) : option string :=
  match v with Some (VString s) => Some s | _ => None end.

Definition asSlice (v : option Value) : option (list Value) :=
  match v with Some (VSlice l) => Some l | _ => None end.

Definition asMap (v : option Value) : option (gmap string Value) :=
  match v with Some (VMap m) => Some m | _ => None end.

(** The edge a condition key contributes, if its value is a string naming
    an existing node. *)
Definition conditionEdge (nodes : gmap string Claim.t) (claim : Claim.t)
    (conds : gmap string Value) (key : string) (et : EdgeType)
  : list Edge.t :=
  match asString (conds !! key) with
  | Some target =>
      if bool_decide (is_Some (nodes !! target))
      then [Edge.mk (Claim.ID claim) target et]
      else []
  | None => []
  end.

Definition claimEdges (nodes : gmap string Claim.t) (claim : Claim.t)
  : list Edge.t :=
  match Claim.Conditions claim with
  | Some conds =>
      conditionEdge nodes claim conds "delegates_to" Delegates
      ++ conditionEdge nodes claim conds "revokes" Revokes
      ++ conditionEdge nodes claim conds "supersedes" Supersedes
  | None => []
  end.

(** The [less] function of the edge sort. *)
Definition edgeLess (ei ej : Edge.t) : bool :=
  if bool_decide (Edge.FromID ei ≠ Edge.FromID ej)
  then String.ltb (Edge.FromID ei) (Edge.FromID ej)
  else if bool_decide (Edge.ToID ei ≠ Edge.ToID ej)
  then String.ltb (Edge.ToID ei) (Edge.ToID ej)
  else String.ltb (Edge.EdgeType_ ei) (Edge.EdgeType_ ej).

Definition buildNodes (claims : list Claim.t) : gmap string Claim.t :=
  fold_left (λ nodes claim, <[Claim.ID claim := claim]> nodes) claims ∅.

Definition buildGraph (claims : list Claim.t) : AuthorityGraph.t :=
  (* First pass: add all nodes *)
  let nodes := buildNodes claims in
  (* Second pass: add edges (now all nodes exist) *)
  let edges := flat_map (claimEdges nodes) claims in
  (* Sort edges for deterministic output *)
  AuthorityGraph.mk (Some nodes) (Go.sortSlice edgeLess edges).

(** ** compiler.go: conflict resolution *)

(** [applyRevocations] and [applySupersessions] are one loop over the edges
    and one over the claims, for the edge types Revokes and Supersedes: the
    artifact with the claims whose id is not the target of an edge of type
    [et]; the graph is left as it is. *)
Definition dropTargets (et : EdgeType) (artifact : AuthorityArtifact.t)
  : AuthorityArtifact.t :=
  let dropped : gset string :=
    fold_left (λ ids edge,
                 if bool_decide (Edge.EdgeType_ edge = et)
                 then {[Edge.ToID edge]} ∪ ids else ids)
              (AuthorityGraph.Edges (AuthorityArtifact.Graph artifact)) ∅ in
  let newClaims :=
    List.filter (λ claim, bool_decide (Claim.ID claim ∉ dropped))
                (AuthorityArtifact.Claims artifact) in
  AuthorityArtifact.withClaims artifact newClaims.

Definition applyRevocations := dropTargets Revokes.
Definition applySupersessions := dropTargets Supersedes.

(** [fmt.Sprintf("%s:%s:%s", claim.Subject, claim.Action, claim.Resource)] *)
Definition conflictKey (claim : Claim.t) : string :=
  Claim.Subject claim +:+ ":" +:+ Claim.Action claim +:+ ":"
  +:+ Claim.Resource claim.

Definition skipsConflict (claim : Claim.t) : bool :=
  bool_decide (Claim.Type_ claim = Delegation)
  || bool_decide (Claim.Type_ claim = Obligation).

(** The [grouped] table of [findConflicts]. *)
Definition groupClaims (claims : list Claim.t) : gmap string (list Claim.t) :=
  fold_left (λ grouped claim,
               if skipsConflict claim then grouped else
               let key := conflictKey claim in
               <[key := default [] (grouped !! key) ++ [claim]]> grouped)
            claims ∅.

Definition findConflicts (claims : list Claim.t) : list (list Claim.t) :=
  let grouped := groupClaims claims in
  (* Sort keys for deterministic iteration *)
  let keys := Go.sortStrings (elements (dom grouped)) in
  flat_map (λ key,
              let group := default [] (grouped !! key) in
              if Go.len group >? 1 then
                let types : gset ClaimType :=
                  list_to_set (map Claim.Type_ group) in
                if (Z.of_nat (size types) >? 1) || (Go.len group >? 1)
                then [group] else []
              else [])
           keys.

(** The [less] function [applyPrecedence] sorts with; a source id missing
    from the table reads as the zero source. *)
Definition precedenceLess (sourcesCopy : gmap string AuthoritySource.t)
    (graph : AuthorityGraph.t) (claimA claimB : Claim.t) : bool :=
  let sourceA :=
    default AuthoritySource.zero (sourcesCopy !! Claim.SourceID claimA) in
  let sourceB :=
    default AuthoritySource.zero (sourcesCopy !! Claim.SourceID claimB) in
  let keyA := precedenceKey sourceA claimA AuthorityTypeOrder graph in
  let keyB := precedenceKey sourceB claimB AuthorityTypeOrder graph in
  comparePrecedenceKeys keyA keyB <? 0.

(** [applyPrecedence] sorts its argument in place and returns a pointer to
    its first element: the result is the slice as the call leaves it, the
    claim the pointer designates ([None] for a nil pointer) and the error. *)
Definition applyPrecedence (sources : gmap string AuthoritySource.t)
    (claims : list Claim.t) (artifact : AuthorityArtifact.t)
  : list Claim.t * option Claim.t * option error :=
  if bool_decide (Go.len claims = 0) then (claims, None, None) else
  let sorted :=
    Go.sortSlice (precedenceLess sources (AuthorityArtifact.Graph artifact))
                 claims in
  (sorted, head sorted, None).

(** The body of the loop over the conflict groups. *)
Fixpoint resolveGroups (sources : gmap string AuthoritySource.t)
    (conflicts : list (list Claim.t)) (artifact : AuthorityArtifact.t)
  : AuthorityArtifact.t * option error :=
  match conflicts with
  | [] => (artifact, None)
  | conflictGroup :: rest =>
      match applyPrecedence sources conflictGroup artifact with
      | (_, _, Some err) => (AuthorityArtifact.zero, Some err)
      | (conflictGroup, None, None) =>
          (AuthorityArtifact.zero,
           Some (ConflictError (map Claim.ID conflictGroup)
                   "unresolvable conflict - failing closed"))
      | (conflictGroup, Some winner, None) =>
          let losingClaimIDs : gset string :=
            list_to_set
              (map Claim.ID
                 (List.filter
                    (λ claim, bool_decide (Claim.ID claim ≠ Claim.ID winner))
                    conflictGroup)) in
          let newClaims :=
            List.filter (λ claim, bool_decide (Claim.ID claim ∉ losingClaimIDs))
                        (AuthorityArtifact.Claims artifact) in
          resolveGroups sources rest
            (AuthorityArtifact.withClaims artifact newClaims)
      end
  end.

(** [ResolveConflicts]; [ctxErr] is what [ctx.Err()] answers at entry. *)
Definition ResolveConflicts (sources : gmap string AuthoritySource.t)
    (ctxErr : option error) (artifact : AuthorityArtifact.t)
  : AuthorityArtifact.t * option error :=
  match ctxErr with
  | Some err => (AuthorityArtifact.zero, Some err)
  | None =>
      (* First, handle revocations and supersessions *)
      let artifact := applyRevocations artifact in
      let artifact := applySupersessions artifact in
      (* Then handle remaining conflicts via precedence *)
      let conflicts := findConflicts (AuthorityArtifact.Claims artifact) in
      match resolveGroups sources conflicts artifact with
      | (_, Some err) => (AuthorityArtifact.zero, Some err)
      | (artifact, None) =>
          (AuthorityArtifact.withGraph artifact
             (buildGraph (AuthorityArtifact.Claims artifact)), None)
      end
  end.

Definition Compile (artifact : AuthorityArtifact.t) : AuthorityArtifact.t :=
  artifact.

Definition getClaimIDs (claims : list Claim.t) : list string :=
  Go.sortStrings (map Claim.ID claims).

(** ** The proof document and its encoding *)

(** The values [EmitProof] hands to [json.MarshalIndent]: strings, ints,
    slices, and maps with string keys (written as the list of their
    entries; the encoder sorts them by key). *)
#[warnings="-register-all"]
Inductive JSON : Type :=
  | JString (s : string)
  | JInt (n : Z)
  | JArray (items : list JSON)
  | JObject (entries : list (string * JSON)).

Fixpoint indentation (depth : nat) : string :=
  match depth with
  | O => ""
  | S d => "  " +:+ indentation d
  end.

Definition newline : string := String (Ascii.ascii_of_nat 10) "".

(** The lines of a non-empty array or object, one element per line. *)
Fixpoint joinLines (depth : nat) (items : list string) : string :=
  match items with
  | [] => ""
  | [x] => newline +:+ indentation depth +:+ x
  | x :: rest =>
      newline +:+ indentation depth +:+ x +:+ "," +:+ joinLines depth rest
  end.

(** The table [scopeToDict] returns; a nil time bound is [None]. *)
Module ScopeDict.
Record t : Type := mk {
  jurisdictions : list string;
  time_start : option string;
  time_end : option string;
  operations : list string
}.
End ScopeDict.

(** The table [IsAuthorized] returns, by key; [scope] is [None] for the
    empty table of the fail-closed answer. *)
Module AuthorizationResult.
Record t : Type := mk {
  allowed : bool;
  authority_id : string;
  reason : string;
  scope : option ScopeDict.t
}.
End AuthorizationResult.

Section Runtime.

(** What the embedding takes from the Go runtime as given:
    [time.Parse(time.RFC3339, s)] (with [None] for an error),
    [t.Format(time.RFC3339)], and the JSON string literal, quotes
    included, that [encoding/json] writes for a Go string. *)
Variable time_Parse_RFC3339 : string → option Time.
Variable time_Format_RFC3339 : Time → string.
Variable json_quote : string → string.

(** [json.MarshalIndent(v, "", "  ")] at nesting [depth]. *)
Fixpoint marshalIndent (depth : nat) (v : JSON) : string :=
  match v with
  | JString s => json_quote s
  | JInt n => Go.Itoa n
  | JArray [] => "[]"
  | JArray items =>
      "[" +:+ joinLines (S depth) (map (marshalIndent (S depth)) items)
      +:+ newline +:+ indentation depth +:+ "]"
  | JObject [] => "{}"
  | JObject entries =>
      let rendered :=
        map (λ kv, (fst kv, marshalIndent (S depth) (snd kv))) entries in
      let sorted :=
        Go.sortSlice (λ a b, String.ltb (fst a) (fst b)) rendered in
      "{" +:+ joinLines (S depth)
                (map (λ kv, json_quote (fst kv) +:+ ": " +:+ snd kv) sorted)
      +:+ newline +:+ indentation depth +:+ "}"
  end.

Definition MarshalIndent (v : JSON) : string := marshalIndent 0 v.

Definition claimEntry (claim : Claim.t) : JSON :=
  JObject [("action", JString (Claim.Action claim));
           ("id", JString (Claim.ID claim));
           ("resource", JString (Claim.Resource claim));
           ("source_id", JString (Claim.SourceID claim));
           ("subject", JString (Claim.Subject claim));
           ("type", JString (Claim.Type_ claim))].

(** The [proofData] table of [EmitProof]. *)
Definition proofData (artifact : AuthorityArtifact.t) : JSON :=
  (* Build claims list deterministically (sorted by ID) *)
  let sortedClaims :=
    Go.sortSlice (λ ci cj, String.ltb (Claim.ID ci) (Claim.ID cj))
                 (AuthorityArtifact.Claims artifact) in
  let claimsList := map claimEntry sortedClaims in
  let graph := AuthorityArtifact.Graph artifact in
  JObject
    [("artifact_id", JString (AuthorityArtifact.ID artifact));
     ("claims", JArray claimsList);
     ("claims_count", JInt (Go.len (AuthorityArtifact.Claims artifact)));
     ("generated_at",
      JString (time_Format_RFC3339 (AuthorityArtifact.GeneratedAt artifact)));
     ("graph",
      JObject [("edges", JInt (Go.len (AuthorityGraph.Edges graph)));
               ("nodes", JInt (Go.lenMap (AuthorityGraph.Nodes graph)))]);
     ("source_id", JString (AuthorityArtifact.SourceID artifact))].

Definition EmitProof (artifact : AuthorityArtifact.t) : string :=
  MarshalIndent (proofData artifact).

(** Masking entries of a document: the value of every top-level entry
    whose key is in [keys] is replaced by a fixed string. *)
Definition maskEntries (keys : list string) (doc : JSON) : JSON :=
  match doc with
  | JObject entries =>
      JObject (map (λ kv, if bool_decide (fst kv ∈ keys)
                          then (fst kv, JString "<masked>") else kv)
                   entries)
  | _ => doc
  end.

(** The proof of an artifact with [artifact_id] and [generated_at]
    masked. *)
Definition maskedProof (artifact : AuthorityArtifact.t) : string :=
  MarshalIndent (maskEntries ["artifact_id"; "generated_at"]
                             (proofData artifact)).

(** ** compiler.go: normalization *)

Definition parseTime (t : option Value) : option Time :=
  match t with
  | None => None
  | Some (VString s) => time_Parse_RFC3339 s
  | Some _ => None
  end.

(** The strings of a [[]interface{}], other elements skipped. *)
Definition stringsOf (v : option Value) : list string :=
  match asSlice v with
  | Some l => omap (λ e, asString (Some e)) l
  | None => []
  end.

Definition parseClaim (claimDict : gmap string Value) (sourceID : string)
  : Claim.t * option error :=
  match asString (claimDict !! "id") with
  | None =>
      (Claim.zero, Some (newValidationError "id" "claim ID is required" None))
  | Some id =>
  if bool_decide (id = "") then
    (Claim.zero, Some (newValidationError "id" "claim ID is required" None))
  else
  match asString (claimDict !! "type") with
  | None =>
      (Claim.zero,
       Some (newValidationError "type" "claim type is required" None))
  | Some claimType =>
  if bool_decide (claimType = "") then
    (Claim.zero,
     Some (newValidationError "type" "claim type is required" None))
  else if negb (IsValidClaimType claimType) then
    (Claim.zero,
     Some (newValidationError "type"
             ("invalid claim type: " +:+ claimType) None))
  else
  (* a nil [scopeData] answers every lookup with nil *)
  let scopeData := default ∅ (asMap (claimDict !! "scope")) in
  let jurisdictions := stringsOf (scopeData !! "jurisdictions") in
  let timeStart := parseTime (scopeData !! "time_start") in
  let timeEnd := parseTime (scopeData !! "time_end") in
  let operations := stringsOf (scopeData !! "operations") in
  let scope := Scope.mk jurisdictions timeStart timeEnd operations in
  let subject := default "" (asString (claimDict !! "subject")) in
  if bool_decide (subject = "") then
    (Claim.zero,
     Some (newValidationError "subject" "claim subject is required" None))
  else
  let action := default "" (asString (claimDict !! "action")) in
  if bool_decide (action = "") then
    (Claim.zero,
     Some (newValidationError "action" "claim action is required" None))
  else
  let resource := default "" (asString (claimDict !! "resource")) in
  if bool_decide (resource = "") then
    (Claim.zero,
     Some (newValidationError "resource" "claim resource is required" None))
  else
  (Claim.mk id claimType subject action resource scope
            (asMap (claimDict !! "conditions")) sourceID, None)
  end end.

(** The loop of [Normalize] over the claim records: the claims parsed and
    the parse errors, both in input order. *)
Fixpoint parseClaims (claimsData : list Value) (sourceID : string)
  : list Claim.t * list error :=
  match claimsData with
  | [] => ([], [])
  | claimData :: rest =>
      let '(claims, parseErrors) := parseClaims rest sourceID in
      match claimData with
      | VMap claimDict =>
          match parseClaim claimDict sourceID with
          | (_, Some err) => (claims, err :: parseErrors)
          | (claim, None) => (claim :: claims, parseErrors)
          end
      | _ => (claims, parseErrors)
      end
  end.

(** [Normalize]: [ctxErr] is the answer of [ctx.Err()] at entry, [uuid]
    and [now] the values [generateUUID()] and [time.Now().UTC()] give, and
    [sources] the compiler's table, returned as the call leaves it. *)
Definition Normalize (ctxErr : option error) (uuid : string) (now : Time)
    (source : AuthoritySource.t) (sources : gmap string AuthoritySource.t)
  : (AuthorityArtifact.t * option error) * gmap string AuthoritySource.t :=
  match ctxErr with
  | Some err => ((AuthorityArtifact.zero, Some err), sources)
  | None =>
  if bool_decide (AuthoritySource.ID source = "") then
    ((AuthorityArtifact.zero, Some ErrEmptySourceID), sources)
  else
  (* Store source for later precedence resolution *)
  let sources := <[AuthoritySource.ID source := source]> sources in
  let '(claims, parseErrors) :=
    match asSlice (AuthoritySource.Metadata source !! "claims") with
    | Some claimsData => parseClaims claimsData (AuthoritySource.ID source)
    | None => ([], [])
    end in
  match parseErrors with
  | err0 :: _ =>
      ((AuthorityArtifact.zero,
        Some (CompilationError "normalization"
                ("failed to parse " +:+ Go.Itoa (Go.len parseErrors)
                 +:+ " claims")
                (Some err0))), sources)
  | [] =>
      let graph := buildGraph claims in
      ((AuthorityArtifact.mk uuid (AuthoritySource.ID source) claims graph now,
        None), sources)
  end
  end.

(** ** compiler.go: the pipeline driver *)

Inductive ProcessResult : Type :=
  | Success (s : CompilationSuccess.t)
  | Failure (f : CompilationFailure.t).

(** [ProcessWithContext].  The context is polled twice, at the entry of
    [Normalize] and at the entry of [ResolveConflicts]; [ctx k] is the
    answer of the poll number [k]. *)
Definition ProcessWithContext (ctx : nat → option error) (uuid : string)
    (now : Time) (source : AuthoritySource.t)
    (sources : gmap string AuthoritySource.t)
  : ProcessResult * gmap string AuthoritySource.t :=
  match Normalize (ctx 0%nat) uuid now source sources with
  | ((_, Some err), sources) =>
      (Failure (CompilationFailure.mk "normalization" (error_Error err)
                  [] true), sources)
  | ((artifact, None), sources) =>
  match ValidateAirWithErrors artifact with
  | Some err =>
      (Failure (CompilationFailure.mk "validation" (error_Error err)
                  (getClaimIDs (AuthorityArtifact.Claims artifact)) true),
       sources)
  | None =>
  (* [artifact, err = c.ResolveConflicts(ctx, artifact)] assigns both *)
  match ResolveConflicts sources (ctx 1%nat) artifact with
  | (artifact, Some err) =>
      (Failure (CompilationFailure.mk "resolution" (error_Error err)
                  (getClaimIDs (AuthorityArtifact.Claims artifact)) true),
       sources)
  | (artifact, None) =>
      let artifact := Compile artifact in
      (* [c.Bind(artifact)] does nothing *)
      let proof := EmitProof artifact in
      (Success (CompilationSuccess.mk artifact proof), sources)
  end end end.

Definition Process := ProcessWithContext (λ _, None).

(** ** runtime_interface.go *)

Definition matches (pattern value : string) : bool :=
  if bool_decide (pattern = "*") then true else
  if bool_decide (pattern = value) then true else
  (* Handle wildcard patterns like "/code/*" *)
  if Go.Contains pattern "*" then
    if Go.HasSuffix pattern "/*" then
      let prefix := Go.TrimSuffix pattern "/*" in
      Go.HasPrefix value (prefix +:+ "/")
    else if Go.HasSuffix pattern "*" then
      let prefix := Go.TrimSuffix pattern "*" in
      Go.HasPrefix value prefix
    else false
  else false.


Definition scopeToDict (scope : Scope.t) : ScopeDict.t :=
  ScopeDict.mk (Scope.Jurisdictions scope)
               (time_Format_RFC3339 <$> Scope.TimeStart scope)
               (time_Format_RFC3339 <$> Scope.TimeEnd scope)
               (Scope.Operations scope).

(** The claims of the artifact that match the query. *)
Definition applicableClaims (artifact : AuthorityArtifact.t)
    (subject action resource : string) : list Claim.t :=
  List.filter (λ claim, matches (Claim.Subject claim) subject
                        && matches (Claim.Action claim) action
                        && matches (Claim.Resource claim) resource)
              (AuthorityArtifact.Claims artifact).

Definition IsAuthorized (artifact : AuthorityArtifact.t)
    (subject action resource : string) : AuthorizationResult.t :=
  (* Find applicable claims (with wildcard matching) *)
  let applicable := applicableClaims artifact subject action resource in
  (* Check for prohibitions first (highest priority) *)
  match List.find (λ claim, bool_decide (Claim.Type_ claim = Prohibition))
                  applicable with
  | Some claim =>
      AuthorizationResult.mk false (Claim.ID claim) "Prohibited by authority"
        (Some (scopeToDict (Claim.Scope claim)))
  | None =>
  (* Check for permissions *)
  match List.find (λ claim, bool_decide (Claim.Type_ claim = Permission))
                  applicable with
  | Some claim =>
      AuthorizationResult.mk true (Claim.ID claim) "Permitted by authority"
        (Some (scopeToDict (Claim.Scope claim)))
  | None =>
  (* Fail closed *)
  AuthorizationResult.mk false (AuthorityArtifact.ID artifact)
    "No applicable authority found - failing closed" None
  end end.

End Runtime.

(** ** Notions the properties are stated with *)

(** The claims of a list that take part in conflict detection under a key,
    in the order of the list: what [grouped[key]] holds. *)
Definition groupOf (key : string) (claims : list Claim.t) : list Claim.t :=
  List.filter (λ claim, negb (skipsConflict claim)
                        && bool_decide (conflictKey claim = key))
              claims.

(** Two claims with the same subject, action and resource, one a Permission
    and the other a Prohibition. *)
Definition opposing (c1 c2 : Claim.t) : Prop :=
  Claim.Subject c1 = Claim.Subject c2
  ∧ Claim.Action c1 = Claim.Action c2
  ∧ Claim.Resource c1 = Claim.Resource c2
  ∧ Claim.Type_ c1 = Permission
  ∧ Claim.Type_ c2 = Prohibition.

(** ** Sample inputs

    Concrete inputs at which the properties below are instantiated. *)

Module Sample.

(** A runtime for the instances: a parser that reads no date, a formatter
    that prints the instant as a number, and a JSON string encoder for
    strings that need no escape. *)
Definition time_Parse : string → option Time := λ _, None.
Definition time_Format : Time → string := λ t, pretty t.
Definition quote : string := String (Ascii.ascii_of_nat 34) "".
Definition json_quote : string → string := λ s, quote +:+ s +:+ quote.

Definition record (entries : list (string * Value)) : Value :=
  VMap (list_to_map entries).

(** A claim record of a source. *)
Definition claimRecord (id type subject action resource : string)
    (conditions : list (string * Value)) : Value :=
  record [("id", VString id); ("type", VString type);
          ("subject", VString subject); ("action", VString action);
          ("resource", VString resource);
          ("conditions", record conditions)].

Definition source (id : string) (type : AuthorityType) (version : string)
    (claims : list Value) : AuthoritySource.t :=
  AuthoritySource.mk id type "name" "description" version
    (list_to_map [("claims", VSlice claims)]).

(** A claim as the normalizer builds it. *)
Definition claim (id : string) (type : ClaimType)
    (subject action resource sourceID : string)
    (jurisdictions : list string) (conditions : list (string * Value))
  : Claim.t :=
  Claim.mk id type subject action resource
    (Scope.mk jurisdictions None None [])
    (Some (list_to_map conditions)) sourceID.

Definition artifact (claims : list Claim.t) (graph : AuthorityGraph.t)
  : AuthorityArtifact.t :=
  AuthorityArtifact.mk "artifact-1" "src" claims graph 1000.

End Sample.

(** ** Further functions of the package *)

(** validate.go: the legacy checker [validateGraph], written apart from
    [validateGraphWithErrors]. *)
Fixpoint edgesValid (nodeIDs : gset string) (edges : list Edge.t) : bool :=
  match edges with
  | [] => true
  | edge :: rest =>
      if bool_decide (Edge.FromID edge ∉ nodeIDs) then false
      else if bool_decide (Edge.ToID edge ∉ nodeIDs) then false
      else if bool_decide (Edge.EdgeType_ edge = "") then false
      else edgesValid nodeIDs rest
  end.

Definition validateGraph (graph : AuthorityGraph.t) : bool :=
  match AuthorityGraph.Nodes graph with
  | None => false
  | Some nodes =>
      if negb (edgesValid (dom nodes) (AuthorityGraph.Edges graph)) then false
      else if hasCycles graph then false
      else true
  end.

(** validate.go: [ValidateScopeWithErrors] *)
Definition ValidateScopeWithErrors (scope : Scope.t) : option error :=
  match Scope.TimeStart scope, Scope.TimeEnd scope with
  | Some ts, Some te =>
      if ts >? te
      then Some (ValidationError "scope.Time"
                   "time_start must be before time_end" (Some ErrInvalidScope))
      else None
  | _, _ => None
  end.

(** compiler.go: [Ingest]; [uuid] and [now] are the values
    [generateUUID()] and [time.Now().UTC()] give. *)
Definition Ingest (uuid : string) (now : Time) (source : AuthoritySource.t)
  : AuthorityArtifact.t * option error :=
  if bool_decide (AuthoritySource.ID source = "")
  then (AuthorityArtifact.zero, Some ErrEmptySourceID)
  else (AuthorityArtifact.mk uuid (AuthoritySource.ID source) []
          (AuthorityGraph.mk (Some ∅) []) now, None).

(** runtime_interface.go: the records [GetObligations] and
    [GetAuthorityInfo] return, by key. *)
Module ObligationInfo.
Record t : Type := mk {
  claim_id : string;
  action : string;
  scope : ScopeDict.t;
  conditions : option (gmap string Value)
}.
End ObligationInfo.

Module ClaimInfo.
Record t : Type := mk {
  id : string;
  type : ClaimType;
  scope : ScopeDict.t;
  conditions : option (gmap string Value)
}.
End ClaimInfo.

Module AuthorityInfo.
Record t : Type := mk {
  artifact_id : string;
  applicable_claims : list ClaimInfo.t;
  total_claims : Z
}.
End AuthorityInfo.

Section RuntimeReader.
Variable time_Format_RFC3339 : Time → string.

Definition GetObligations (artifact : AuthorityArtifact.t)
    (subject action resource : string) : list ObligationInfo.t :=
  map (λ claim,
         ObligationInfo.mk (Claim.ID claim) (Claim.Action claim)
           (scopeToDict time_Format_RFC3339 (Claim.Scope claim))
           (Claim.Conditions claim))
      (List.filter
         (λ claim, bool_decide (Claim.Type_ claim = Obligation)
                   && (matches (Claim.Subject claim) subject
                       && matches (Claim.Action claim) action
                       && matches (Claim.Resource claim) resource))
         (AuthorityArtifact.Claims artifact)).

Definition GetAuthorityInfo (artifact : AuthorityArtifact.t)
    (subject action resource : string) : AuthorityInfo.t :=
  let applicable := applicableClaims artifact subject action resource in
  let applicableClaims :=
    map (λ claim,
           ClaimInfo.mk (Claim.ID claim) (Claim.Type_ claim)
             (scopeToDict time_Format_RFC3339 (Claim.Scope claim))
             (Claim.Conditions claim))
        applicable in
  AuthorityInfo.mk (AuthorityArtifact.ID artifact) applicableClaims
    (Go.len (AuthorityArtifact.Claims artifact)).

End RuntimeReader.

(** ** Further notions the properties are stated with *)

(** An edge of the list leads from [x] to [y]. *)
Definition edgeStep (edges : list Edge.t) (x y : string) : Prop :=
  ∃ e, e ∈ edges ∧ Edge.FromID e = x ∧ Edge.ToID e = y.

(** [x] can be reached from one of the ids [starts] along the edges. *)
Definition reachableFrom (edges : list Edge.t) (starts : list string)
    (x : string) : Prop :=
  ∃ s, s ∈ starts ∧ rtc (edgeStep edges) s x.

(** Some id that can be reached from [starts] lies on a cycle. *)
Definition cycleFrom (edges : list Edge.t) (starts : list string) : Prop :=
  ∃ x, reachableFrom edges starts x ∧ tc (edgeStep edges) x x.

(** A cycle of the graph can be reached from a key of its nodes table. *)
Definition cycleReachable (graph : AuthorityGraph.t) : Prop :=
  cycleFrom (AuthorityGraph.Edges graph)
            (sortedKeys (AuthorityGraph.Nodes graph)).

(** The invariant of the depth-first search on the nodes it has finished
    (visited and off the recursion stack): they are closed under the edges
    and none of them lies on a cycle. *)
Definition finishedOk (edges : list Edge.t) (B : gset string) : Prop :=
  (∀ u w, u ∈ B → edgeStep edges u w → w ∈ B)
  ∧ (∀ u, u ∈ B → ¬ (tc (edgeStep edges) u u)).

(** What [visit] is entered with and what it leaves. *)
Definition visitPre (edges : list Edge.t) (starts : list string)
    (n : string) (V R : gset string) : Prop :=
  R ⊆ V ∧ (n ∉ V) ∧ (∀ r, r ∈ R → rtc (edgeStep edges) r n)
  ∧ reachableFrom edges starts n ∧ finishedOk edges (V ∖ R).

Definition visitPost (edges : list Edge.t) (starts : list string)
    (n : string) (V R : gset string) (b : bool) (st' : DfsState) : Prop :=
  if b then cycleFrom edges starts
  else V ⊆ fst st' ∧ n ∈ fst st' ∧ snd st' = R
       ∧ finishedOk edges (fst st' ∖ R).

(** The three numbers [comparePrecedenceKeys] looks at, for a claim: the
    authority order of its source, its delegation depth and its negated
    scope specificity. *)
Definition precedenceRank (sources : gmap string AuthoritySource.t)
    (graph : AuthorityGraph.t) (claim : Claim.t) : Z * Z * Z :=
  let source :=
    default AuthoritySource.zero (sources !! Claim.SourceID claim) in
  (default 0 (AuthorityTypeOrder !! AuthoritySource.Type_ source),
   getDelegationDepth claim graph,
   - getScopeSpecificity (Claim.Scope claim)).

(** The lexicographic order on such triples. *)
Definition rankLt (r1 r2 : Z * Z * Z) : Prop :=
  let '(o1, d1, s1) := r1 in
  let '(o2, d2, s2) := r2 in
  o1 < o2 ∨ (o1 = o2 ∧ (d1 < d2 ∨ (d1 = d2 ∧ s1 < s2))).

(** The claim [applyPrecedence] designates for a group. *)
Definition winnerOf (sources : gmap string AuthoritySource.t)
    (graph : AuthorityGraph.t) (group : list Claim.t) : option Claim.t :=
  head (Go.sortSlice (precedenceLess sources graph) group).

(** The claim types that take part in an authorization decision. *)
Definition decides (claim : Claim.t) : bool :=
  bool_decide (Claim.Type_ claim = Prohibition)
  || bool_decide (Claim.Type_ claim = Permission).

(** What [parseClaim] checks before it returns a claim. *)
Definition parsedOk (sourceID : string) (claim : Claim.t) : Prop :=
  Claim.ID claim ≠ "" ∧ IsValidClaimType (Claim.Type_ claim) = true
  ∧ Claim.Subject claim ≠ "" ∧ Claim.Action claim ≠ ""
  ∧ Claim.Resource claim ≠ "" ∧ Claim.SourceID claim = sourceID.

(** The string holds no colon. *)
Definition colonFree (s : string) : Prop := ∀ a b, s ≠ a +:+ ":" +:+ b.

(** * Properties *)

(** ** Facts about the runtime helpers *)

Section sortSlice_facts.
Context {A : Type} (less : A → A → bool).

Lemma insertBack_Permutation (x : A) (r : list A) :
  Permutation (Go.insertBack less x r) (x :: r).
Proof.
  induction r as [|y r IH]; simpl; [done|].
  destruct (less x y); [|done].
  rewrite IH. apply perm_swap.
Qed.

Lemma insertion_fold_Permutation (data acc : list A) :
  Permutation (fold_left (λ acc x, Go.insertBack less x acc) data acc)
              (data ++ acc).
Proof.
  revert acc. induction data as [|x data IH]; intros acc; simpl; [done|].
  rewrite IH, insertBack_Permutation. symmetry. apply Permutation_middle.
Qed.

Lemma sortSlice_Permutation (data : list A) :
  Permutation (Go.sortSlice less data) data.
Proof.
  unfold Go.sortSlice. rewrite <- Permutation_rev.
  rewrite insertion_fold_Permutation. by rewrite app_nil_r.
Qed.

Lemma sortSlice_elem_of (x : A) (data : list A) :
  x ∈ Go.sortSlice less data ↔ x ∈ data.
Proof. by rewrite sortSlice_Permutation. Qed.

Lemma sortSlice_length (data : list A) :
  List.length (Go.sortSlice less data) = List.length data.
Proof. apply Permutation_length, sortSlice_Permutation. Qed.

Lemma sortSlice_head (data : list A) :
  data ≠ [] → ∃ w, head (Go.sortSlice less data) = Some w ∧ w ∈ data.
Proof.
  intros Hne. pose proof (sortSlice_Permutation data) as Hp.
  destruct (Go.sortSlice less data) as [|w s] eqn:Hs.
  - apply Permutation_nil in Hp. done.
  - exists w. split; [done|]. rewrite <- Hp. apply list_elem_of_here.
Qed.
End sortSlice_facts.

Lemma filter_elem_of {A} (f : A → bool) (l : list A) (x : A) :
  x ∈ List.filter f l ↔ x ∈ l ∧ f x = true.
Proof. rewrite !list_elem_of_In. apply filter_In. Qed.

Lemma filter_all {A} (f : A → bool) (l : list A) :
  (∀ x, x ∈ l → f x = true) → List.filter f l = l.
Proof.
  induction l as [|x l IH]; intros H; simpl; [done|].
  rewrite (H x) by apply list_elem_of_here.
  f_equal. apply IH. intros y Hy. apply H. by apply list_elem_of_further.
Qed.

(** ** The scenarios of the specification, run on the embedding *)

(** S1: a single Permission on [/code/*]; the engineer may read below
    [/code], the intern is denied by the fail-closed answer. *)
Example scenario_simple_permission :
  let source :=
    Sample.source "src" Organizational "1.0"
      [Sample.claimRecord "c1" "permission" "engineer" "read" "/code/*" []] in
  ∃ success,
    fst (Process Sample.time_Parse Sample.time_Format Sample.json_quote
           "artifact-1" 1000 source ∅) = Success success
    ∧ IsAuthorized Sample.time_Format (CompilationSuccess.Artifact success)
        "engineer" "read" "/code/x"
      = AuthorizationResult.mk true "c1" "Permitted by authority"
          (Some (ScopeDict.mk [] None None []))
    ∧ IsAuthorized Sample.time_Format (CompilationSuccess.Artifact success)
        "intern" "read" "/code/x"
      = AuthorizationResult.mk false "artifact-1"
          "No applicable authority found - failing closed" None.
Proof.
  intros source. eexists. split; [vm_compute; reflexivity|].
  split; vm_compute; reflexivity.
Qed.

(** S3: a claim revoked by another is not in the compiled artifact. *)
Example scenario_revocation :
  let source :=
    Sample.source "src" Legal "1.0"
      [Sample.claimRecord "cA" "permission" "user" "read" "/a"
         [("revokes", VString "cB")];
       Sample.claimRecord "cB" "permission" "user" "read" "/b" [];
       Sample.claimRecord "cC" "permission" "user" "read" "/c" []] in
  ∃ success,
    fst (Process Sample.time_Parse Sample.time_Format Sample.json_quote
           "artifact-1" 1000 source ∅) = Success success
    ∧ map Claim.ID
        (AuthorityArtifact.Claims (CompilationSuccess.Artifact success))
      = ["cA"; "cC"].
Proof.
  intros source. eexists. split; vm_compute; reflexivity.
Qed.

(** S4: two claims delegating to each other fail validation, with both
    ids reported. *)
Example scenario_cyclic_delegation :
  let source :=
    Sample.source "src" Legal "1.0"
      [Sample.claimRecord "b" "delegation" "user" "read" "/b"
         [("delegates_to", VString "a")];
       Sample.claimRecord "a" "delegation" "user" "read" "/a"
         [("delegates_to", VString "b")]] in
  fst (Process Sample.time_Parse Sample.time_Format Sample.json_quote
         "artifact-1" 1000 source ∅)
  = Failure (CompilationFailure.mk "validation"
               "authority graph contains cycles" ["a"; "b"] true).
Proof. vm_compute. reflexivity. Qed.

(** S6: the proof lists the claims by id, whatever their order in the
    source. *)
Example scenario_deterministic_proof :
  let claim_b :=
    Sample.claim "claim_b" Permission "user" "read" "/b" "src" [] [] in
  let claim_a :=
    Sample.claim "claim_a" Permission "user" "read" "/a" "src" [] [] in
  proofData Sample.time_Format
    (Sample.artifact [claim_b; claim_a] (buildGraph [claim_b; claim_a]))
  = JObject
      [("artifact_id", JString "artifact-1");
       ("claims", JArray [claimEntry claim_a; claimEntry claim_b]);
       ("claims_count", JInt 2);
       ("generated_at", JString "1000");
       ("graph", JObject [("edges", JInt 0); ("nodes", JInt 2)]);
       ("source_id", JString "src")].
Proof. vm_compute. reflexivity. Qed.

(** ** Scope containment *)

Lemma forallb_stringSet (inner outer : list string) :
  forallb (λ j, bool_decide (j ∈ stringSet outer)) (elements (stringSet inner))
    = true
  ↔ ∀ j, j ∈ inner → j ∈ outer.
Proof.
  rewrite forallb_forall. unfold stringSet. split.
  - intros H j Hj. specialize (H j).
    rewrite bool_decide_eq_true, elem_of_list_to_set in H. apply H.
    apply list_elem_of_In, elem_of_elements, elem_of_list_to_set, Hj.
  - intros H j Hj. apply bool_decide_eq_true, elem_of_list_to_set, H.
    by apply list_elem_of_In, elem_of_elements, elem_of_list_to_set in Hj.
Qed.

(** C5. [isScopeContained inner outer] holds exactly when the jurisdictions
    and the operations of [inner] are subsets of those of [outer], the start
    of [inner] is not before that of [outer] when both are present, and the
    end of [inner] is not after that of [outer] when both are present; an
    absent bound on either side constrains nothing. *)
Theorem isScopeContained_iff_spec (inner outer : Scope.t) :
  isScopeContained inner outer = true ↔
    (∀ j, j ∈ Scope.Jurisdictions inner → j ∈ Scope.Jurisdictions outer)
    ∧ (∀ o, o ∈ Scope.Operations inner → o ∈ Scope.Operations outer)
    ∧ (∀ ostart istart,
         Scope.TimeStart outer = Some ostart →
         Scope.TimeStart inner = Some istart → istart >= ostart)
    ∧ (∀ oend iend,
         Scope.TimeEnd outer = Some oend →
         Scope.TimeEnd inner = Some iend → iend <= oend).
Proof.
  unfold isScopeContained.
  rewrite <- (forallb_stringSet (Scope.Jurisdictions inner)).
  rewrite <- (forallb_stringSet (Scope.Operations inner)).
  destruct (forallb _ (elements (stringSet (Scope.Jurisdictions inner))));
    simpl; [|split; [done|by intros (?&?&?)]].
  destruct (forallb _ (elements (stringSet (Scope.Operations inner))));
    simpl; [|split; [done|by intros (?&?&?)]].
  destruct (Scope.TimeStart outer) as [os|], (Scope.TimeStart inner) as [is_|],
    (Scope.TimeEnd outer) as [oe|], (Scope.TimeEnd inner) as [ie|];
    repeat match goal with
           | |- context [?a <? ?b] => destruct (Z.ltb_spec a b)
           | |- context [?a >? ?b] =>
               rewrite (Z.gtb_ltb a b); destruct (Z.ltb_spec b a)
           end;
    split;
    try (intros _; repeat split; try done; intros ? ? [= <-] [= <-]; lia);
    try done;
    intros (_ & _ & Hs & He);
    try (specialize (Hs _ _ eq_refl eq_refl));
    try (specialize (He _ _ eq_refl eq_refl)); lia.
Qed.

(** An instance of C5: a scope within a wider one that has no end. *)
Lemma isScopeContained_iff_spec_witness :
  isScopeContained (Scope.mk ["US"] (Some 20) (Some 30) ["read"])
                   (Scope.mk ["US"; "EU"] (Some 10) None ["read"; "write"])
  = true.
Proof.
  apply (proj2 (isScopeContained_iff_spec
                  (Scope.mk ["US"] (Some 20) (Some 30) ["read"])
                  (Scope.mk ["US"; "EU"] (Some 10) None ["read"; "write"]))).
  simpl. repeat split.
  - intros j Hj. apply list_elem_of_singleton in Hj as ->.
    apply list_elem_of_here.
  - intros o Ho. apply list_elem_of_singleton in Ho as ->.
    apply list_elem_of_here.
  - intros ostart istart [= <-] [= <-]. lia.
  - intros oend iend [=].
Defined.

(** ** The validator and the nodes table *)

(** C7. Validation answers [ErrNilGraph] for every artifact whose nodes
    table is nil, whatever its claims and edges; an artifact with no claim
    and an initialized, empty nodes table validates (the answer is nil). *)
Theorem ValidateAirWithErrors_nil_vs_empty :
  (∀ id sourceID claims edges generatedAt,
     ValidateAirWithErrors
       (AuthorityArtifact.mk id sourceID claims
          (AuthorityGraph.mk None edges) generatedAt)
     = Some ErrNilGraph)
  ∧ (∀ id sourceID edges generatedAt,
       ValidateAirWithErrors
         (AuthorityArtifact.mk id sourceID []
            (AuthorityGraph.mk (Some ∅) edges) generatedAt)
       = None).
Proof. split; reflexivity. Qed.

(** An instance of C7: the two artifacts of the validator's own test. *)
Lemma ValidateAirWithErrors_nil_vs_empty_witness :
  ValidateAirWithErrors
    (AuthorityArtifact.mk "nil_graph" "source" [] AuthorityGraph.zero 1000)
  = Some ErrNilGraph
  ∧ ValidateAirWithErrors
      (AuthorityArtifact.mk "empty" "source" []
         (AuthorityGraph.mk (Some ∅) []) 1000)
    = None.
Proof.
  split.
  - apply (proj1 ValidateAirWithErrors_nil_vs_empty).
  - apply (proj2 ValidateAirWithErrors_nil_vs_empty).
Defined.

(** ** The runtime reader *)

Section IsAuthorized_facts.
Variable time_Format_RFC3339 : Time → string.

(** C3 (as amended). With the matching claims being the claims of the
    artifact whose subject, action and resource patterns all match the
    query: if a matching claim is a Prohibition the answer denies and
    carries the id of a matching Prohibition; otherwise, if a matching
    claim is a Permission the answer allows and carries the id of a
    matching Permission; otherwise the answer denies, carries the id of
    the artifact and the reason "No applicable authority found - failing
    closed". *)
Theorem IsAuthorized_decision (artifact : AuthorityArtifact.t)
    (subject action resource : string) :
  let matching (c : Claim.t) (type : ClaimType) : Prop :=
    c ∈ AuthorityArtifact.Claims artifact
    ∧ matches (Claim.Subject c) subject = true
    ∧ matches (Claim.Action c) action = true
    ∧ matches (Claim.Resource c) resource = true
    ∧ Claim.Type_ c = type in
  let res :=
    IsAuthorized time_Format_RFC3339 artifact subject action resource in
  ((∃ c, matching c Prohibition) →
     AuthorizationResult.allowed res = false
     ∧ ∃ c, matching c Prohibition
            ∧ AuthorizationResult.authority_id res = Claim.ID c)
  ∧ (¬ (∃ c, matching c Prohibition) → (∃ c, matching c Permission) →
       AuthorizationResult.allowed res = true
       ∧ ∃ c, matching c Permission
              ∧ AuthorizationResult.authority_id res = Claim.ID c)
  ∧ (¬ (∃ c, matching c Prohibition) → ¬ (∃ c, matching c Permission) →
       AuthorizationResult.allowed res = false
       ∧ AuthorizationResult.authority_id res
         = AuthorityArtifact.ID artifact
       ∧ AuthorizationResult.reason res
         = "No applicable authority found - failing closed").
Proof.
  intros matching res.
  assert (Hfind : ∀ type,
    match List.find (λ claim, bool_decide (Claim.Type_ claim = type))
            (applicableClaims artifact subject action resource) with
    | Some c => matching c type
    | None => ¬ ∃ c, matching c type
    end).
  { intros type.
    destruct (List.find _ _) as [c|] eqn:Hf.
    - apply find_some in Hf as [Hin Ht].
      apply list_elem_of_In, filter_elem_of in Hin as [Hin Hm].
      apply bool_decide_eq_true in Ht.
      apply andb_true_iff in Hm as [Hm Hr].
      apply andb_true_iff in Hm as [Hs Ha]. by repeat split.
    - intros (c & Hin & Hs & Ha & Hr & Ht).
      eapply find_none in Hf;
        [|apply list_elem_of_In, filter_elem_of; split; [exact Hin|]].
      + by apply bool_decide_eq_false in Hf.
      + by rewrite Hs, Ha, Hr. }
  pose proof (Hfind Prohibition) as Hpro.
  pose proof (Hfind Permission) as Hper.
  subst res. unfold IsAuthorized.
  destruct (List.find _ _) as [c|]; simpl.
  - split; [intros _; split; [done|by exists c]|].
    split; intros Hn; destruct Hn; by exists c.
  - split; [done|].
    destruct (List.find _ _) as [c|]; simpl.
    + split; [intros _ _; split; [done|by exists c]|].
      intros _ Hn. destruct Hn. by exists c.
    + split; [done|]. by intros _ _.
Qed.
End IsAuthorized_facts.

(** An instance of C3: a Permission on every resource and a Prohibition on
    one subtree; below the subtree the Prohibition decides. *)
Lemma IsAuthorized_decision_witness :
  let allow := Sample.claim "allow" Permission "user" "read" "*" "src" [] [] in
  let deny :=
    Sample.claim "deny" Prohibition "user" "read" "/secret/*" "src" [] [] in
  let artifact := Sample.artifact [allow; deny] (buildGraph [allow; deny]) in
  AuthorizationResult.allowed
    (IsAuthorized Sample.time_Format artifact "user" "read" "/secret/key")
  = false.
Proof.
  intros allow deny artifact.
  apply (proj1 (IsAuthorized_decision Sample.time_Format artifact
                  "user" "read" "/secret/key")).
  exists deny. split; [apply list_elem_of_further, list_elem_of_here|].
  repeat split; vm_compute; reflexivity.
Defined.

(** C3, as stated, fails at the artifact without claims: the answer denies
    and carries the id of the artifact, but its reason is not the string the
    specification quotes. *)
Lemma IsAuthorized_reason_counterexample :
  let res :=
    IsAuthorized Sample.time_Format (Sample.artifact [] (buildGraph []))
                 "intern" "read" "/code/x" in
  ¬ (AuthorizationResult.allowed res = false
     ∧ AuthorizationResult.authority_id res = "artifact-1"
     ∧ AuthorizationResult.reason res
       = "no applicable authority — failing closed").
Proof. intros res (_ & _ & Hreason). vm_compute in Hreason. discriminate. Qed.

(** ** Normalization and the sources table *)

Section Normalize_facts.
Variable time_Parse_RFC3339 : string → option Time.

Lemma parseClaims_keeps_error (claimsData : list Value) (sourceID : string)
    (claimDict : gmap string Value) (err : error) :
  VMap claimDict ∈ claimsData →
  (parseClaim time_Parse_RFC3339 claimDict sourceID).2 = Some err →
  (parseClaims time_Parse_RFC3339 claimsData sourceID).2 ≠ [].
Proof.
  intros Hin Herr. induction claimsData as [|v rest IH]; simpl.
  - by apply elem_of_nil in Hin.
  - destruct (parseClaims _ rest sourceID) as [claims errs] eqn:Hrest.
    apply elem_of_cons in Hin as [<-|Hin].
    + destruct (parseClaim _ claimDict sourceID) as [c [e|]]; simpl in *;
        [done|discriminate].
    + specialize (IH Hin). simpl in IH.
      destruct v as [| |m|]; simpl; try done.
      by destruct (parseClaim _ m sourceID) as [c [e|]].
Qed.

(** C9. When a claim record of the source fails to parse, [Normalize]
    (entered with a live context and a non-empty source id) returns a
    normalization error and no artifact, and the sources table it leaves
    is the initial table with the source registered under its id: the
    registration is not undone. *)
Theorem Normalize_registers_source_on_parse_failure
    (uuid : string) (now : Time) (source : AuthoritySource.t)
    (sources : gmap string AuthoritySource.t) (claimsData : list Value)
    (claimDict : gmap string Value) (err : error) :
  AuthoritySource.ID source ≠ "" →
  AuthoritySource.Metadata source !! "claims" = Some (VSlice claimsData) →
  VMap claimDict ∈ claimsData →
  (parseClaim time_Parse_RFC3339 claimDict (AuthoritySource.ID source)).2
    = Some err →
  ∃ message err0,
    Normalize time_Parse_RFC3339 None uuid now source sources
    = ((AuthorityArtifact.zero,
        Some (CompilationError "normalization" message (Some err0))),
       <[AuthoritySource.ID source := source]> sources).
Proof.
  intros Hid Hmeta Hin Herr. unfold Normalize.
  rewrite bool_decide_false by done. rewrite Hmeta. simpl.
  pose proof (parseClaims_keeps_error _ _ _ _ Hin Herr) as Hne.
  destruct (parseClaims _ claimsData _) as [claims [|err0 errs]];
    simpl in *; [done|].
  by eexists _, err0.
Qed.
End Normalize_facts.

(** An instance of C9: a source whose second claim record has no subject,
    normalized against an empty table. *)
Lemma Normalize_registers_source_on_parse_failure_witness :
  let source :=
    Sample.source "src" Legal "1.0"
      [Sample.claimRecord "c1" "permission" "user" "read" "/a" [];
       Sample.claimRecord "c2" "permission" "" "read" "/b" []] in
  ∃ message err0,
    Normalize Sample.time_Parse None "artifact-1" 1000 source ∅
    = ((AuthorityArtifact.zero,
        Some (CompilationError "normalization" message (Some err0))),
       <["src" := source]> ∅).
Proof.
  intros source.
  apply (Normalize_registers_source_on_parse_failure Sample.time_Parse
           "artifact-1" 1000 source ∅
           [Sample.claimRecord "c1" "permission" "user" "read" "/a" [];
            Sample.claimRecord "c2" "permission" "" "read" "/b" []]
           (list_to_map
              [("id", VString "c2"); ("type", VString "permission");
               ("subject", VString ""); ("action", VString "read");
               ("resource", VString "/b");
               ("conditions", Sample.record [])])
           (ValidationError "subject" "claim subject is required" None)).
  - discriminate.
  - reflexivity.
  - apply list_elem_of_further, list_elem_of_here.
  - vm_compute. reflexivity.
Defined.

(** ** Conflict groups *)

Lemma len_nonempty {A} (l : list A) : l ≠ [] → Go.len l ≠ 0.
Proof. destruct l; [done|]. unfold Go.len. simpl. lia. Qed.

Lemma filter_sublist {A} (f : A → bool) (l : list A) :
  List.filter f l `sublist_of` l.
Proof.
  induction l as [|x l IH]; simpl; [done|].
  destruct (f x); [by apply sublist_skip|by apply sublist_cons].
Qed.

Lemma groupClaims_fold (claims : list Claim.t)
    (grouped : gmap string (list Claim.t)) (key : string) :
  let step := λ (grouped : gmap string (list Claim.t)) claim,
    if skipsConflict claim then grouped else
    <[conflictKey claim :=
        default [] (grouped !! conflictKey claim) ++ [claim]]> grouped in
  default [] (fold_left step claims grouped !! key)
    = default [] (grouped !! key) ++ groupOf key claims
  ∧ (key ∈ dom (fold_left step claims grouped)
     ↔ key ∈ dom grouped ∨ groupOf key claims ≠ []).
Proof.
  intros step. revert grouped.
  induction claims as [|c claims IH]; intros grouped.
  - simpl. rewrite app_nil_r. split; [done|].
    split; [by left|by intros [?|?]].
  - destruct (IH (step grouped c)) as [IH1 IH2].
    change (fold_left step (c :: claims) grouped)
      with (fold_left step claims (step grouped c)).
    rewrite IH1, IH2. unfold groupOf. simpl. fold (groupOf key claims).
    subst step. simpl. destruct (skipsConflict c); simpl; [done|].
    destruct (decide (conflictKey c = key)) as [->|Hne].
    + rewrite bool_decide_true by done.
      rewrite lookup_insert_eq, dom_insert_L. simpl.
      rewrite <- app_assoc. split; [done|].
      split; [intros _; by right|intros _; left; set_solver].
    + rewrite bool_decide_false by done.
      rewrite lookup_insert_ne by done. rewrite dom_insert_L.
      split; [done|]. set_solver.
Qed.

Lemma groupClaims_lookup (claims : list Claim.t) (key : string) :
  default [] (groupClaims claims !! key) = groupOf key claims.
Proof.
  unfold groupClaims.
  destruct (groupClaims_fold claims ∅ key) as [-> _].
  by rewrite lookup_empty.
Qed.

Lemma groupClaims_dom (claims : list Claim.t) (key : string) :
  key ∈ dom (groupClaims claims) ↔ groupOf key claims ≠ [].
Proof.
  unfold groupClaims.
  destruct (groupClaims_fold claims ∅ key) as [_ ->].
  rewrite dom_empty_L. set_solver.
Qed.

(** The conflict groups are the groups with at least two members. *)
Lemma findConflicts_spec (claims group : list Claim.t) :
  group ∈ findConflicts claims
  ↔ ∃ key, group = groupOf key claims ∧ (1 < List.length group)%nat.
Proof.
  unfold findConflicts. rewrite list_elem_of_In, in_flat_map.
  split.
  - intros (key & _ & Hg). rewrite groupClaims_lookup in Hg.
    exists key. unfold Go.len in Hg.
    destruct (Z.of_nat (List.length (groupOf key claims)) >? 1) eqn:Hlen;
      [|by destruct Hg].
    rewrite orb_true_r in Hg. destruct Hg as [<-|[]].
    split; [done|]. apply Z.gtb_lt in Hlen. lia.
  - intros (key & -> & Hlen). exists key. split.
    + apply list_elem_of_In, sortSlice_elem_of, elem_of_elements,
        groupClaims_dom.
      intros Hnil. rewrite Hnil in Hlen. simpl in Hlen. lia.
    + rewrite groupClaims_lookup. unfold Go.len.
      assert ((Z.of_nat (List.length (groupOf key claims)) >? 1) = true) as ->
        by (apply Z.gtb_lt; lia).
      rewrite orb_true_r. by left.
Qed.

Lemma findConflicts_nonempty (claims : list Claim.t) :
  Forall (λ group, group ≠ []) (findConflicts claims).
Proof.
  apply Forall_forall. intros group Hin.
  apply findConflicts_spec in Hin as (key & _ & Hlen).
  intros ->. simpl in Hlen. lia.
Qed.

(** ** Precedence resolution *)

Section Resolve_facts.
Variable sources : gmap string AuthoritySource.t.

Lemma applyPrecedence_nonempty (claims : list Claim.t)
    (artifact : AuthorityArtifact.t) :
  claims ≠ [] →
  ∃ sorted winner,
    applyPrecedence sources claims artifact = (sorted, Some winner, None)
    ∧ Permutation sorted claims ∧ winner ∈ claims.
Proof.
  intros Hne. unfold applyPrecedence.
  rewrite bool_decide_false by by apply len_nonempty.
  destruct (sortSlice_head
              (precedenceLess sources (AuthorityArtifact.Graph artifact))
              claims Hne) as (w & Hw & Hin).
  eexists _, w. rewrite Hw. split; [done|].
  split; [apply sortSlice_Permutation|done].
Qed.

(** What the loop over the conflict groups leaves: a sublist of the claims
    in which, for every group, the ids of the group's members are reduced to
    the id of one member, the group's winner. *)
Lemma resolveGroups_spec (conflicts : list (list Claim.t))
    (artifact : AuthorityArtifact.t) :
  Forall (λ group, group ≠ []) conflicts →
  ∃ claims',
    resolveGroups sources conflicts artifact
    = (AuthorityArtifact.withClaims artifact claims', None)
    ∧ claims' `sublist_of` AuthorityArtifact.Claims artifact
    ∧ ∀ group, group ∈ conflicts →
        ∃ winner, winner ∈ group
          ∧ ∀ c, c ∈ claims' → Claim.ID c ∈ map Claim.ID group →
                 Claim.ID c = Claim.ID winner.
Proof.
  revert artifact.
  induction conflicts as [|group rest IH]; intros artifact Hne.
  - exists (AuthorityArtifact.Claims artifact). simpl.
    split; [by destruct artifact|]. split; [done|].
    intros group Hin. by apply elem_of_nil in Hin.
  - apply Forall_cons in Hne as [Hgroup Hrest]. simpl.
    destruct (applyPrecedence_nonempty group artifact Hgroup)
      as (sorted & winner & -> & Hperm & Hwin).
    set (losing := list_to_set _ : gset string).
    set (newClaims := List.filter _ _).
    destruct (IH (AuthorityArtifact.withClaims artifact newClaims) Hrest)
      as (claims' & -> & Hsub & Hgroups).
    exists claims'. split; [done|]. simpl in Hsub.
    split; [etrans; [exact Hsub|apply filter_sublist]|].
    intros g Hg. apply elem_of_cons in Hg as [->|Hg]; [|by apply Hgroups].
    exists winner. split; [done|]. intros c Hc Hid.
    destruct (decide (Claim.ID c = Claim.ID winner)) as [|Hneq]; [done|].
    exfalso.
    eapply elem_of_sublist in Hc; [|exact Hsub].
    apply filter_elem_of in Hc as [_ Hkeep].
    apply bool_decide_eq_true in Hkeep. apply Hkeep.
    apply list_elem_of_fmap in Hid as (c0 & Hid0 & Hc0).
    apply elem_of_list_to_set, list_elem_of_fmap.
    exists c0. split; [done|]. apply filter_elem_of.
    split; [by rewrite Hperm|]. apply bool_decide_eq_true. congruence.
Qed.

(** The form of a successful answer of [ResolveConflicts]. *)
Lemma ResolveConflicts_spec (artifact : AuthorityArtifact.t) :
  let revoked := applySupersessions (applyRevocations artifact) in
  ∃ claims',
    ResolveConflicts sources None artifact
    = (AuthorityArtifact.withGraph
         (AuthorityArtifact.withClaims artifact claims')
         (buildGraph claims'), None)
    ∧ claims' `sublist_of` AuthorityArtifact.Claims revoked
    ∧ ∀ group, group ∈ findConflicts (AuthorityArtifact.Claims revoked) →
        ∃ winner, winner ∈ group
          ∧ ∀ c, c ∈ claims' → Claim.ID c ∈ map Claim.ID group →
                 Claim.ID c = Claim.ID winner.
Proof.
  intros revoked. unfold ResolveConflicts. fold revoked.
  destruct (resolveGroups_spec
              (findConflicts (AuthorityArtifact.Claims revoked)) revoked
              (findConflicts_nonempty _))
    as (claims' & -> & Hsub & Hgroups).
  exists claims'. done.
Qed.

(** C10. Every group [findConflicts] forms is non-empty, [applyPrecedence]
    answers a non-empty group with a winner and no error, and so
    [ResolveConflicts], entered with a live context, succeeds on every
    artifact; any error it returns is the one the context reported at
    entry, never the unresolvable-conflict failure. *)
Theorem ResolveConflicts_only_fails_on_cancellation
    (artifact : AuthorityArtifact.t) :
  (∀ claims group, group ∈ findConflicts claims → group ≠ [])
  ∧ (∀ group a, group ≠ [] →
       ∃ sorted winner,
         applyPrecedence sources group a = (sorted, Some winner, None))
  ∧ (∃ resolved, ResolveConflicts sources None artifact = (resolved, None))
  ∧ (∀ ctxErr resolved err,
       ResolveConflicts sources ctxErr artifact = (resolved, Some err) →
       ctxErr = Some err).
Proof.
  split; [|split; [|split]].
  - intros claims group Hin.
    by eapply Forall_forall in Hin; [|apply findConflicts_nonempty].
  - intros group a Hne.
    destruct (applyPrecedence_nonempty group a Hne) as (s & w & -> & _).
    by eexists _, _.
  - destruct (ResolveConflicts_spec artifact) as (claims' & -> & _).
    by eexists.
  - intros [e|] resolved err Heq.
    + unfold ResolveConflicts in Heq. by injection Heq as _ ->.
    + destruct (ResolveConflicts_spec artifact) as (claims' & Hok & _).
      rewrite Hok in Heq. discriminate.
Qed.
End Resolve_facts.

(** An instance of C10: a conflict between two claims is resolved. *)
Lemma ResolveConflicts_only_fails_on_cancellation_witness :
  let cP := Sample.claim "cP" Permission "user" "read" "/doc" "src" [] [] in
  let cX := Sample.claim "cX" Prohibition "user" "read" "/doc" "src" [] [] in
  ∃ resolved,
    ResolveConflicts (<["src" := Sample.source "src" Legal "1.0" []]> ∅) None
      (Sample.artifact [cP; cX] (buildGraph [cP; cX])) = (resolved, None).
Proof.
  intros cP cX.
  apply (proj1 (proj2 (proj2
           (ResolveConflicts_only_fails_on_cancellation
              (<["src" := Sample.source "src" Legal "1.0" []]> ∅)
              (Sample.artifact [cP; cX] (buildGraph [cP; cX])))))).
Defined.

(** ** Surviving claims do not oppose each other *)

Lemma two_members_length {A} (l : list A) (x y : A) :
  x ∈ l → y ∈ l → x ≠ y → (1 < List.length l)%nat.
Proof.
  intros Hx Hy Hne. destruct l as [|a [|b l]]; simpl; [| |lia].
  - by apply elem_of_nil in Hx.
  - apply list_elem_of_singleton in Hx, Hy. congruence.
Qed.

Lemma NoDup_map_inj {A B} (f : A → B) (l : list A) (x y : A) :
  NoDup (map f l) → x ∈ l → y ∈ l → f x = f y → x = y.
Proof.
  induction l as [|a l IH]; simpl; intros Hnd Hx Hy Heq.
  - by apply elem_of_nil in Hx.
  - apply NoDup_cons in Hnd as [Hnotin Hnd].
    apply elem_of_cons in Hx as [->|Hx], Hy as [->|Hy]; [done| | |by apply IH].
    + destruct Hnotin. rewrite Heq. apply list_elem_of_fmap. by exists y.
    + destruct Hnotin. rewrite <- Heq. apply list_elem_of_fmap. by exists x.
Qed.

Lemma dropTargets_sublist (et : EdgeType) (artifact : AuthorityArtifact.t) :
  AuthorityArtifact.Claims (dropTargets et artifact)
    `sublist_of` AuthorityArtifact.Claims artifact.
Proof. apply filter_sublist. Qed.

Lemma opposing_same_group (claims : list Claim.t) (c1 c2 : Claim.t) :
  c1 ∈ claims → c2 ∈ claims → opposing c1 c2 →
  c1 ∈ groupOf (conflictKey c1) claims
  ∧ c2 ∈ groupOf (conflictKey c1) claims ∧ c1 ≠ c2.
Proof.
  intros H1 H2 (Hs & Ha & Hr & Ht1 & Ht2).
  assert (conflictKey c2 = conflictKey c1) as Hkey
    by (unfold conflictKey; by rewrite Hs, Ha, Hr).
  repeat split.
  - apply filter_elem_of. split; [done|].
    unfold skipsConflict. rewrite Ht1.
    by rewrite (bool_decide_true (conflictKey c1 = _)).
  - apply filter_elem_of. split; [done|].
    unfold skipsConflict. rewrite Ht2.
    by rewrite (bool_decide_true (conflictKey c2 = _)).
  - intros ->. rewrite Ht1 in Ht2. discriminate.
Qed.

(** C4 (as amended). For every artifact whose claims have pairwise
    distinct ids and every artifact the conflict resolver returns for it, no
    two surviving claims share subject, action and resource while one is a
    Permission and the other a Prohibition. *)
Theorem ResolveConflicts_no_opposing_survivors
    (sources : gmap string AuthoritySource.t)
    (artifact resolved : AuthorityArtifact.t) (c1 c2 : Claim.t) :
  NoDup (map Claim.ID (AuthorityArtifact.Claims artifact)) →
  ResolveConflicts sources None artifact = (resolved, None) →
  c1 ∈ AuthorityArtifact.Claims resolved →
  c2 ∈ AuthorityArtifact.Claims resolved →
  ¬ opposing c1 c2.
Proof.
  intros Hnd Hres H1 H2 Hopp.
  destruct (ResolveConflicts_spec sources artifact)
    as (claims' & Heq & Hsub & Hgroups).
  rewrite Heq in Hres. injection Hres as <-. simpl in H1, H2.
  set (revoked := applySupersessions (applyRevocations artifact)) in *.
  assert (Hsub' : claims' `sublist_of` AuthorityArtifact.Claims artifact).
  { etrans; [exact Hsub|]. etrans; apply dropTargets_sublist. }
  destruct (opposing_same_group (AuthorityArtifact.Claims revoked) c1 c2)
    as (Hg1 & Hg2 & Hne);
    [by eapply elem_of_sublist|by eapply elem_of_sublist|done|].
  destruct (Hgroups (groupOf (conflictKey c1) (AuthorityArtifact.Claims revoked)))
    as (winner & _ & Hids).
  { apply findConflicts_spec. eexists. split; [done|].
    by apply (two_members_length _ c1 c2). }
  apply Hne.
  apply (NoDup_map_inj Claim.ID claims'); [|done|done|].
  - eapply sublist_NoDup; [exact Hnd|]. by apply fmap_sublist.
  - rewrite (Hids c1), (Hids c2); [done|done| |done|];
      apply list_elem_of_fmap; by eexists.
Qed.

(** An instance of C4: a Permission and a Prohibition on the same key with
    distinct ids; one survives, and it does not oppose itself. *)
Lemma ResolveConflicts_no_opposing_survivors_witness :
  ¬ opposing
      (Sample.claim "cP" Permission "user" "read" "/doc" "src" [] [])
      (Sample.claim "cP" Permission "user" "read" "/doc" "src" [] []).
Proof.
  set (cP := Sample.claim "cP" Permission "user" "read" "/doc" "src" [] []).
  set (cX := Sample.claim "cX" Prohibition "user" "read" "/doc" "src" [] []).
  apply (ResolveConflicts_no_opposing_survivors
           (<["src" := Sample.source "src" Legal "1.0" []]> ∅)
           (Sample.artifact [cP; cX] (buildGraph [cP; cX]))
           (Sample.artifact [cP] (buildGraph [cP]))).
  - apply (bool_decide_unpack _). vm_compute. reflexivity.
  - vm_compute. reflexivity.
  - apply list_elem_of_here.
  - apply list_elem_of_here.
Defined.

(** C4, as stated, fails when two claims carry the same id. A source with
    two records of one id, a Permission and a Prohibition on one key, is
    normalized and validated without complaint; the resolver drops the
    losers of a group by id, so both claims survive. *)
Lemma ResolveConflicts_opposing_survivors_counterexample :
  let source :=
    Sample.source "src" Legal "1.0"
      [Sample.claimRecord "x" "permission" "user" "read" "/doc" [];
       Sample.claimRecord "x" "prohibition" "user" "read" "/doc" []] in
  let cP := Sample.claim "x" Permission "user" "read" "/doc" "src" [] [] in
  let cX := Sample.claim "x" Prohibition "user" "read" "/doc" "src" [] [] in
  let artifact := Sample.artifact [cP; cX] (buildGraph [cP; cX]) in
  ∃ sources resolved,
    Normalize Sample.time_Parse None "artifact-1" 1000 source ∅
    = ((artifact, None), sources)
    ∧ ValidateAirWithErrors artifact = None
    ∧ ResolveConflicts sources None artifact = (resolved, None)
    ∧ cP ∈ AuthorityArtifact.Claims resolved
    ∧ cX ∈ AuthorityArtifact.Claims resolved
    ∧ opposing cP cX.
Proof.
  intros source cP cX artifact. eexists _, _.
  split; [vm_compute; reflexivity|].
  split; [vm_compute; reflexivity|].
  split; [vm_compute; reflexivity|].
  split; [apply list_elem_of_here|].
  split; [apply list_elem_of_further, list_elem_of_here|].
  by repeat split.
Qed.

(** ** The graph rebuilt from the survivors *)

Lemma dropped_ids_spec (et : EdgeType) (edges : list Edge.t)
    (acc : gset string) (x : string) :
  x ∈ fold_left (λ (ids : gset string) edge,
                   if bool_decide (Edge.EdgeType_ edge = et)
                   then {[Edge.ToID edge]} ∪ ids else ids) edges acc
  ↔ x ∈ acc ∨ ∃ e, e ∈ edges ∧ Edge.EdgeType_ e = et ∧ Edge.ToID e = x.
Proof.
  revert acc. induction edges as [|e edges IH]; intros acc; simpl.
  - split; [by left|]. intros [?|(e & He & _)]; [done|].
    by apply elem_of_nil in He.
  - rewrite IH. split.
    + intros [Hacc|(e' & He' & Het & Hto)].
      * case_bool_decide as Het; [|by left].
        apply elem_of_union in Hacc as [Hx|?]; [|by left].
        apply elem_of_singleton in Hx. right. exists e.
        split; [apply list_elem_of_here|done].
      * right. exists e'. split; [by apply list_elem_of_further|done].
    + intros [Hacc|(e' & He' & Het & Hto)].
      * left. case_bool_decide; [set_solver|done].
      * apply elem_of_cons in He' as [->|He'].
        -- left. rewrite bool_decide_true by done. set_solver.
        -- right. by exists e'.
Qed.

Lemma dropTargets_excludes (et : EdgeType) (artifact : AuthorityArtifact.t)
    (e : Edge.t) (c : Claim.t) :
  e ∈ AuthorityGraph.Edges (AuthorityArtifact.Graph artifact) →
  Edge.EdgeType_ e = et →
  c ∈ AuthorityArtifact.Claims (dropTargets et artifact) →
  Claim.ID c ≠ Edge.ToID e.
Proof.
  intros He Het Hc Hid. unfold dropTargets in Hc. simpl in Hc.
  apply filter_elem_of in Hc as [_ Hkeep].
  apply bool_decide_eq_true in Hkeep. apply Hkeep.
  apply dropped_ids_spec. right. by exists e.
Qed.

Lemma dropTargets_id (et : EdgeType) (artifact : AuthorityArtifact.t) :
  (∀ e c, e ∈ AuthorityGraph.Edges (AuthorityArtifact.Graph artifact) →
          Edge.EdgeType_ e = et →
          c ∈ AuthorityArtifact.Claims artifact →
          Claim.ID c ≠ Edge.ToID e) →
  dropTargets et artifact = artifact.
Proof.
  intros Hfree. unfold dropTargets. rewrite filter_all; [by destruct artifact|].
  intros c Hc. apply bool_decide_eq_true. intros Hin.
  apply dropped_ids_spec in Hin as [Hin|(e & He & Het & Hto)]; [set_solver|].
  by eapply Hfree.
Qed.

Lemma buildNodes_fold (claims : list Claim.t) (nodes : gmap string Claim.t)
    (id : string) :
  is_Some (fold_left (λ nodes claim, <[Claim.ID claim := claim]> nodes)
             claims nodes !! id)
  ↔ is_Some (nodes !! id) ∨ id ∈ map Claim.ID claims.
Proof.
  revert nodes. induction claims as [|c claims IH]; intros nodes; simpl.
  - split; [by left|]. intros [?|Hin]; [done|]. by apply elem_of_nil in Hin.
  - rewrite IH, lookup_insert_is_Some, elem_of_cons.
    destruct (decide (Claim.ID c = id)); naive_solver.
Qed.

Lemma buildNodes_is_Some (claims : list Claim.t) (id : string) :
  is_Some (buildNodes claims !! id) ↔ id ∈ map Claim.ID claims.
Proof.
  unfold buildNodes. rewrite buildNodes_fold, lookup_empty.
  split; [intros [[? ?]|?]; done|by right].
Qed.

Lemma conditionEdge_spec (nodes : gmap string Claim.t) (claim : Claim.t)
    (conds : gmap string Value) (key : string) (et : EdgeType) (e : Edge.t) :
  e ∈ conditionEdge nodes claim conds key et
  ↔ ∃ target, asString (conds !! key) = Some target
              ∧ is_Some (nodes !! target)
              ∧ e = Edge.mk (Claim.ID claim) target et.
Proof.
  unfold conditionEdge. destruct (asString (conds !! key)) as [target|].
  - case_bool_decide as Hnode.
    + rewrite list_elem_of_singleton. split; [intros ->; by exists target|].
      by intros (t & [= <-] & _ & ->).
    + split; [by intros ?%elem_of_nil|]. by intros (t & [= <-] & ? & _).
  - split; [by intros ?%elem_of_nil|]. by intros (t & ? & _).
Qed.

(** The edges a claim contributes only grow with the nodes table, and
    every one of them ends at a node. *)
Lemma claimEdges_mono (sub sup : list Claim.t) (claim : Claim.t) (e : Edge.t) :
  (∀ id, id ∈ map Claim.ID sub → id ∈ map Claim.ID sup) →
  e ∈ claimEdges (buildNodes sub) claim →
  e ∈ claimEdges (buildNodes sup) claim ∧ Edge.ToID e ∈ map Claim.ID sub.
Proof.
  intros Hsub. unfold claimEdges.
  destruct (Claim.Conditions claim) as [conds|]; [|by intros ?%elem_of_nil].
  rewrite !elem_of_app, !conditionEdge_spec.
  setoid_rewrite buildNodes_is_Some.
  intros [(t & ? & ? & ->)|[(t & ? & ? & ->)|(t & ? & ? & ->)]]; simpl;
    (split; [|done]); [left|right; left|right; right]; exists t; auto.
Qed.

Lemma buildGraph_edges (claims : list Claim.t) (e : Edge.t) :
  e ∈ AuthorityGraph.Edges (buildGraph claims)
  ↔ ∃ c, c ∈ claims ∧ e ∈ claimEdges (buildNodes claims) c.
Proof.
  unfold buildGraph. simpl.
  rewrite sortSlice_elem_of, list_elem_of_In, in_flat_map.
  by setoid_rewrite list_elem_of_In.
Qed.

Lemma buildGraph_edges_sublist (sub sup : list Claim.t) (e : Edge.t) :
  sub `sublist_of` sup →
  e ∈ AuthorityGraph.Edges (buildGraph sub) →
  e ∈ AuthorityGraph.Edges (buildGraph sup)
  ∧ Edge.ToID e ∈ map Claim.ID sub.
Proof.
  intros Hsub. rewrite !buildGraph_edges. intros (c & Hc & He).
  apply (claimEdges_mono sub sup) in He as [He Hto].
  - split; [|done]. exists c. split; [by eapply elem_of_sublist|done].
  - intros id Hid. eapply elem_of_sublist; [exact Hid|].
    by apply fmap_sublist.
Qed.

(** ** Resolving twice *)

Lemma filter_sublist_mono {A} (f : A → bool) (l1 l2 : list A) :
  l1 `sublist_of` l2 → List.filter f l1 `sublist_of` List.filter f l2.
Proof.
  induction 1 as [|x l1 l2 _ IH|x l1 l2 _ IH]; simpl; [done| |].
  - destruct (f x); [by apply sublist_skip|done].
  - destruct (f x); [by apply sublist_cons|done].
Qed.

Section Idempotence.
Variable sources : gmap string AuthoritySource.t.

(** A group whose members all carry one id has no loser. *)
Lemma resolveGroups_same_ids (conflicts : list (list Claim.t))
    (artifact : AuthorityArtifact.t) :
  Forall (λ group, group ≠ []
                   ∧ ∀ x y, x ∈ group → y ∈ group → Claim.ID x = Claim.ID y)
         conflicts →
  resolveGroups sources conflicts artifact = (artifact, None).
Proof.
  induction conflicts as [|group rest IH]; intros Hall; simpl; [done|].
  apply Forall_cons in Hall as [[Hne Hids] Hrest].
  destruct (applyPrecedence_nonempty sources group artifact Hne)
    as (sorted & winner & -> & Hperm & Hwin).
  rewrite filter_all.
  - replace (AuthorityArtifact.withClaims artifact
               (AuthorityArtifact.Claims artifact)) with artifact
      by by destruct artifact.
    by apply IH.
  - intros c _. apply bool_decide_eq_true.
    rewrite elem_of_list_to_set, list_elem_of_fmap.
    intros (c0 & _ & Hc0). apply filter_elem_of in Hc0 as [Hc0 Hneq].
    apply bool_decide_eq_true in Hneq. apply Hneq, Hids; [|done].
    by rewrite <- Hperm.
Qed.

(** C8 (as amended). For every artifact whose graph has every edge that
    [buildGraph] derives from its claims (as the graph [Normalize] builds
    has): when [ResolveConflicts] succeeds on it, [ResolveConflicts]
    succeeds on the result as well and returns that result unchanged, so
    with the same claims. *)
Theorem ResolveConflicts_idempotent (artifact resolved : AuthorityArtifact.t) :
  (∀ e, e ∈ AuthorityGraph.Edges
              (buildGraph (AuthorityArtifact.Claims artifact)) →
        e ∈ AuthorityGraph.Edges (AuthorityArtifact.Graph artifact)) →
  ResolveConflicts sources None artifact = (resolved, None) →
  ∃ again,
    ResolveConflicts sources None resolved = (again, None)
    ∧ AuthorityArtifact.Claims again = AuthorityArtifact.Claims resolved
    ∧ again = resolved.
Proof.
  intros Hgraph Hres.
  destruct (ResolveConflicts_spec sources artifact)
    as (S & Heq & Hsub & Hgroups).
  rewrite Heq in Hres. injection Hres as <-.
  set (revoked1 := applyRevocations artifact) in *.
  set (revoked := applySupersessions revoked1) in *.
  set (resolved :=
         AuthorityArtifact.withGraph
           (AuthorityArtifact.withClaims artifact S) (buildGraph S)).
  assert (Hsub1 : S `sublist_of` AuthorityArtifact.Claims revoked1)
    by (etrans; [exact Hsub|apply dropTargets_sublist]).
  assert (HsubA : S `sublist_of` AuthorityArtifact.Claims artifact)
    by (etrans; [exact Hsub1|apply dropTargets_sublist]).
  (* no edge of the rebuilt graph revokes or supersedes a survivor *)
  assert (Hfree : ∀ et, et = Revokes ∨ et = Supersedes →
            dropTargets et resolved = resolved).
  { intros et Het. apply dropTargets_id. intros e c He Hty Hc Hid.
    simpl in He, Hc.
    apply (buildGraph_edges_sublist S (AuthorityArtifact.Claims artifact))
      in He as [He _]; [|done].
    apply Hgraph in He.
    destruct Het as [-> | ->].
    - eapply (dropTargets_excludes Revokes artifact e c); [done..| |done].
      by eapply elem_of_sublist.
    - eapply (dropTargets_excludes Supersedes revoked1 e c); [done..| |done].
      by eapply elem_of_sublist. }
  exists resolved. split; [|done].
  unfold ResolveConflicts, applyRevocations, applySupersessions.
  rewrite !Hfree by auto.
  rewrite resolveGroups_same_ids; [done|].
  apply Forall_forall. intros group Hgroup. simpl in Hgroup.
  split; [by eapply Forall_forall in Hgroup; [|apply findConflicts_nonempty]|].
  apply findConflicts_spec in Hgroup as (key & -> & Hlen).
  assert (Hsubg : groupOf key S
                    `sublist_of` groupOf key (AuthorityArtifact.Claims revoked))
    by by apply filter_sublist_mono.
  destruct (Hgroups (groupOf key (AuthorityArtifact.Claims revoked)))
    as (winner & _ & Hids).
  { apply findConflicts_spec. exists key. split; [done|].
    apply sublist_length in Hsubg. lia. }
  assert (Hid : ∀ c, c ∈ groupOf key S → Claim.ID c = Claim.ID winner).
  { intros c Hc. apply Hids.
    - by apply filter_elem_of in Hc as [? _].
    - apply list_elem_of_fmap. exists c. split; [done|].
      by eapply elem_of_sublist. }
  intros x y Hx Hy. by rewrite (Hid x), (Hid y).
Qed.
End Idempotence.

(** An instance of C8: a revocation and a conflict, on the graph built from
    the claims. *)
Lemma ResolveConflicts_idempotent_witness :
  let sources : gmap string AuthoritySource.t :=
    <["src" := Sample.source "src" Legal "1.0" []]> ∅ in
  let claims :=
    [Sample.claim "cA" Permission "user" "read" "/a" "src" []
       [("revokes", VString "cB")];
     Sample.claim "cB" Permission "user" "read" "/b" "src" [] [];
     Sample.claim "cP" Permission "user" "read" "/doc" "src" [] [];
     Sample.claim "cX" Prohibition "user" "read" "/doc" "src" [] []] in
  let resolved :=
    fst (ResolveConflicts sources None
           (Sample.artifact claims (buildGraph claims))) in
  ∃ again,
    ResolveConflicts sources None resolved = (again, None)
    ∧ AuthorityArtifact.Claims again = AuthorityArtifact.Claims resolved
    ∧ again = resolved.
Proof.
  intros sources claims resolved.
  apply (ResolveConflicts_idempotent sources
           (Sample.artifact claims (buildGraph claims)) resolved).
  - intros e He. exact He.
  - vm_compute. reflexivity.
Defined.

(** C8, as stated, fails on an artifact whose graph lacks the edge its
    claims call for: the first run finds nothing to revoke and rebuilds the
    graph, now with the Revokes edge; the second run drops the revoked
    claim. *)
Lemma ResolveConflicts_not_idempotent_counterexample :
  let cA :=
    Sample.claim "cA" Permission "user" "read" "/a" "src" []
      [("revokes", VString "cB")] in
  let cB := Sample.claim "cB" Permission "user" "read" "/b" "src" [] [] in
  let artifact :=
    Sample.artifact [cA; cB]
      (AuthorityGraph.mk (Some (buildNodes [cA; cB])) []) in
  ∃ resolved again,
    ResolveConflicts ∅ None artifact = (resolved, None)
    ∧ ResolveConflicts ∅ None resolved = (again, None)
    ∧ AuthorityArtifact.Claims resolved = [cA; cB]
    ∧ AuthorityArtifact.Claims again = [cA].
Proof.
  intros cA cB artifact. eexists _, _.
  split; [vm_compute; reflexivity|].
  split; [vm_compute; reflexivity|]. split; reflexivity.
Qed.

(** ** The precedence key and the version of the source *)

(** The comparison steps over the version: whatever the two version
    triples, the outcome is that of the keys without them. *)
Lemma comparePrecedenceKeys_skips_version
    (order1 depth1 spec1 order2 depth2 spec2 : Z) (version1 version2 : list Z) :
  comparePrecedenceKeys
    [KInt order1; KInts version1; KInt depth1; KInt spec1]
    [KInt order2; KInts version2; KInt depth2; KInt spec2]
  = comparePrecedenceKeys
      [KInt order1; KInt depth1; KInt spec1]
      [KInt order2; KInt depth2; KInt spec2].
Proof. reflexivity. Qed.

(** C1, evaluated where it fails. Two sources of the same authority type,
    versions 1.0.0 and 2.0.0; a claim of each on one key, the claim of the
    newer source with the more specific scope. The keys tie on the authority
    order and the older source has the strictly lower version triple, yet
    the claim of the newer source wins: the comparison never looks at the
    version and decides on the scope specificity. *)
Theorem applyPrecedence_ignores_version :
  let older := Sample.source "old" Legal "1.0.0" [] in
  let newer := Sample.source "new" Legal "2.0.0" [] in
  let sources : gmap string AuthoritySource.t :=
    <["old" := older]> (<["new" := newer]> ∅) in
  let cOld := Sample.claim "c_old" Permission "user" "read" "/doc" "old" [] [] in
  let cNew :=
    Sample.claim "c_new" Prohibition "user" "read" "/doc" "new" ["US"] [] in
  let artifact := Sample.artifact [cOld; cNew] (buildGraph [cOld; cNew]) in
  precedenceKey older cOld AuthorityTypeOrder (AuthorityArtifact.Graph artifact)
    = [KInt 1; KInts [1; 0; 0]; KInt 0; KInt 0]
  ∧ precedenceKey newer cNew AuthorityTypeOrder
      (AuthorityArtifact.Graph artifact)
    = [KInt 1; KInts [2; 0; 0]; KInt 0; KInt (-1)]
  ∧ applyPrecedence sources [cOld; cNew] artifact
    = ([cNew; cOld], Some cNew, None)
  ∧ AuthorityArtifact.Claims (fst (ResolveConflicts sources None artifact))
    = [cNew].
Proof. repeat split; vm_compute; reflexivity. Qed.

(** ** The pipeline driver *)

Section Process_facts.
Variable time_Parse_RFC3339 : string → option Time.
Variable time_Format_RFC3339 : Time → string.
Variable json_quote : string → string.

Lemma ResolveConflicts_error_zero (sources : gmap string AuthoritySource.t)
    (ctxErr : option error) (artifact resolved : AuthorityArtifact.t)
    (err : error) :
  ResolveConflicts sources ctxErr artifact = (resolved, Some err) →
  resolved = AuthorityArtifact.zero.
Proof.
  unfold ResolveConflicts. destruct ctxErr; [by intros [= <- _]|].
  destruct (resolveGroups _ _ _) as [a [e|]]; [by intros [= <- _]|done].
Qed.

(** Every failure of the resolution stage reports no claim id at all. *)
Lemma ProcessWithContext_resolution_ids (ctx : nat → option error)
    (uuid : string) (now : Time) (source : AuthoritySource.t)
    (sources : gmap string AuthoritySource.t) (f : CompilationFailure.t) :
  fst (ProcessWithContext time_Parse_RFC3339 time_Format_RFC3339 json_quote
         ctx uuid now source sources) = Failure f →
  CompilationFailure.FailureStage f = "resolution" →
  CompilationFailure.InvolvedClaimIDs f = [].
Proof.
  unfold ProcessWithContext.
  destruct (Normalize _ _ _ _ _ _) as [[a [e|]] srcs]; simpl.
  { intros [= <-]. simpl. discriminate. }
  destruct (ValidateAirWithErrors a) as [e|]; simpl.
  { intros [= <-]. simpl. discriminate. }
  destruct (ResolveConflicts _ _ _) as [r [e|]] eqn:Hres; simpl; [|done].
  apply ResolveConflicts_error_zero in Hres as ->.
  by intros [= <-] _.
Qed.

(** C2, evaluated where it fails. A source with the single claim [c1]; the
    context is live when [Normalize] polls it and cancelled when
    [ResolveConflicts] does. The artifact that enters the resolver is valid
    and has the claim ids [c1], but the failure of the resolution stage
    carries no claim id: the failed call has replaced the artifact by the
    zero artifact before the ids are read. *)
Theorem ProcessWithContext_resolution_failure_drops_ids :
  let source :=
    Sample.source "src" Legal "1.0"
      [Sample.claimRecord "c1" "permission" "user" "read" "/doc" []] in
  let ctx : nat → option error :=
    λ poll, match poll with O => None | _ => Some context_Canceled end in
  let normalized :=
    fst (fst (Normalize time_Parse_RFC3339 None "artifact-1" 1000 source ∅)) in
  ValidateAirWithErrors normalized = None
  ∧ getClaimIDs (AuthorityArtifact.Claims normalized) = ["c1"]
  ∧ fst (ProcessWithContext time_Parse_RFC3339 time_Format_RFC3339 json_quote
           ctx "artifact-1" 1000 source ∅)
    = Failure (CompilationFailure.mk "resolution" "context canceled" [] true).
Proof. repeat split; vm_compute; reflexivity. Qed.

(** ** The proof document *)

(** C6. Two artifacts with the same source id, claims and graph, whatever
    their ids and generation times, have the same proof bytes once the
    [artifact_id] and [generated_at] entries of the document are masked. *)
Theorem EmitProof_deterministic_modulo_id_and_time
    (a1 a2 : AuthorityArtifact.t) :
  AuthorityArtifact.SourceID a1 = AuthorityArtifact.SourceID a2 →
  AuthorityArtifact.Claims a1 = AuthorityArtifact.Claims a2 →
  AuthorityArtifact.Graph a1 = AuthorityArtifact.Graph a2 →
  maskedProof time_Format_RFC3339 json_quote a1
  = maskedProof time_Format_RFC3339 json_quote a2.
Proof.
  intros Hsource Hclaims Hgraph.
  unfold maskedProof, proofData. rewrite Hsource, Hclaims, Hgraph.
  reflexivity.
Qed.

End Process_facts.

(** An instance of C6: two artifacts that differ in id and generation time
    only. *)
Lemma EmitProof_deterministic_modulo_id_and_time_witness :
  let claims :=
    [Sample.claim "claim_b" Permission "user" "read" "/b" "src" [] [];
     Sample.claim "claim_a" Permission "user" "read" "/a" "src" [] []] in
  maskedProof Sample.time_Format Sample.json_quote
    (AuthorityArtifact.mk "artifact-1" "src" claims (buildGraph claims) 1000)
  = maskedProof Sample.time_Format Sample.json_quote
      (AuthorityArtifact.mk "artifact-2" "src" claims (buildGraph claims) 2000).
Proof.
  intros claims.
  apply (EmitProof_deterministic_modulo_id_and_time
           Sample.time_Format Sample.json_quote); reflexivity.
Defined.

(** ** The fuel of the two graph walks is never exhausted *)

Lemma size_list_to_set_le (l : list string) :
  (size (list_to_set l : gset string) ≤ List.length l)%nat.
Proof.
  induction l as [|x l IH].
  - rewrite list_to_set_nil, size_empty. done.
  - rewrite list_to_set_cons, size_union_alt, size_singleton.
    assert (size (list_to_set l ∖ {[x]} : gset string)
            ≤ size (list_to_set l : gset string))%nat
      by (apply subseteq_size; set_solver).
    simpl. lia.
Qed.

Lemma size_difference_insert (U visited : gset string) (x : string) :
  x ∈ U → x ∉ visited →
  (size (U ∖ ({[x]} ∪ visited)) < size (U ∖ visited))%nat.
Proof.
  intros HU Hv. apply subset_size. split; [set_solver|].
  intros Hsub. specialize (Hsub x). set_solver.
Qed.

Lemma depthLoop_total (fuel : nat) (edges : list Edge.t) (U : gset string)
    (currentID : string) (visited : gset string) (depth : Z) :
  (∀ e, e ∈ edges → Edge.FromID e ∈ U) →
  currentID ∈ U →
  (size (U ∖ visited) < fuel)%nat →
  is_Some (depthLoop fuel edges currentID visited depth).
Proof.
  intros Hedges. revert currentID visited depth.
  induction fuel as [|fuel IH]; intros cur visited depth Hcur Hsize; [lia|].
  simpl. case_bool_decide; [done|]. case_bool_decide as Hvis; [done|].
  destruct (List.find _ edges) as [edge|] eqn:Hfind; [|done].
  case_bool_decide; [done|].
  apply find_some in Hfind as [Hin _]. apply list_elem_of_In in Hin.
  apply IH; [by apply Hedges|].
  pose proof (size_difference_insert U visited cur Hcur Hvis). lia.
Qed.

(** [getDelegationDepth] returns what its loop computes: the default of the
    model is never used. *)
Lemma getDelegationDepth_total (claim : Claim.t) (graph : AuthorityGraph.t) :
  depthLoop (S (S (List.length (AuthorityGraph.Edges graph))))
            (AuthorityGraph.Edges graph) (Claim.ID claim) ∅ 0
  = Some (getDelegationDepth claim graph).
Proof.
  unfold getDelegationDepth.
  set (edges := AuthorityGraph.Edges graph).
  set (U := {[Claim.ID claim]} ∪ list_to_set (map Edge.FromID edges)
            : gset string).
  destruct (depthLoop_total (S (S (List.length edges))) edges U
              (Claim.ID claim) ∅ 0) as [d ->]; [| | |done].
  - intros e He. apply elem_of_union_r, elem_of_list_to_set, list_elem_of_fmap.
    by exists e.
  - set_solver.
  - rewrite difference_empty_L. subst U.
    rewrite size_union_alt, size_singleton.
    pose proof (size_list_to_set_le (map Edge.FromID edges)) as Hle.
    rewrite length_map in Hle.
    assert (size (list_to_set (map Edge.FromID edges) ∖ {[Claim.ID claim]}
                  : gset string)
            ≤ size (list_to_set (map Edge.FromID edges) : gset string))%nat
      by (apply subseteq_size; set_solver).
    lia.
Qed.

Section hasCycles_total.
Variable edges : list Edge.t.
Variable U : gset string.
Hypothesis edges_in_U : ∀ e, e ∈ edges → Edge.ToID e ∈ U.

Lemma visitEdges_total (rec : string → DfsState → option (bool * DfsState))
    (base : gset string) (nodeID : string) (es : list Edge.t) (st : DfsState) :
  (∀ e, e ∈ es → Edge.ToID e ∈ U) →
  (∀ n s, n ∈ U → n ∉ fst s → base ⊆ fst s →
          ∃ b s', rec n s = Some (b, s') ∧ fst s ⊆ fst s') →
  base ⊆ fst st →
  ∃ b st', visitEdges rec nodeID es st = Some (b, st') ∧ fst st ⊆ fst st'.
Proof.
  intros Hes Hrec. revert st.
  induction es as [|e rest IH]; intros st Hbase; simpl.
  - by eexists _, _.
  - assert (Hrest : ∀ e', e' ∈ rest → Edge.ToID e' ∈ U)
      by (intros e' He'; by apply Hes, list_elem_of_further).
    case_bool_decide; [|by apply IH].
    case_bool_decide as Hnew.
    + destruct (Hrec (Edge.ToID e) st) as (b & s' & -> & Hsub);
        [apply Hes, list_elem_of_here|done|done|].
      destruct b; [by eexists _, _|].
      destruct (IH Hrest s') as (b & st' & -> & Hsub'); [set_solver|].
      eexists _, _. split; [done|set_solver].
    + case_bool_decide; [by eexists _, _|by apply IH].
Qed.

Lemma visit_total (fuel : nat) (nodeID : string) (st : DfsState) :
  nodeID ∈ U → nodeID ∉ fst st → (size (U ∖ fst st) ≤ fuel)%nat →
  ∃ b st', visit fuel edges nodeID st = Some (b, st') ∧ fst st ⊆ fst st'.
Proof.
  revert nodeID st.
  induction fuel as [|fuel IH]; intros nodeID st HU Hnew Hsize;
    pose proof (size_difference_insert U (fst st) nodeID HU Hnew) as Hlt;
    [lia|].
  simpl.
  destruct (visitEdges_total (visit fuel edges) ({[nodeID]} ∪ fst st) nodeID
              edges ({[nodeID]} ∪ fst st, {[nodeID]} ∪ snd st))
    as (b & st' & -> & Hsub); [done| |done|].
  - intros n s Hn Hns Hbase. apply IH; [done..|].
    assert (size (U ∖ fst s) ≤ size (U ∖ ({[nodeID]} ∪ fst st)))%nat
      by (apply subseteq_size; set_solver).
    lia.
  - eexists _, _. split; [done|]. simpl in Hsub. set_solver.
Qed.

Lemma visitAll_total (fuel : nat) (nodeIDs : list string) (st : DfsState) :
  (∀ n, n ∈ nodeIDs → n ∈ U) → (size (U ∖ fst st) ≤ fuel)%nat →
  is_Some (visitAll fuel edges nodeIDs st).
Proof.
  revert st. induction nodeIDs as [|n rest IH]; intros st HU Hsize; simpl;
    [done|].
  assert (Hrest : ∀ n', n' ∈ rest → n' ∈ U)
    by (intros n' Hn'; by apply HU, list_elem_of_further).
  case_bool_decide as Hnew; [|by apply IH].
  destruct (visit_total fuel n st) as (b & st' & -> & Hsub);
    [apply HU, list_elem_of_here|done|done|].
  destruct b; [done|]. apply IH; [done|].
  assert (size (U ∖ fst st') ≤ size (U ∖ fst st))%nat
    by (apply subseteq_size; set_solver).
  lia.
Qed.
End hasCycles_total.

(** [hasCycles] returns what its search computes: the default of the model
    is never used. *)
Lemma hasCycles_fuel_enough (graph : AuthorityGraph.t) :
  visitAll (hasCycles_fuel graph) (AuthorityGraph.Edges graph)
           (sortedKeys (AuthorityGraph.Nodes graph)) (∅, ∅)
  = Some (hasCycles graph).
Proof.
  unfold hasCycles.
  set (edges := AuthorityGraph.Edges graph).
  set (nodeIDs := sortedKeys (AuthorityGraph.Nodes graph)).
  set (U := list_to_set nodeIDs ∪ list_to_set (map Edge.ToID edges)
            : gset string).
  destruct (visitAll_total edges U) with
    (fuel := hasCycles_fuel graph) (nodeIDs := nodeIDs)
    (st := (∅, ∅) : DfsState) as [b ->]; [| | |done].
  - intros e He. apply elem_of_union_r, elem_of_list_to_set, list_elem_of_fmap.
    by exists e.
  - intros n Hn. by apply elem_of_union_l, elem_of_list_to_set.
  - simpl. rewrite difference_empty_L. subst U.
    rewrite size_union_alt.
    pose proof (size_list_to_set_le nodeIDs) as Hn.
    pose proof (size_list_to_set_le (map Edge.ToID edges)) as He.
    rewrite length_map in He.
    assert (size (list_to_set (map Edge.ToID edges) ∖ list_to_set nodeIDs
                  : gset string)
            ≤ size (list_to_set (map Edge.ToID edges) : gset string))%nat
      by (apply subseteq_size; set_solver).
    unfold hasCycles_fuel. fold edges nodeIDs. lia.
Qed.

(** ** The driver on a background context *)

Section Process_background.
Variable time_Parse_RFC3339 : string → option Time.
Variable time_Format_RFC3339 : Time → string.
Variable json_quote : string → string.

(** [Process] polls a context that is never cancelled: it fails in the
    normalization stage, with no claim id, or in the validation stage, with
    the sorted claim ids of the normalized artifact, and in no other stage. *)
Lemma Process_failure_stages (uuid : string) (now : Time)
    (source : AuthoritySource.t) (sources : gmap string AuthoritySource.t)
    (f : CompilationFailure.t) :
  fst (Process time_Parse_RFC3339 time_Format_RFC3339 json_quote
         uuid now source sources) = Failure f →
  let normalized :=
    fst (Normalize time_Parse_RFC3339 None uuid now source sources) in
  (∃ err, snd normalized = Some err
          ∧ f = CompilationFailure.mk "normalization" (error_Error err)
                  [] true)
  ∨ (∃ err, snd normalized = None
            ∧ ValidateAirWithErrors (fst normalized) = Some err
            ∧ f = CompilationFailure.mk "validation" (error_Error err)
                    (getClaimIDs (AuthorityArtifact.Claims (fst normalized)))
                    true).
Proof.
  unfold Process, ProcessWithContext. cbv beta.
  destruct (Normalize _ _ _ _ _ _) as [[a [e|]] srcs]; cbn [fst snd].
  { intros [= <-]. left. by exists e. }
  destruct (ValidateAirWithErrors a) as [e|]; cbn [fst snd].
  { intros [= <-]. right. by exists e. }
  destruct (ResolveConflicts_spec srcs a) as (claims' & -> & _). done.
Qed.
End Process_background.

(** * Further properties of the code *)

(** * Further properties *)

(** ** The order on strings *)

Lemma ascii_compare_N (a b : ascii) :
  Ascii.compare a b = N.compare (N_of_ascii a) (N_of_ascii b).
Proof. reflexivity. Qed.

Lemma string_compare_refl (s : string) : String.compare s s = Eq.
Proof.
  induction s as [|c s IH]; simpl; [done|].
  by rewrite ascii_compare_N, N.compare_refl.
Qed.

Lemma string_compare_Lt_trans (s1 s2 s3 : string) :
  String.compare s1 s2 = Lt → String.compare s2 s3 = Lt →
  String.compare s1 s3 = Lt.
Proof.
  revert s2 s3. induction s1 as [|c1 s1 IH]; intros [|c2 s2] [|c3 s3];
    simpl; try done.
  rewrite !ascii_compare_N.
  destruct (N.compare_spec (N_of_ascii c1) (N_of_ascii c2)) as [E12|L12|G12];
    destruct (N.compare_spec (N_of_ascii c2) (N_of_ascii c3)) as [E23|L23|G23];
    try done.
  - rewrite E12, E23, N.compare_refl. apply IH.
  - intros _ _. rewrite E12. by apply N.compare_lt_iff in L23 as ->.
  - intros _ _. rewrite <- E23. by apply N.compare_lt_iff in L12 as ->.
  - intros _ _.
    assert (N_of_ascii c1 < N_of_ascii c3)%N as ->%N.compare_lt_iff by lia.
    done.
Qed.

Lemma string_compare_Eq_l (s1 s2 s3 : string) :
  String.compare s1 s2 = Eq → String.compare s1 s3 = String.compare s2 s3.
Proof. by intros ->%String.compare_eq_iff. Qed.

Lemma string_ltb_irrefl (s : string) : String.ltb s s = false.
Proof. unfold String.ltb. by rewrite string_compare_refl. Qed.

Lemma string_ltb_asym (s1 s2 : string) :
  String.ltb s1 s2 = true → String.ltb s2 s1 = false.
Proof.
  unfold String.ltb. rewrite (String.compare_antisym s1 s2).
  by destruct (String.compare s2 s1).
Qed.

Lemma string_ltb_trans (s1 s2 s3 : string) :
  String.ltb s1 s2 = true → String.ltb s2 s3 = true → String.ltb s1 s3 = true.
Proof.
  unfold String.ltb.
  destruct (String.compare s1 s2) eqn:H12; try done.
  destruct (String.compare s2 s3) eqn:H23; try done.
  by rewrite (string_compare_Lt_trans _ _ _ H12 H23).
Qed.

Lemma string_ltb_total (s1 s2 : string) :
  String.ltb s1 s2 = false → String.ltb s2 s1 = false → s1 = s2.
Proof.
  unfold String.ltb. rewrite (String.compare_antisym s2 s1).
  destruct (String.compare s1 s2) eqn:H; try done.
  intros _ _. by apply String.compare_eq_iff.
Qed.

(** not-less is transitive *)
Lemma string_nlt_trans (s1 s2 s3 : string) :
  String.ltb s2 s1 = false → String.ltb s3 s2 = false → String.ltb s3 s1 = false.
Proof.
  intros H21 H32.
  destruct (String.ltb s3 s1) eqn:H31; [|done].
  destruct (String.ltb s1 s2) eqn:H12.
  - by rewrite (string_ltb_trans _ _ _ H31 H12) in H32.
  - assert (s1 = s2) as -> by by apply string_ltb_total.
    by rewrite H31 in H32.
Qed.

(** ** Sortedness of the insertion sort *)

Section sorted.
Context {A : Type} (less : A → A → bool).
Hypothesis less_asym : ∀ x y, less x y = true → less y x = false.

Lemma insertBack_Sorted (x : A) (r : list A) :
  Sorted (λ a b, less a b = false) r →
  Sorted (λ a b, less a b = false) (Go.insertBack less x r).
Proof.
  induction r as [|y r IH]; intros Hs; simpl.
  - by repeat constructor.
  - destruct (less x y) eqn:Hxy.
    + apply Sorted_inv in Hs as [Hs Hhd]. constructor; [by apply IH|].
      destruct r as [|z r]; simpl.
      * constructor. by apply less_asym.
      * destruct (less x z); constructor.
        -- by inversion Hhd.
        -- by apply less_asym.
    + constructor; [done|]. by constructor.
Qed.

Lemma sortSlice_rev_Sorted (data acc : list A) :
  Sorted (λ a b, less a b = false) acc →
  Sorted (λ a b, less a b = false)
         (fold_left (λ acc x, Go.insertBack less x acc) data acc).
Proof.
  revert acc. induction data as [|x data IH]; intros acc Hs; simpl; [done|].
  by apply IH, insertBack_Sorted.
Qed.
End sorted.

Section sorted2.
Context {A : Type} (less : A → A → bool).
Hypothesis less_asym : ∀ x y, less x y = true → less y x = false.

Lemma Sorted_snoc (R : A → A → Prop) (l : list A) (x : A) :
  Sorted R l → (∀ y, last l = Some y → R y x) → Sorted R (l ++ [x]).
Proof.
  induction l as [|a l IH]; intros Hs Hlast; simpl.
  - by repeat constructor.
  - apply Sorted_inv in Hs as [Hs Hhd]. constructor.
    + apply IH; [done|]. intros y Hy. apply Hlast.
      destruct l; [done|]. done.
    + destruct l as [|b l]; simpl.
      * constructor. by apply Hlast.
      * constructor. by inversion Hhd.
Qed.

Lemma Sorted_rev (R : A → A → Prop) (l : list A) :
  Sorted R l → Sorted (flip R) (rev l).
Proof.
  induction 1 as [|a l Hs IH Hhd]; simpl; [constructor|].
  apply Sorted_snoc; [done|]. intros y Hy.
  destruct l as [|b l]; [done|]. simpl in Hy.
  rewrite last_snoc in Hy. injection Hy as <-. by inversion Hhd.
Qed.

(** ascending for [less]: no element is less than its predecessor *)
Lemma sortSlice_Sorted (data : list A) :
  Sorted (λ a b, less b a = false) (Go.sortSlice less data).
Proof.
  unfold Go.sortSlice.
  apply (Sorted_rev (λ a b, less a b = false)).
  apply sortSlice_rev_Sorted; [done|constructor].
Qed.

Hypothesis nless_trans :
  ∀ x y z, less y x = false → less z y = false → less z x = false.

Lemma sortSlice_StronglySorted (data : list A) :
  StronglySorted (λ a b, less b a = false) (Go.sortSlice less data).
Proof.
  apply Sorted_StronglySorted; [|apply sortSlice_Sorted].
  intros x y z Hxy Hyz. by eapply nless_trans.
Qed.

Lemma sortSlice_head_least (data : list A) (w : A) :
  head (Go.sortSlice less data) = Some w →
  ∀ c, c ∈ data → less c w = false.
Proof.
  intros Hhead c Hc.
  pose proof (sortSlice_StronglySorted data) as Hs.
  apply (sortSlice_elem_of less) in Hc.
  destruct (Go.sortSlice less data) as [|w' s]; [done|].
  injection Hhead as ->.
  apply StronglySorted_inv in Hs as [_ Hall].
  apply elem_of_cons in Hc as [->|Hc].
  - destruct (less w w) eqn:Hww; [|done].
    pose proof (less_asym _ _ Hww). congruence.
  - rewrite Forall_forall in Hall. by apply Hall.
Qed.
End sorted2.

Lemma string_leb_nlt (s1 s2 : string) :
  String.leb s1 s2 = true ↔ String.ltb s2 s1 = false.
Proof.
  unfold String.leb, String.ltb. rewrite (String.compare_antisym s1 s2).
  by destruct (String.compare s2 s1).
Qed.

Lemma StronglySorted_impl {A} (R S : A → A → Prop) (l : list A) :
  (∀ a b, R a b → S a b) → StronglySorted R l → StronglySorted S l.
Proof.
  intros HRS. induction 1 as [|a l Hs IH Hall]; constructor; [done|].
  eapply Forall_impl; [exact Hall|]. intros b. apply HRS.
Qed.

Lemma sortStrings_sorted (l : list string) :
  StronglySorted (λ a b, String.leb a b = true) (Go.sortStrings l).
Proof.
  eapply StronglySorted_impl;
    [|apply (sortSlice_StronglySorted String.ltb string_ltb_asym
               string_nlt_trans)].
  intros a b Hab. by apply string_leb_nlt.
Qed.

(** ** The cycle search *)

Lemma finishedOk_rtc (edges : list Edge.t) (B : gset string) (u w : string) :
  finishedOk edges B → u ∈ B → rtc (edgeStep edges) u w → w ∈ B.
Proof.
  intros [Hclosed _] Hu Hrtc. induction Hrtc as [|x y z Hxy _ IH]; [done|].
  apply IH. by eapply Hclosed.
Qed.

Lemma tc_first_step {A} (R : relation A) (x y : A) :
  tc R x y → ∃ w, R x w ∧ rtc R w y.
Proof.
  destruct 1 as [x y Hxy|x w y Hxw Hwy].
  - exists y. split; [done|]. apply rtc_refl.
  - exists w. split; [done|]. by apply tc_rtc.
Qed.

Section dfs.
Variable edges : list Edge.t.
Variable starts : list string.

Lemma visitEdges_correct (rec : string → DfsState → option (bool * DfsState))
    (n : string) (R : gset string) (es : list Edge.t) (V : gset string)
    (b : bool) (st' : DfsState) :
  (∀ m V b st', visitPre edges starts m V ({[n]} ∪ R) →
                rec m (V, {[n]} ∪ R) = Some (b, st') →
                visitPost edges starts m V ({[n]} ∪ R) b st') →
  (∀ e, e ∈ es → e ∈ edges) →
  {[n]} ∪ R ⊆ V → n ∉ R →
  (∀ r, r ∈ R → rtc (edgeStep edges) r n) → reachableFrom edges starts n →
  finishedOk edges (V ∖ ({[n]} ∪ R)) →
  visitEdges rec n es (V, {[n]} ∪ R) = Some (b, st') →
  if b then cycleFrom edges starts
  else V ⊆ fst st' ∧ snd st' = R
       ∧ finishedOk edges (fst st' ∖ ({[n]} ∪ R))
       ∧ ∀ e, e ∈ es → Edge.FromID e = n →
              Edge.ToID e ∈ fst st' ∖ ({[n]} ∪ R).
Proof.
  intros Hrec Hes. revert V.
  induction es as [|e rest IH]; intros V Hsub HnR Hpath Hstart Hfin; simpl.
  - intros [= <- <-]. simpl. split; [done|]. split; [set_solver|].
    split; [done|]. intros e He. by apply elem_of_nil in He.
  - assert (Hrest : ∀ e', e' ∈ rest → e' ∈ edges)
      by (intros e' He'; by apply Hes, list_elem_of_further).
    assert (He : e ∈ edges) by apply Hes, list_elem_of_here.
    case_bool_decide as Hfrom.
    + assert (Hstep : edgeStep edges n (Edge.ToID e)) by by exists e.
      case_bool_decide as Hnew.
      * destruct (rec (Edge.ToID e) (V, {[n]} ∪ R)) as [[b1 st1]|] eqn:Hcall;
          [|done].
        assert (Hpost : visitPost edges starts (Edge.ToID e) V ({[n]} ∪ R)
                          b1 st1).
        { apply Hrec; [|done]. split; [done|]. split; [done|].
          split.
          - intros r [->%elem_of_singleton|Hr]%elem_of_union.
            + by apply rtc_once.
            + eapply rtc_r; [by apply Hpath|done].
          - split; [|done]. destruct Hstart as (s & Hs & Hsn).
            exists s. split; [done|]. by eapply rtc_r. }
        destruct b1.
        { intros [= <- <-]. exact Hpost. }
        destruct st1 as [V1 R1]. destruct Hpost as (HV & Hm & HR & Hfin1).
        simpl in *. subst R1. intros Hloop.
        specialize (IH Hrest V1). rewrite Hloop in IH.
        destruct b.
        -- apply IH; [set_solver|done..].
        -- destruct IH as (HV' & HR' & Hfin' & Htargets);
             [set_solver|done..|].
           split; [set_solver|]. split; [done|]. split; [done|].
           intros e' [->|He']%elem_of_cons Hfrom'; [|by apply Htargets].
           set_solver.
      * case_bool_decide as Hstack.
        -- intros [= <- <-]. exists n. split; [done|].
           apply elem_of_union in Hstack as [Heq%elem_of_singleton|Hr].
           ++ rewrite Heq in Hstep. by apply tc_once.
           ++ eapply tc_rtc_r; [by apply tc_once|]. by apply Hpath.
        -- intros Hloop. specialize (IH Hrest V). rewrite Hloop in IH.
           destruct b; [by apply IH|].
           destruct IH as (HV' & HR' & Hfin' & Htargets); [done..|].
           split; [done|]. split; [done|]. split; [done|].
           intros e' [->|He']%elem_of_cons Hfrom'; [|by apply Htargets].
           assert (Edge.ToID e ∈ V) by (apply dec_stable; set_solver).
           set_solver.
    + intros Hloop. specialize (IH Hrest V). rewrite Hloop in IH.
      destruct b; [by apply IH|].
      destruct IH as (HV' & HR' & Hfin' & Htargets); [done..|].
      split; [done|]. split; [done|]. split; [done|].
      intros e' [->|He']%elem_of_cons Hfrom'; [done|by apply Htargets].
Qed.

Lemma visit_correct (fuel : nat) (n : string) (V R : gset string)
    (b : bool) (st' : DfsState) :
  visitPre edges starts n V R →
  visit fuel edges n (V, R) = Some (b, st') →
  visitPost edges starts n V R b st'.
Proof.
  revert n V R b st'.
  induction fuel as [|fuel IH]; intros n V R b st' Hpre; simpl; [done|].
  destruct Hpre as (HRV & HnV & Hpath & Hstart & Hfin).
  assert (HnR : n ∉ R) by set_solver.
  intros Hloop.
  pose proof (visitEdges_correct (visit fuel edges) n R edges ({[n]} ∪ V)
                b st') as Hspec.
  unfold visitPost. destruct b.
  - apply Hspec; try done.
    + intros m V0 b0 st0. apply IH.
    + set_solver.
    + replace (({[n]} ∪ V) ∖ ({[n]} ∪ R)) with (V ∖ R) by set_solver. done.
  - destruct Hspec as (HV' & HR' & Hfin' & Htargets); try done.
    + intros m V0 b0 st0. apply IH.
    + set_solver.
    + replace (({[n]} ∪ V) ∖ ({[n]} ∪ R)) with (V ∖ R) by set_solver. done.
    + split; [set_solver|]. split; [set_solver|]. split; [done|].
      assert (Hsucc : ∀ w, edgeStep edges n w → w ∈ fst st' ∖ ({[n]} ∪ R)).
      { intros w (e & He & Hfrom & <-). by apply Htargets. }
      split.
      * intros u w Hu Huw.
        destruct (decide (u = n)) as [->|Hne].
        -- apply Hsucc in Huw. set_solver.
        -- assert (w ∈ fst st' ∖ ({[n]} ∪ R)); [|set_solver].
           destruct Hfin' as [Hclosed _]. eapply Hclosed; [|done]. set_solver.
      * intros u Hu Hcycle.
        destruct (decide (u = n)) as [->|Hne].
        -- apply tc_first_step in Hcycle as (w & Hnw & Hwn).
           apply Hsucc in Hnw.
           pose proof (finishedOk_rtc _ _ _ _ Hfin' Hnw Hwn). set_solver.
        -- destruct Hfin' as [_ Hacyclic]. eapply Hacyclic; [|done]. set_solver.
Qed.

Lemma visitAll_correct (fuel : nat) (nodeIDs : list string) (V : gset string)
    (b : bool) :
  (∀ n, n ∈ nodeIDs → n ∈ starts) →
  finishedOk edges V →
  visitAll fuel edges nodeIDs (V, ∅) = Some b →
  if b then cycleFrom edges starts
  else ∃ V', V ⊆ V' ∧ (∀ n, n ∈ nodeIDs → n ∈ V') ∧ finishedOk edges V'.
Proof.
  revert V. induction nodeIDs as [|n rest IH]; intros V Hstarts Hfin; simpl.
  - intros [= <-]. exists V. split; [done|]. split; [|done].
    intros n Hn. by apply elem_of_nil in Hn.
  - assert (Hrest : ∀ n', n' ∈ rest → n' ∈ starts)
      by (intros n' Hn'; by apply Hstarts, list_elem_of_further).
    case_bool_decide as Hnew.
    + destruct (visit fuel edges n (V, ∅)) as [[b1 [V1 R1]]|] eqn:Hvisit;
        [|done].
      apply visit_correct in Hvisit.
      2:{ split; [set_solver|]. split; [done|]. split; [set_solver|].
          split; [|by rewrite difference_empty_L].
          exists n. split; [apply Hstarts, list_elem_of_here|apply rtc_refl]. }
      unfold visitPost in Hvisit. destruct b1.
      { by intros [= <-]. }
      simpl in Hvisit. destruct Hvisit as (HV & Hn & -> & Hfin1).
      rewrite difference_empty_L in Hfin1.
      intros Hall. specialize (IH V1 Hrest Hfin1 Hall).
      destruct b; [done|]. destruct IH as (V' & HV' & Hin & Hfin').
      exists V'. split; [set_solver|]. split; [|done].
      intros n' [->|Hn']%elem_of_cons; [set_solver|by apply Hin].
    + intros Hall. specialize (IH V Hrest Hfin Hall).
      destruct b; [done|]. destruct IH as (V' & HV' & Hin & Hfin').
      exists V'. split; [done|]. split; [|done].
      intros n' [->|Hn']%elem_of_cons; [|by apply Hin].
      apply dec_stable. set_solver.
Qed.
End dfs.

Lemma hasCycles_iff (graph : AuthorityGraph.t) :
  hasCycles graph = true ↔ cycleReachable graph.
Proof.
  pose proof (hasCycles_fuel_enough graph) as Hrun.
  apply (visitAll_correct (AuthorityGraph.Edges graph)
           (sortedKeys (AuthorityGraph.Nodes graph))) in Hrun.
  - unfold cycleReachable. destruct (hasCycles graph).
    + split; [intros _|done]. exact Hrun.
    + split; [done|]. intros (x & (s & Hs & Hsx) & Hcycle).
      destruct Hrun as (V' & _ & Hin & Hfin).
      exfalso. destruct Hfin as [Hclosed Hacyclic].
      apply (Hacyclic x); [|done].
      eapply finishedOk_rtc; [by split|by apply Hin|done].
  - done.
  - split; [set_solver|set_solver].
Qed.

(** ** What graph validation guarantees *)

Lemma sortedKeys_elem_of {V} (m : option (gmap string V)) (n : string) :
  n ∈ sortedKeys m ↔ ∃ nodes, m = Some nodes ∧ n ∈ dom nodes.
Proof.
  unfold sortedKeys, Go.sortStrings. rewrite sortSlice_elem_of.
  destruct m as [nodes|].
  - rewrite elem_of_elements. split; [by exists nodes|].
    by intros (? & [= <-] & ?).
  - split; [by intros ?%elem_of_nil|]. by intros (? & ? & _).
Qed.

Lemma checkEdges_None_iff (nodeIDs : gset string) (edges : list Edge.t) :
  checkEdges nodeIDs edges = None
  ↔ ∀ e, e ∈ edges →
         Edge.FromID e ∈ nodeIDs ∧ Edge.ToID e ∈ nodeIDs
         ∧ Edge.EdgeType_ e ≠ "".
Proof.
  induction edges as [|e edges IH]; simpl.
  - split; [|done]. intros _ e He. by apply elem_of_nil in He.
  - case_bool_decide as Hfrom.
    { split; [done|]. intros Hall.
      destruct (Hall e) as (? & _); [apply list_elem_of_here|done]. }
    case_bool_decide as Hto.
    { split; [done|]. intros Hall.
      destruct (Hall e) as (_ & ? & _); [apply list_elem_of_here|done]. }
    case_bool_decide as Hty.
    { split; [done|]. intros Hall.
      destruct (Hall e) as (_ & _ & ?); [apply list_elem_of_here|done]. }
    rewrite IH. split.
    + intros Hall e' [->|He']%elem_of_cons; [|by apply Hall].
      done.
    + intros Hall e' He'. by apply Hall, list_elem_of_further.
Qed.

Lemma checkEdges_error_kind (nodeIDs : gset string) (edges : list Edge.t)
    (err : error) :
  checkEdges nodeIDs edges = Some err →
  ∃ field message cause, err = ValidationError field message cause.
Proof.
  induction edges as [|e edges IH]; simpl; [done|].
  repeat case_bool_decide; [intros [= <-]; by eexists _, _, _..|done].
Qed.

Lemma edgesValid_checkEdges (nodeIDs : gset string) (edges : list Edge.t) :
  edgesValid nodeIDs edges = true ↔ checkEdges nodeIDs edges = None.
Proof.
  induction edges as [|e edges IH]; simpl; [done|].
  by repeat case_bool_decide.
Qed.

(** An edge list whose endpoints are all keys of the table has a cycle only
    if the search from the keys finds one. *)
Lemma cycle_reachable_from_nodes (graph : AuthorityGraph.t)
    (nodes : gmap string Claim.t) (x : string) :
  AuthorityGraph.Nodes graph = Some nodes →
  (∀ e, e ∈ AuthorityGraph.Edges graph → Edge.FromID e ∈ dom nodes) →
  tc (edgeStep (AuthorityGraph.Edges graph)) x x →
  cycleReachable graph.
Proof.
  intros Hnodes Hfrom Hcycle. exists x. split; [|done].
  exists x. split; [|apply rtc_refl].
  apply sortedKeys_elem_of. exists nodes. split; [done|].
  apply tc_first_step in Hcycle as (w & (e & He & <- & _) & _).
  by apply Hfrom.
Qed.

Lemma validateGraphWithErrors_checked (graph : AuthorityGraph.t)
    (nodes : gmap string Claim.t) :
  AuthorityGraph.Nodes graph = Some nodes →
  checkEdges (dom nodes) (AuthorityGraph.Edges graph) = None →
  validateGraphWithErrors graph
  = if hasCycles graph then Some ErrCyclicGraph else None.
Proof. unfold validateGraphWithErrors. by intros -> ->. Qed.

Lemma validateGraphWithErrors_spec (graph : AuthorityGraph.t) :
  validateGraphWithErrors graph = None
  ↔ ∃ nodes,
      AuthorityGraph.Nodes graph = Some nodes
      ∧ (∀ e, e ∈ AuthorityGraph.Edges graph →
              Edge.FromID e ∈ dom nodes ∧ Edge.ToID e ∈ dom nodes
              ∧ Edge.EdgeType_ e ≠ "")
      ∧ ∀ x, ¬ (tc (edgeStep (AuthorityGraph.Edges graph)) x x).
Proof.
  unfold validateGraphWithErrors.
  destruct (AuthorityGraph.Nodes graph) as [nodes|] eqn:Hnodes.
  2:{ split; [done|]. by intros (? & ? & _). }
  destruct (checkEdges _ _) as [err|] eqn:Hcheck.
  - split; [done|]. intros (nodes' & [= <-] & Hedges & _).
    apply checkEdges_None_iff in Hedges. congruence.
  - pose proof (proj1 (checkEdges_None_iff _ _) Hcheck) as Hedges.
    destruct (hasCycles graph) eqn:Hcyc.
    + split; [done|]. intros (nodes' & _ & _ & Hacyclic).
      apply hasCycles_iff in Hcyc as (x & _ & Hx). by destruct (Hacyclic x).
    + split; [|done]. intros _. exists nodes. split; [done|]. split; [done|].
      intros x Hx.
      assert (hasCycles graph = true) as Hyes; [|congruence].
      apply hasCycles_iff.
      eapply cycle_reachable_from_nodes; [done| |done].
      intros e He. by apply Hedges.
Qed.

(** X1. [hasCycles] answers true exactly when some cycle of the edges can
    be reached from a key of the nodes table. *)
Theorem hasCycles_true_iff_reachable_cycle (graph : AuthorityGraph.t) :
  hasCycles graph = true
  ↔ ∃ nodes n x,
      AuthorityGraph.Nodes graph = Some nodes ∧ n ∈ dom nodes
      ∧ rtc (edgeStep (AuthorityGraph.Edges graph)) n x
      ∧ tc (edgeStep (AuthorityGraph.Edges graph)) x x.
Proof.
  rewrite hasCycles_iff. unfold cycleReachable, cycleFrom, reachableFrom.
  split.
  - intros (x & (n & Hn & Hnx) & Hx).
    apply sortedKeys_elem_of in Hn as (nodes & Hnodes & Hn).
    by exists nodes, n, x.
  - intros (nodes & n & x & Hnodes & Hn & Hnx & Hx).
    exists x. split; [|done]. exists n. split; [|done].
    apply sortedKeys_elem_of. by exists nodes.
Qed.

(** X2. The three verdicts of [validateGraphWithErrors] that do not name an
    edge: nil exactly for a graph with an initialized nodes table, edges
    that join keys of the table and carry a type, and no cycle at all;
    [ErrNilGraph] exactly for a nil table; [ErrCyclicGraph] exactly when the
    table and the edges are in order and the edges have a cycle. *)
Theorem validateGraphWithErrors_verdicts (graph : AuthorityGraph.t) :
  let edgesInOrder (nodes : gmap string Claim.t) : Prop :=
    ∀ e, e ∈ AuthorityGraph.Edges graph →
         Edge.FromID e ∈ dom nodes ∧ Edge.ToID e ∈ dom nodes
         ∧ Edge.EdgeType_ e ≠ "" in
  (validateGraphWithErrors graph = None
   ↔ ∃ nodes, AuthorityGraph.Nodes graph = Some nodes ∧ edgesInOrder nodes
              ∧ ∀ x, ¬ (tc (edgeStep (AuthorityGraph.Edges graph)) x x))
  ∧ (validateGraphWithErrors graph = Some ErrNilGraph
     ↔ AuthorityGraph.Nodes graph = None)
  ∧ (validateGraphWithErrors graph = Some ErrCyclicGraph
     ↔ ∃ nodes x, AuthorityGraph.Nodes graph = Some nodes
                  ∧ edgesInOrder nodes
                  ∧ tc (edgeStep (AuthorityGraph.Edges graph)) x x).
Proof.
  intros edgesInOrder. split; [apply validateGraphWithErrors_spec|].
  unfold validateGraphWithErrors.
  destruct (AuthorityGraph.Nodes graph) as [nodes|] eqn:Hnodes.
  2:{ split; [done|]. split; [done|]. by intros (? & ? & ? & _). }
  destruct (checkEdges _ _) as [err|] eqn:Hcheck.
  - assert (¬ edgesInOrder nodes) as Hbad.
    { intros Hok. apply checkEdges_None_iff in Hok. congruence. }
    apply checkEdges_error_kind in Hcheck as (f & m & e & ->).
    split; [done|]. split; [done|]. by intros (nodes' & x & [= <-] & Hok & _).
  - pose proof (proj1 (checkEdges_None_iff _ _) Hcheck) as Hedges.
    split; [by destruct (hasCycles graph)|].
    destruct (hasCycles graph) eqn:Hcyc.
    + split; [intros _|done].
      apply hasCycles_iff in Hcyc as (x & _ & Hx). by exists nodes, x.
    + split; [done|]. intros (nodes' & x & _ & _ & Hx).
      assert (hasCycles graph = true) as Hyes; [|congruence].
      apply hasCycles_iff.
      eapply cycle_reachable_from_nodes; [done| |done].
      intros e He. by apply Hedges.
Qed.

(** X3. The legacy checkers answer as the checkers with errors do:
    [validateGraph] accepts exactly the graphs for which
    [validateGraphWithErrors] returns nil, and [ValidateScope] exactly the
    scopes for which [ValidateScopeWithErrors] does; a scope is rejected
    only when it has both bounds and starts after it ends. *)
Theorem legacy_validators_agree :
  (∀ graph,
     validateGraph graph = true ↔ validateGraphWithErrors graph = None)
  ∧ (∀ scope,
       ValidateScope scope = true ↔ ValidateScopeWithErrors scope = None)
  ∧ (∀ scope,
       ValidateScope scope = false
       ↔ ∃ ts te, Scope.TimeStart scope = Some ts
                  ∧ Scope.TimeEnd scope = Some te ∧ te < ts).
Proof.
  split; [|split].
  - intros graph. unfold validateGraph, validateGraphWithErrors.
    destruct (AuthorityGraph.Nodes graph) as [nodes|]; [|done].
    pose proof (edgesValid_checkEdges (dom nodes) (AuthorityGraph.Edges graph))
      as Hagree.
    destruct (edgesValid _ _), (checkEdges _ _) as [err|]; simpl.
    + destruct Hagree as [Hagree _]. by specialize (Hagree eq_refl).
    + by destruct (hasCycles graph).
    + done.
    + destruct Hagree as [_ Hagree]. by specialize (Hagree eq_refl).
  - intros scope. unfold ValidateScope, ValidateScopeWithErrors.
    destruct (Scope.TimeStart scope), (Scope.TimeEnd scope); try done.
    by destruct (_ >? _).
  - intros scope. unfold ValidateScope.
    destruct (Scope.TimeStart scope) as [ts|], (Scope.TimeEnd scope) as [te|];
      try (split; [done|by intros (? & ? & ? & ? & _)]).
    rewrite negb_false_iff, Z.gtb_ltb, Z.ltb_lt. split.
    + intros Hlt. by exists ts, te.
    + by intros (? & ? & [= <-] & [= <-] & ?).
Qed.

(** ** The graph [buildGraph] builds *)

Section strict_total.
Context {A : Type} (less : A → A → bool).
Hypothesis less_irrefl : ∀ x, less x x = false.
Hypothesis less_trans :
  ∀ x y z, less x y = true → less y z = true → less x z = true.
Hypothesis less_total : ∀ x y, less x y = false → less y x = false → x = y.

Lemma strict_total_asym (x y : A) : less x y = true → less y x = false.
Proof.
  intros Hxy. destruct (less y x) eqn:Hyx; [|done].
  pose proof (less_trans _ _ _ Hxy Hyx). by rewrite less_irrefl in *.
Qed.

Lemma strict_total_nless_trans (x y z : A) :
  less y x = false → less z y = false → less z x = false.
Proof.
  intros Hyx Hzy. destruct (less z x) eqn:Hzx; [|done].
  destruct (less x y) eqn:Hxy.
  - by rewrite (less_trans _ _ _ Hzx Hxy) in Hzy.
  - assert (x = y) as -> by by apply less_total. congruence.
Qed.
End strict_total.

Lemma edgeLess_irrefl (e : Edge.t) : edgeLess e e = false.
Proof.
  unfold edgeLess. rewrite !bool_decide_false by (by intros ?).
  apply string_ltb_irrefl.
Qed.

Lemma edgeLess_trans (a b c : Edge.t) :
  edgeLess a b = true → edgeLess b c = true → edgeLess a c = true.
Proof.
  unfold edgeLess.
  repeat case_bool_decide; intros Hab Hbc;
    repeat match goal with
           | H : ¬ (_ ≠ _) |- _ => apply dec_stable in H
           end;
    try congruence; eauto using string_ltb_trans.
  all: try (rewrite ?H, ?H0, ?H1, ?H2 in *; eauto using string_ltb_trans).
  all: try (pose proof (string_ltb_asym _ _ Hab); congruence).
Qed.

Lemma edgeLess_total (a b : Edge.t) :
  edgeLess a b = false → edgeLess b a = false → a = b.
Proof.
  unfold edgeLess. destruct a as [fa ta ea], b as [fb tb eb]. simpl.
  destruct (decide (fa = fb)) as [->|Hf].
  - rewrite !(bool_decide_false (fb ≠ fb)) by (by intros ?).
    destruct (decide (ta = tb)) as [->|Ht].
    + rewrite !(bool_decide_false (tb ≠ tb)) by (by intros ?).
      intros H1 H2. f_equal. by apply string_ltb_total.
    + rewrite !bool_decide_true by done.
      intros H1 H2. destruct Ht. by apply string_ltb_total.
  - rewrite !bool_decide_true by done.
    intros H1 H2. destruct Hf. by apply string_ltb_total.
Qed.

Lemma claimEdges_elem_of (nodes : gmap string Claim.t) (claim : Claim.t)
    (e : Edge.t) :
  e ∈ claimEdges nodes claim →
  Edge.FromID e = Claim.ID claim ∧ is_Some (nodes !! Edge.ToID e)
  ∧ IsValidEdgeType (Edge.EdgeType_ e) = true.
Proof.
  unfold claimEdges.
  destruct (Claim.Conditions claim) as [conds|]; [|by intros ?%elem_of_nil].
  rewrite !elem_of_app, !conditionEdge_spec.
  by intros [(t & _ & ? & ->)|[(t & _ & ? & ->)|(t & _ & ? & ->)]].
Qed.

Lemma last_cons_is_Some {A} (x : A) (l : list A) : is_Some (last (x :: l)).
Proof.
  revert x. induction l as [|y l IH]; intros x; [by eexists|]. apply (IH y).
Qed.

Lemma buildNodes_lookup_fold (claims : list Claim.t)
    (nodes : gmap string Claim.t) (id : string) :
  fold_left (λ nodes claim, <[Claim.ID claim := claim]> nodes) claims nodes
    !! id
  = match last (List.filter (λ c, bool_decide (Claim.ID c = id)) claims) with
    | Some c => Some c
    | None => nodes !! id
    end.
Proof.
  revert nodes. induction claims as [|c claims IH]; intros nodes; simpl;
    [done|].
  rewrite IH. case_bool_decide as Hid.
  - rewrite Hid, lookup_insert_eq.
    destruct (List.filter _ claims) as [|x l] eqn:Hf; [done|].
    change (last (c :: x :: l)) with (last (x :: l)).
    by destruct (last_cons_is_Some x l) as [y ->].
  - by rewrite lookup_insert_ne.
Qed.

(** X4. Every edge [buildGraph] makes starts at the id of a claim, ends at
    the id of a claim and carries one of the three edge types; so graph
    validation can reject a built graph for a cycle only. *)
Theorem buildGraph_edges_in_order (claims : list Claim.t) :
  (∀ e, e ∈ AuthorityGraph.Edges (buildGraph claims) →
        Edge.FromID e ∈ map Claim.ID claims
        ∧ Edge.ToID e ∈ map Claim.ID claims
        ∧ IsValidEdgeType (Edge.EdgeType_ e) = true)
  ∧ (∀ err, validateGraphWithErrors (buildGraph claims) = Some err →
            err = ErrCyclicGraph).
Proof.
  assert (Hedges : ∀ e, e ∈ AuthorityGraph.Edges (buildGraph claims) →
            Edge.FromID e ∈ map Claim.ID claims
            ∧ Edge.ToID e ∈ map Claim.ID claims
            ∧ IsValidEdgeType (Edge.EdgeType_ e) = true).
  { intros e (c & Hc & He)%buildGraph_edges.
    apply claimEdges_elem_of in He as (-> & Hto & Hty).
    split; [apply list_elem_of_fmap; by exists c|].
    split; [by apply buildNodes_is_Some|done]. }
  split; [done|]. intros err.
  rewrite (validateGraphWithErrors_checked (buildGraph claims)
             (buildNodes claims)); [|done|].
  - destruct (hasCycles _); [by intros [= <-]|done].
  - apply checkEdges_None_iff. intros e He.
    destruct (Hedges e He) as (Hfrom & Hto & Hty).
    rewrite !elem_of_dom, !buildNodes_is_Some.
    split; [done|]. split; [done|]. intros Hempty.
    rewrite Hempty in Hty. discriminate.
Qed.

(** X5. The edges of a built graph are in ascending order of
    (from_id, to_id, edge_type): no edge is less, for the sort's own
    comparison, than an edge before it; and they are the edges the claims
    call for, each once per claim and condition. *)
Theorem buildGraph_edges_sorted (claims : list Claim.t) :
  StronglySorted (λ e1 e2, edgeLess e2 e1 = false)
                 (AuthorityGraph.Edges (buildGraph claims))
  ∧ Permutation (AuthorityGraph.Edges (buildGraph claims))
                (flat_map (claimEdges (buildNodes claims)) claims).
Proof.
  split; [|apply sortSlice_Permutation].
  apply (sortSlice_StronglySorted edgeLess).
  - apply strict_total_asym; [apply edgeLess_irrefl|apply edgeLess_trans].
  - apply strict_total_nless_trans;
      [apply edgeLess_trans|apply edgeLess_total].
Qed.

(** X6. The nodes table of a built graph maps exactly the ids of the
    claims, each to the last claim of the list that carries it. *)
Theorem buildGraph_nodes_last_writer (claims : list Claim.t) (id : string) :
  ∃ nodes,
    AuthorityGraph.Nodes (buildGraph claims) = Some nodes
    ∧ nodes !! id
      = last (List.filter (λ c, bool_decide (Claim.ID c = id)) claims)
    ∧ (id ∈ dom nodes ↔ id ∈ map Claim.ID claims).
Proof.
  exists (buildNodes claims). split; [done|]. split.
  - unfold buildNodes. rewrite buildNodes_lookup_fold, lookup_empty.
    by destruct (last _).
  - by rewrite elem_of_dom, buildNodes_is_Some.
Qed.

(** ** What precedence resolution compares *)

Lemma precedenceLess_rank (sources : gmap string AuthoritySource.t)
    (graph : AuthorityGraph.t) (a b : Claim.t) :
  precedenceLess sources graph a b = true
  ↔ rankLt (precedenceRank sources graph a) (precedenceRank sources graph b).
Proof.
  unfold precedenceLess, precedenceKey, precedenceRank, rankLt. simpl.
  set (oa := default 0 (AuthorityTypeOrder !! _)).
  set (ob := default 0 (AuthorityTypeOrder !! _)).
  set (da := getDelegationDepth a graph).
  set (db := getDelegationDepth b graph).
  set (sa := - getScopeSpecificity (Claim.Scope a)).
  set (sb := - getScopeSpecificity (Claim.Scope b)).
  rewrite !Z.gtb_ltb.
  destruct (Z.ltb_spec oa ob), (Z.ltb_spec ob oa),
    (Z.ltb_spec da db), (Z.ltb_spec db da),
    (Z.ltb_spec sa sb), (Z.ltb_spec sb sa); simpl; split;
    try done; try lia; intros _; lia.
Qed.

Lemma precedenceLess_asym (sources : gmap string AuthoritySource.t)
    (graph : AuthorityGraph.t) (a b : Claim.t) :
  precedenceLess sources graph a b = true →
  precedenceLess sources graph b a = false.
Proof.
  intros Hab%precedenceLess_rank.
  destruct (precedenceLess sources graph b a) eqn:Hba; [|done].
  apply precedenceLess_rank in Hba. unfold rankLt in *.
  destruct (precedenceRank sources graph a) as [[? ?] ?],
    (precedenceRank sources graph b) as [[? ?] ?]. lia.
Qed.

Lemma precedenceLess_nless_trans (sources : gmap string AuthoritySource.t)
    (graph : AuthorityGraph.t) (a b c : Claim.t) :
  precedenceLess sources graph b a = false →
  precedenceLess sources graph c b = false →
  precedenceLess sources graph c a = false.
Proof.
  intros Hba Hcb.
  destruct (precedenceLess sources graph c a) eqn:Hca; [|done].
  apply precedenceLess_rank in Hca.
  assert (¬ rankLt (precedenceRank sources graph b)
              (precedenceRank sources graph a)) as Hba'
    by (rewrite <- precedenceLess_rank; congruence).
  assert (¬ rankLt (precedenceRank sources graph c)
              (precedenceRank sources graph b)) as Hcb'
    by (rewrite <- precedenceLess_rank; congruence).
  unfold rankLt in *.
  destruct (precedenceRank sources graph a) as [[? ?] ?],
    (precedenceRank sources graph b) as [[? ?] ?],
    (precedenceRank sources graph c) as [[? ?] ?]. lia.
Qed.

Lemma sortSlice_ext {A} (less less' : A → A → bool) (data : list A) :
  (∀ x y, less x y = less' x y) →
  Go.sortSlice less data = Go.sortSlice less' data.
Proof.
  intros Hext. unfold Go.sortSlice. f_equal.
  generalize (@nil A). induction data as [|x data IH]; intros acc; simpl;
    [done|].
  rewrite IH. f_equal. clear IH.
  induction acc as [|y acc IH]; simpl; [done|]. by rewrite Hext, IH.
Qed.

(** X7. The comparison [applyPrecedence] sorts with is the strict
    lexicographic order on the authority order of the claim's source, the
    claim's delegation depth and its negated scope specificity. *)
Theorem precedenceLess_is_rank_order (sources : gmap string AuthoritySource.t)
    (graph : AuthorityGraph.t) (a b : Claim.t) :
  precedenceLess sources graph a b = true
  ↔ let source c :=
      default AuthoritySource.zero (sources !! Claim.SourceID c) in
    let order c :=
      default 0 (AuthorityTypeOrder !! AuthoritySource.Type_ (source c)) in
    let depth c := getDelegationDepth c graph in
    let specificity c := getScopeSpecificity (Claim.Scope c) in
    order a < order b
    ∨ (order a = order b
       ∧ (depth a < depth b
          ∨ (depth a = depth b ∧ specificity a > specificity b))).
Proof.
  rewrite precedenceLess_rank. unfold rankLt, precedenceRank. simpl. lia.
Qed.

(** X8. [applyPrecedence] reads the sources table through the types of the
    sources only: two tables that give every source id the same type give
    the same sorted group and the same winner, whatever the versions. *)
Theorem applyPrecedence_reads_types_only
    (sources sources' : gmap string AuthoritySource.t)
    (claims : list Claim.t) (artifact : AuthorityArtifact.t) :
  (∀ id, AuthoritySource.Type_ <$> sources' !! id
         = AuthoritySource.Type_ <$> sources !! id) →
  applyPrecedence sources' claims artifact
  = applyPrecedence sources claims artifact.
Proof.
  intros Htypes. unfold applyPrecedence.
  rewrite (sortSlice_ext
             (precedenceLess sources' (AuthorityArtifact.Graph artifact))
             (precedenceLess sources (AuthorityArtifact.Graph artifact)));
    [done|].
  intros a b. unfold precedenceLess, precedenceKey. simpl.
  assert (Hty : ∀ c,
    AuthoritySource.Type_
      (default AuthoritySource.zero (sources' !! Claim.SourceID c))
    = AuthoritySource.Type_
        (default AuthoritySource.zero (sources !! Claim.SourceID c))).
  { intros c. specialize (Htypes (Claim.SourceID c)).
    destruct (sources' !! _), (sources !! _); simpl in *; congruence. }
  by rewrite !Hty.
Qed.

(** X9. [applyPrecedence] returns no error; the slice it leaves is a
    permutation of the group; for a non-empty group the winner is a member
    that no member precedes for the comparison of the sort, and for an empty group the
    pointer is nil. *)
Theorem applyPrecedence_winner_least (sources : gmap string AuthoritySource.t)
    (claims : list Claim.t) (artifact : AuthorityArtifact.t) :
  let result := applyPrecedence sources claims artifact in
  let graph := AuthorityArtifact.Graph artifact in
  snd result = None
  ∧ Permutation (fst (fst result)) claims
  ∧ match snd (fst result) with
    | Some winner =>
        winner ∈ claims
        ∧ ∀ c, c ∈ claims → precedenceLess sources graph c winner = false
    | None => claims = []
    end.
Proof.
  intros result graph. subst result. unfold applyPrecedence.
  case_bool_decide as Hlen.
  - simpl. split; [done|]. split; [done|].
    destruct claims; [done|]. unfold Go.len in Hlen. simpl in Hlen. lia.
  - simpl. split; [done|]. split; [apply sortSlice_Permutation|].
    destruct (head _) as [w|] eqn:Hhead.
    + split.
      * apply (sortSlice_elem_of (precedenceLess sources graph)).
        by apply head_Some_elem_of.
      * eapply sortSlice_head_least; [| |exact Hhead].
        -- apply precedenceLess_asym.
        -- apply precedenceLess_nless_trans.
    + apply head_None in Hhead.
      pose proof (sortSlice_length
        (precedenceLess sources (AuthorityArtifact.Graph artifact)) claims)
        as Hl.
      rewrite Hhead in Hl. by destruct claims.
Qed.

(** ** What the conflict resolver keeps *)

Lemma winnerOf_applyPrecedence (sources : gmap string AuthoritySource.t)
    (group : list Claim.t) (artifact : AuthorityArtifact.t) :
  group ≠ [] →
  ∃ w, winnerOf sources (AuthorityArtifact.Graph artifact) group = Some w
       ∧ w ∈ group
       ∧ applyPrecedence sources group artifact
         = (Go.sortSlice
              (precedenceLess sources (AuthorityArtifact.Graph artifact))
              group, Some w, None).
Proof.
  intros Hne. unfold applyPrecedence, winnerOf.
  rewrite bool_decide_false by by apply len_nonempty.
  destruct (sortSlice_head
              (precedenceLess sources (AuthorityArtifact.Graph artifact))
              group Hne) as (w & Hw & Hin).
  exists w. by rewrite Hw.
Qed.

(** The loop over the conflict groups keeps exactly the claims whose id is,
    in every group that holds it, the id of the group's winner. *)
Lemma resolveGroups_exact (sources : gmap string AuthoritySource.t)
    (conflicts : list (list Claim.t)) (artifact : AuthorityArtifact.t) :
  Forall (λ group, group ≠ []) conflicts →
  ∃ claims',
    resolveGroups sources conflicts artifact
    = (AuthorityArtifact.withClaims artifact claims', None)
    ∧ ∀ c, c ∈ claims'
        ↔ c ∈ AuthorityArtifact.Claims artifact
          ∧ ∀ group w, group ∈ conflicts →
              winnerOf sources (AuthorityArtifact.Graph artifact) group
              = Some w →
              Claim.ID c ∈ map Claim.ID group → Claim.ID c = Claim.ID w.
Proof.
  revert artifact.
  induction conflicts as [|group rest IH]; intros artifact Hne.
  - exists (AuthorityArtifact.Claims artifact). simpl.
    split; [by destruct artifact|]. intros c. split; [|by intros [? _]].
    intros Hc. split; [done|]. by intros g w ?%elem_of_nil.
  - apply Forall_cons in Hne as [Hgroup Hrest]. simpl.
    destruct (winnerOf_applyPrecedence sources group artifact Hgroup)
      as (w & Hw & Hwin & ->).
    set (losing := list_to_set _ : gset string).
    set (newClaims := List.filter _ _).
    destruct (IH (AuthorityArtifact.withClaims artifact newClaims) Hrest)
      as (claims' & -> & Hmem).
    exists claims'. split; [done|]. intros c. rewrite Hmem. simpl.
    subst newClaims. rewrite filter_elem_of, bool_decide_eq_true.
    assert (Hlosing : Claim.ID c ∈ losing
                      ↔ Claim.ID c ∈ map Claim.ID group
                        ∧ Claim.ID c ≠ Claim.ID w).
    { subst losing. rewrite elem_of_list_to_set, !list_elem_of_fmap. split.
      - intros (m & Hid & Hm). apply filter_elem_of in Hm as [Hm Hne].
        apply bool_decide_eq_true in Hne.
        apply sortSlice_elem_of in Hm. split; [by exists m|congruence].
      - intros [(m & Hid & Hm) Hne]. exists m. split; [done|].
        apply filter_elem_of. split; [by apply sortSlice_elem_of|].
        apply bool_decide_eq_true. congruence. }
    rewrite Hlosing. split.
    + intros [[Hc Hkeep] Hrestw]. split; [done|].
      intros g w' Hg Hw' Hid. apply elem_of_cons in Hg as [->|Hg].
      * rewrite Hw in Hw'. injection Hw' as <-.
        destruct (decide (Claim.ID c = Claim.ID w)); [done|].
        destruct Hkeep. by split.
      * by eapply Hrestw.
    + intros [Hc Hall]. split; [split; [done|]|].
      * intros [Hid Hne]. apply Hne.
        eapply Hall; [apply list_elem_of_here|done|done].
      * intros g w' Hg. apply Hall. by apply list_elem_of_further.
Qed.



Lemma ResolveConflicts_exact (sources : gmap string AuthoritySource.t)
    (artifact : AuthorityArtifact.t) :
  let revoked := applySupersessions (applyRevocations artifact) in
  ∃ claims',
    ResolveConflicts sources None artifact
    = (AuthorityArtifact.withGraph
         (AuthorityArtifact.withClaims artifact claims')
         (buildGraph claims'), None)
    ∧ claims' `sublist_of` AuthorityArtifact.Claims artifact
    ∧ ∀ c, c ∈ claims'
        ↔ c ∈ AuthorityArtifact.Claims revoked
          ∧ ∀ group w,
              group ∈ findConflicts (AuthorityArtifact.Claims revoked) →
              winnerOf sources (AuthorityArtifact.Graph artifact) group
              = Some w →
              Claim.ID c ∈ map Claim.ID group → Claim.ID c = Claim.ID w.
Proof.
  intros revoked.
  destruct (resolveGroups_spec sources
              (findConflicts (AuthorityArtifact.Claims revoked)) revoked
              (findConflicts_nonempty _))
    as (claims1 & Heq1 & Hsub & _).
  destruct (resolveGroups_exact sources
              (findConflicts (AuthorityArtifact.Claims revoked)) revoked
              (findConflicts_nonempty _))
    as (claims2 & Heq2 & Hmem).
  rewrite Heq2 in Heq1. injection Heq1 as Heq1.
  unfold ResolveConflicts. fold revoked. rewrite Heq2.
  exists claims2. split; [by destruct artifact|]. split; [|exact Hmem].
  rewrite Heq1.
  etrans; [exact Hsub|]. etrans; apply dropTargets_sublist.
Qed.

(** X10. Entered with a live context, [ResolveConflicts] returns the
    artifact it was given with its id, source id and generation time, a
    sublist of its claims in their order, and the graph [buildGraph] gives
    for that sublist. *)
Theorem ResolveConflicts_returns_pruned_artifact
    (sources : gmap string AuthoritySource.t)
    (artifact : AuthorityArtifact.t) :
  ∃ survivors,
    survivors `sublist_of` AuthorityArtifact.Claims artifact
    ∧ ResolveConflicts sources None artifact
      = (AuthorityArtifact.mk
           (AuthorityArtifact.ID artifact)
           (AuthorityArtifact.SourceID artifact)
           survivors
           (buildGraph survivors)
           (AuthorityArtifact.GeneratedAt artifact), None).
Proof.
  destruct (ResolveConflicts_exact sources artifact)
    as (claims' & Heq & Hsub & _).
  exists claims'. split; [done|]. rewrite Heq. by destruct artifact.
Qed.



(** ** The rebuilt graph *)

Lemma buildGraph_edge_ends (claims : list Claim.t) (e : Edge.t) :
  e ∈ AuthorityGraph.Edges (buildGraph claims) →
  Edge.FromID e ∈ map Claim.ID claims
  ∧ Edge.ToID e ∈ map Claim.ID claims
  ∧ IsValidEdgeType (Edge.EdgeType_ e) = true.
Proof.
  intros (c & Hc & He)%buildGraph_edges.
  apply claimEdges_elem_of in He as (-> & Hto & Hty).
  split; [apply list_elem_of_fmap; by exists c|].
  split; [by apply buildNodes_is_Some|done].
Qed.

Lemma buildGraph_checkEdges (claims : list Claim.t) :
  checkEdges (dom (buildNodes claims))
             (AuthorityGraph.Edges (buildGraph claims)) = None.
Proof.
  apply checkEdges_None_iff. intros e He.
  destruct (buildGraph_edge_ends claims e He) as (Hfrom & Hto & Hty).
  rewrite !elem_of_dom, !buildNodes_is_Some.
  split; [done|]. split; [done|]. intros Hempty.
  rewrite Hempty in Hty. discriminate.
Qed.

Lemma buildGraph_validate (claims : list Claim.t) :
  validateGraphWithErrors (buildGraph claims)
  = if hasCycles (buildGraph claims) then Some ErrCyclicGraph else None.
Proof.
  apply (validateGraphWithErrors_checked _ (buildNodes claims)); [done|].
  apply buildGraph_checkEdges.
Qed.

Lemma tc_edgeStep_mono (edges edges' : list Edge.t) (x y : string) :
  (∀ e, e ∈ edges → e ∈ edges') →
  tc (edgeStep edges) x y → tc (edgeStep edges') x y.
Proof.
  intros Hsub. induction 1 as [x y (e & He & Hf & Ht)|x y z (e & He & Hf & Ht) _ IH].
  - apply tc_once. exists e. auto.
  - eapply tc_l; [|exact IH]. exists e. auto.
Qed.

Lemma buildGraph_hasCycles_iff (claims : list Claim.t) :
  hasCycles (buildGraph claims) = true
  ↔ ∃ x, tc (edgeStep (AuthorityGraph.Edges (buildGraph claims))) x x.
Proof.
  rewrite hasCycles_iff. split.
  - intros (x & _ & Hx). by exists x.
  - intros (x & Hx).
    apply (cycle_reachable_from_nodes _ (buildNodes claims) x); [done| |done].
    intros e He. apply elem_of_dom, buildNodes_is_Some.
    by apply (buildGraph_edge_ends claims e He).
Qed.

Lemma buildGraph_acyclic_sublist (sub sup : list Claim.t) :
  sub `sublist_of` sup →
  hasCycles (buildGraph sup) = false →
  hasCycles (buildGraph sub) = false.
Proof.
  intros Hsub Hsup.
  destruct (hasCycles (buildGraph sub)) eqn:Hcyc; [|done].
  apply buildGraph_hasCycles_iff in Hcyc as (x & Hx).
  assert (hasCycles (buildGraph sup) = true) as Hyes; [|congruence].
  apply buildGraph_hasCycles_iff. exists x.
  eapply tc_edgeStep_mono; [|exact Hx].
  intros e He. by apply (buildGraph_edges_sublist sub sup).
Qed.

(** X13. Dropping claims cannot create a cycle: when the graph built from
    the claims of the artifact has none, the graph of the artifact
    [ResolveConflicts] returns passes graph validation. *)
Theorem ResolveConflicts_graph_validates
    (sources : gmap string AuthoritySource.t)
    (artifact : AuthorityArtifact.t) :
  hasCycles (buildGraph (AuthorityArtifact.Claims artifact)) = false →
  validateGraphWithErrors
    (AuthorityArtifact.Graph (fst (ResolveConflicts sources None artifact)))
  = None.
Proof.
  intros Hacyclic.
  destruct (ResolveConflicts_exact sources artifact)
    as (claims' & -> & Hsub & _).
  simpl. rewrite buildGraph_validate.
  by rewrite (buildGraph_acyclic_sublist _ _ Hsub Hacyclic).
Qed.

(** ** Normalization and what validation can still object to *)

Section Normalize_more.
Variable time_Parse_RFC3339 : string → option Time.

(** The fields every parsed claim has. *)
Lemma parseClaim_ok (claimDict : gmap string Value) (sourceID : string)
    (claim : Claim.t) :
  parseClaim time_Parse_RFC3339 claimDict sourceID = (claim, None) →
  Claim.ID claim ≠ "" ∧ IsValidClaimType (Claim.Type_ claim) = true
  ∧ Claim.Subject claim ≠ "" ∧ Claim.Action claim ≠ ""
  ∧ Claim.Resource claim ≠ "" ∧ Claim.SourceID claim = sourceID.
Proof.
  unfold parseClaim.
  destruct (asString (claimDict !! "id")) as [id|]; [|done].
  case_bool_decide as Hid; [done|].
  destruct (asString (claimDict !! "type")) as [ty|]; [|done].
  case_bool_decide as Hty; [done|].
  destruct (IsValidClaimType ty) eqn:Hvalid; [|done]. cbn [negb].
  cbv zeta.
  case_bool_decide as Hsubject; [done|].
  case_bool_decide as Haction; [done|].
  case_bool_decide as Hresource; [done|].
  by intros [= <-].
Qed.

Lemma parseClaims_ok (claimsData : list Value) (sourceID : string) :
  Forall (parsedOk sourceID)
         (fst (parseClaims time_Parse_RFC3339 claimsData sourceID)).
Proof.
  induction claimsData as [|v rest IH]; simpl; [done|].
  destruct (parseClaims _ rest sourceID) as [claims errs]. simpl in IH.
  destruct v as [| |claimDict|]; try done.
  destruct (parseClaim _ claimDict sourceID) as [c [err|]] eqn:Hc; [done|].
  simpl. apply Forall_cons. split; [|done]. by eapply parseClaim_ok.
Qed.

Lemma Normalize_success (ctxErr : option error) (uuid : string) (now : Time)
    (source : AuthoritySource.t) (sources sources' : gmap string AuthoritySource.t)
    (artifact : AuthorityArtifact.t) :
  Normalize time_Parse_RFC3339 ctxErr uuid now source sources
  = ((artifact, None), sources') →
  ctxErr = None ∧ AuthoritySource.ID source ≠ ""
  ∧ sources' = <[AuthoritySource.ID source := source]> sources
  ∧ artifact
    = AuthorityArtifact.mk uuid (AuthoritySource.ID source)
        (AuthorityArtifact.Claims artifact)
        (buildGraph (AuthorityArtifact.Claims artifact)) now
  ∧ Forall (parsedOk (AuthoritySource.ID source))
           (AuthorityArtifact.Claims artifact).
Proof.
  unfold Normalize. destruct ctxErr as [err|]; [done|].
  case_bool_decide as Hid; [done|].
  destruct (asSlice _) as [claimsData|].
  - pose proof (parseClaims_ok claimsData (AuthoritySource.ID source)) as Hok.
    destruct (parseClaims _ _ _) as [claims [|err0 errs]]; [|done].
    intros [= <- <-]. by repeat split.
  - intros [= <- <-]. by repeat split.
Qed.

Lemma validateClaims_Some (claims : list Claim.t) (graph : AuthorityGraph.t)
    (err : error) :
  validateClaims claims graph = Some err →
  ∃ c, c ∈ claims ∧ validateClaim c graph = false
       ∧ err = ValidationError "claim"
                 ("claim " +:+ Claim.ID c +:+ " failed validation") None.
Proof.
  induction claims as [|c claims IH]; simpl; [done|].
  unfold validateClaimWithErrors.
  destruct (validateClaim c graph) eqn:Hc; simpl.
  - intros (c' & Hin & H')%IH. exists c'. split; [|done].
    by apply list_elem_of_further.
  - intros [= <-]. exists c. split; [apply list_elem_of_here|done].
Qed.

Lemma validateClaim_parsedOk (sourceID : string) (claim : Claim.t)
    (graph : AuthorityGraph.t) :
  parsedOk sourceID claim → sourceID ≠ "" →
  validateClaim claim graph
  = if bool_decide (Claim.Type_ claim = Delegation)
    then validateDelegationClaim claim graph else true.
Proof.
  intros (Hid & _ & Hs & Ha & Hr & Hsrc) Hne. unfold validateClaim.
  rewrite (bool_decide_false (Claim.ID claim = _)) by done.
  rewrite (bool_decide_false (Claim.Subject claim = _)) by done.
  rewrite (bool_decide_false (Claim.Action claim = _)) by done.
  rewrite (bool_decide_false (Claim.Resource claim = _)) by done.
  by rewrite (bool_decide_false (Claim.SourceID claim = _)) by congruence.
Qed.

(** X14. A successful [Normalize] was entered with a live context and a
    source with an id; it stores the source under its id, stamps the
    artifact with the fresh id, the source id and the time, builds the
    graph from the claims, and every claim has a non-empty id, subject,
    action and resource, one of the four claim types and the source's id. *)
Theorem Normalize_success_postcondition (ctxErr : option error)
    (uuid : string) (now : Time) (source : AuthoritySource.t)
    (sources sources' : gmap string AuthoritySource.t)
    (artifact : AuthorityArtifact.t) :
  Normalize time_Parse_RFC3339 ctxErr uuid now source sources
  = ((artifact, None), sources') →
  ctxErr = None ∧ AuthoritySource.ID source ≠ ""
  ∧ sources' = <[AuthoritySource.ID source := source]> sources
  ∧ AuthorityArtifact.ID artifact = uuid
  ∧ AuthorityArtifact.SourceID artifact = AuthoritySource.ID source
  ∧ AuthorityArtifact.GeneratedAt artifact = now
  ∧ AuthorityArtifact.Graph artifact
    = buildGraph (AuthorityArtifact.Claims artifact)
  ∧ ∀ c, c ∈ AuthorityArtifact.Claims artifact →
         Claim.ID c ≠ "" ∧ Claim.Subject c ≠ "" ∧ Claim.Action c ≠ ""
         ∧ Claim.Resource c ≠ "" ∧ IsValidClaimType (Claim.Type_ c) = true
         ∧ Claim.SourceID c = AuthoritySource.ID source.
Proof.
  intros (Hctx & Hid & Hsources & Hart & Hok)%Normalize_success.
  repeat (split; [done || by rewrite Hart|]).
  intros c Hc. rewrite Forall_forall in Hok.
  destruct (Hok c Hc) as (? & ? & ? & ? & ? & ?). done.
Qed.

(** X15. Validation can object to a freshly normalized artifact for two
    reasons only: a Delegation claim whose scope is not contained in the
    scope of its first delegator, reported as the failure of that claim, or
    a cycle among the edges, reported as [ErrCyclicGraph]. *)
Theorem Normalize_then_validate (ctxErr : option error)
    (uuid : string) (now : Time) (source : AuthoritySource.t)
    (sources sources' : gmap string AuthoritySource.t)
    (artifact : AuthorityArtifact.t) (err : error) :
  Normalize time_Parse_RFC3339 ctxErr uuid now source sources
  = ((artifact, None), sources') →
  ValidateAirWithErrors artifact = Some err →
  (∃ c, c ∈ AuthorityArtifact.Claims artifact
        ∧ Claim.Type_ c = Delegation
        ∧ validateDelegationClaim c (AuthorityArtifact.Graph artifact) = false
        ∧ err = ValidationError "claim"
                  ("claim " +:+ Claim.ID c +:+ " failed validation") None)
  ∨ (err = ErrCyclicGraph
     ∧ hasCycles (AuthorityArtifact.Graph artifact) = true).
Proof.
  intros (_ & Hid & _ & Hart & Hok)%Normalize_success.
  rewrite Hart. unfold ValidateAirWithErrors. simpl.
  set (claims := AuthorityArtifact.Claims artifact) in *.
  destruct (_ && _); [done|].
  destruct (validateClaims claims (buildGraph claims)) as [e|] eqn:Hclaims.
  - intros [= <-]. left.
    apply validateClaims_Some in Hclaims as (c & Hc & Hbad & ->).
    exists c. split; [done|]. rewrite Forall_forall in Hok.
    rewrite (validateClaim_parsedOk _ c _ (Hok c Hc) Hid) in Hbad.
    by case_bool_decide.
  - rewrite buildGraph_validate.
    destruct (hasCycles _); [|done]. intros [= <-]. by right.
Qed.

End Normalize_more.

(** ** What a successful run hands out *)

Lemma ValidateAirWithErrors_built_acyclic (a : AuthorityArtifact.t) :
  AuthorityArtifact.Graph a = buildGraph (AuthorityArtifact.Claims a) →
  ValidateAirWithErrors a = None →
  hasCycles (buildGraph (AuthorityArtifact.Claims a)) = false.
Proof.
  intros Hgraph. unfold ValidateAirWithErrors. rewrite Hgraph. simpl.
  destruct (bool_decide (Go.len (AuthorityArtifact.Claims a) = 0)) eqn:Hlen.
  - apply bool_decide_eq_true in Hlen. intros _.
    destruct (AuthorityArtifact.Claims a); [by vm_compute|].
    unfold Go.len in Hlen. simpl in Hlen. lia.
  - simpl. destruct (validateClaims _ _); [done|].
    rewrite buildGraph_validate. by destruct (hasCycles _).
Qed.

Section Process_more.
Variable time_Parse_RFC3339 : string → option Time.
Variable time_Format_RFC3339 : Time → string.
Variable json_quote : string → string.

(** X16. What [Process] hands out on success: the source is stored under
    its id; the artifact carries the fresh id, the source's id and the
    time; its claims all have a non-empty id, subject, action and resource,
    a valid type and the source's id; its graph is the one [buildGraph]
    gives for its claims and passes graph validation; the proof is the one
    [EmitProof] gives for it. *)
Theorem Process_success_postcondition (uuid : string) (now : Time)
    (source : AuthoritySource.t)
    (sources sources' : gmap string AuthoritySource.t)
    (success : CompilationSuccess.t) :
  Process time_Parse_RFC3339 time_Format_RFC3339 json_quote
    uuid now source sources = (Success success, sources') →
  let artifact := CompilationSuccess.Artifact success in
  sources' = <[AuthoritySource.ID source := source]> sources
  ∧ AuthorityArtifact.ID artifact = uuid
  ∧ AuthorityArtifact.SourceID artifact = AuthoritySource.ID source
  ∧ AuthorityArtifact.GeneratedAt artifact = now
  ∧ (∀ c, c ∈ AuthorityArtifact.Claims artifact →
          Claim.ID c ≠ "" ∧ Claim.Subject c ≠ "" ∧ Claim.Action c ≠ ""
          ∧ Claim.Resource c ≠ "" ∧ IsValidClaimType (Claim.Type_ c) = true
          ∧ Claim.SourceID c = AuthoritySource.ID source)
  ∧ AuthorityArtifact.Graph artifact
    = buildGraph (AuthorityArtifact.Claims artifact)
  ∧ validateGraphWithErrors (AuthorityArtifact.Graph artifact) = None
  ∧ CompilationSuccess.Proof_ success
    = EmitProof time_Format_RFC3339 json_quote artifact.
Proof.
  unfold Process, ProcessWithContext. cbv beta.
  destruct (Normalize _ _ _ _ _ _) as [[a [e|]] srcs] eqn:Hnorm; [done|].
  apply Normalize_success in Hnorm as (_ & Hid & -> & Hart & Hok).
  destruct (ValidateAirWithErrors a) as [e|] eqn:Hvalid; [done|].
  assert (Hacyclic : hasCycles (buildGraph (AuthorityArtifact.Claims a))
                     = false).
  { apply ValidateAirWithErrors_built_acyclic; [by rewrite Hart|done]. }
  destruct (ResolveConflicts_exact
              (<[AuthoritySource.ID source := source]> sources) a)
    as (claims' & -> & Hsub & _).
  intros [= <- <-]. unfold Compile. simpl.
  split; [done|]. rewrite Hart. simpl.
  split; [done|]. split; [done|]. split; [done|].
  split.
  { intros c Hc. rewrite Forall_forall in Hok.
    destruct (Hok c) as (? & ? & ? & ? & ? & ?); [|done].
    by eapply elem_of_sublist. }
  split; [done|]. split; [|done].
  rewrite buildGraph_validate.
  by rewrite (buildGraph_acyclic_sublist _ _ Hsub Hacyclic).
Qed.

End Process_more.

(** X17. A successful run does not promise an artifact that validates.
    Validation checks a Delegation claim against its first delegator only;
    when that delegator is revoked, the rebuilt graph puts the next one
    first, and the claim's scope need not be contained in that one's. *)
Theorem Process_output_may_fail_validation :
  let scoped (id target : string) (jurisdictions : list Value)
      (conditions : list (string * Value)) :=
    Sample.record
      [("id", VString id); ("type", VString "delegation");
       ("subject", VString "user"); ("action", VString "read");
       ("resource", VString target);
       ("scope", Sample.record [("jurisdictions", VSlice jurisdictions)]);
       ("conditions", Sample.record conditions)] in
  let source :=
    Sample.source "src" Legal "1.0"
      [scoped "a" "/a" [VString "US"; VString "EU"]
         [("delegates_to", VString "c")];
       scoped "b" "/b" [VString "EU"] [("delegates_to", VString "c")];
       scoped "c" "/c" [VString "US"] [];
       scoped "r" "/r" [] [("revokes", VString "a")]] in
  ∃ normalized success,
    fst (Normalize Sample.time_Parse None "artifact-1" 1000 source ∅)
    = (normalized, None)
    ∧ ValidateAirWithErrors normalized = None
    ∧ fst (Process Sample.time_Parse Sample.time_Format Sample.json_quote
             "artifact-1" 1000 source ∅) = Success success
    ∧ map Claim.ID
        (AuthorityArtifact.Claims (CompilationSuccess.Artifact success))
      = ["b"; "c"; "r"]
    ∧ ValidateAirWithErrors (CompilationSuccess.Artifact success)
      = Some (ValidationError "claim" "claim c failed validation" None).
Proof.
  intros scoped source. eexists _, _.
  split; [vm_compute; reflexivity|].
  split; [vm_compute; reflexivity|].
  split; [vm_compute; reflexivity|].
  split; vm_compute; reflexivity.
Qed.
(** ** Wildcard matching *)

Lemma list_ascii_app (a b : string) :
  String.list_ascii_of_string (a +:+ b)
  = String.list_ascii_of_string a ++ String.list_ascii_of_string b.
Proof. induction a as [|c a IH]; simpl; [done|]. by rewrite IH. Qed.

Lemma string_of_list_app (l1 l2 : list ascii) :
  String.string_of_list_ascii (l1 ++ l2)
  = String.string_of_list_ascii l1 +:+ String.string_of_list_ascii l2.
Proof. induction l1 as [|c l1 IH]; simpl; [done|]. by rewrite IH. Qed.

Lemma revString_app (a b : string) :
  Go.revString (a +:+ b) = Go.revString b +:+ Go.revString a.
Proof.
  unfold Go.revString. by rewrite list_ascii_app, rev_app_distr,
    string_of_list_app.
Qed.

Lemma revString_involutive (s : string) : Go.revString (Go.revString s) = s.
Proof.
  unfold Go.revString.
  by rewrite String.list_ascii_of_string_of_list_ascii, rev_involutive,
    String.string_of_list_ascii_of_string.
Qed.

Lemma string_app_assoc (a b c : string) : (a +:+ b) +:+ c = a +:+ (b +:+ c).
Proof.
  induction a as [|x a IH]; [done|].
  change (String x ((a +:+ b) +:+ c) = String x (a +:+ (b +:+ c))).
  by rewrite IH.
Qed.

Lemma string_app_inv_tail (a b c : string) : a +:+ c = b +:+ c → a = b.
Proof.
  intros Heq. apply (f_equal Go.revString) in Heq.
  rewrite !revString_app in Heq. apply (inj _) in Heq.
  by rewrite <- (revString_involutive a), Heq, revString_involutive.
Qed.

Lemma string_prefix_iff (p s : string) :
  String.prefix p s = true ↔ ∃ r, s = p +:+ r.
Proof.
  revert s. induction p as [|c p IH]; intros s.
  - destruct s; simpl; (split; [intros _; by eexists|done]).
  - destruct s as [|d s]; simpl.
    + split; [done|]. by intros (r & ?).
    + destruct (Ascii.ascii_dec c d) as [->|Hne].
      * rewrite IH. split; intros (r & Hr); exists r.
        -- by rewrite Hr.
        -- change (String d s = String d (p +:+ r)) in Hr. congruence.
      * split; [done|]. intros (r & Hr).
        change (String d s = String c (p +:+ r)) in Hr. congruence.
Qed.

Lemma HasSuffix_iff (s suffix : string) :
  Go.HasSuffix s suffix = true ↔ ∃ q, s = q +:+ suffix.
Proof.
  unfold Go.HasSuffix. rewrite string_prefix_iff. split.
  - intros (r & Hr). exists (Go.revString r).
    rewrite <- (revString_involutive s), Hr, revString_app.
    by rewrite revString_involutive.
  - intros (q & ->). exists (Go.revString q). apply revString_app.
Qed.

Lemma string_length_app (a b : string) :
  String.length (a +:+ b) = (String.length a + String.length b)%nat.
Proof.
  induction a as [|x a IH]; [done|].
  change (S (String.length (a +:+ b))
          = S (String.length a + String.length b)).
  by rewrite IH.
Qed.

Lemma substring_app (a b : string) :
  String.substring 0 (String.length a) (a +:+ b) = a.
Proof.
  induction a as [|x a IH]; [by destruct b|].
  change (String x (String.substring 0 (String.length a) (a +:+ b))
          = String x a).
  by rewrite IH.
Qed.

Lemma TrimSuffix_app (q suffix : string) :
  Go.TrimSuffix (q +:+ suffix) suffix = q.
Proof.
  unfold Go.TrimSuffix.
  rewrite (proj2 (HasSuffix_iff _ _)) by by exists q.
  rewrite string_length_app.
  replace (String.length q + String.length suffix - String.length suffix)%nat
    with (String.length q) by lia.
  apply substring_app.
Qed.

Lemma Contains_star (q : string) : Go.Contains (q +:+ "*") "*" = true.
Proof.
  unfold Go.Contains.
  induction q as [|c q IH]; [done|].
  change (String c q +:+ "*") with (String c (q +:+ "*")).
  cbn [String.index].
  destruct (String.prefix "*" (String c (q +:+ "*"))); [done|].
  by destruct (String.index 0 "*" (q +:+ "*")).
Qed.

(** X18. Wildcard matching comes down to one rule: a pattern matches a
    value when the two are equal or when the pattern ends in a star and the
    value begins with what stands before the star.  A star elsewhere in
    the pattern is an ordinary character, and the pattern [p/*] matches
    the values that begin with [p/], not [p] itself. *)
Theorem matches_trailing_star (pattern value : string) :
  matches pattern value = true
  ↔ pattern = value
    ∨ ∃ stem, pattern = stem +:+ "*" ∧ Go.HasPrefix value stem = true.
Proof.
  unfold matches.
  case_bool_decide as Hstar.
  { split; [|done]. intros _. right. exists "". subst pattern.
    split; [done|]. by destruct value. }
  case_bool_decide as Heq.
  { split; [by left|done]. }
  split.
  - destruct (Go.Contains pattern "*"); [|done].
    destruct (Go.HasSuffix pattern "/*") eqn:Hslash.
    + apply HasSuffix_iff in Hslash as (q & ->).
      rewrite TrimSuffix_app. unfold Go.HasPrefix. intros Hpre. right.
      exists (q +:+ "/"). split; [|done]. by rewrite string_app_assoc.
    + destruct (Go.HasSuffix pattern "*") eqn:Hsuf; [|done].
      apply HasSuffix_iff in Hsuf as (q & ->).
      rewrite TrimSuffix_app. unfold Go.HasPrefix. intros Hpre. right.
      by exists q.
  - intros [?|(stem & -> & Hpre)]; [done|].
    rewrite Contains_star.
    destruct (Go.HasSuffix (stem +:+ "*") "/*") eqn:Hslash.
    + apply HasSuffix_iff in Hslash as (q & Hq).
      rewrite Hq, TrimSuffix_app. unfold Go.HasPrefix.
      change "/*" with ("/" +:+ "*") in Hq.
      rewrite <- string_app_assoc in Hq.
      apply string_app_inv_tail in Hq. by rewrite <- Hq.
    + rewrite (proj2 (HasSuffix_iff _ _)) by by exists stem.
      by rewrite TrimSuffix_app.
Qed.

(** ** The runtime readers *)

Lemma find_filter_implied {A} (P Q : A → bool) (l : list A) :
  (∀ x, P x = true → Q x = true) →
  List.find P (List.filter Q l) = List.find P l.
Proof.
  intros Himp. induction l as [|x l IH]; simpl; [done|].
  destruct (Q x) eqn:HQ; simpl.
  - by rewrite IH.
  - destruct (P x) eqn:HP; [|done]. apply Himp in HP. congruence.
Qed.

Lemma filter_filter_comm {A} (P Q : A → bool) (l : list A) :
  List.filter P (List.filter Q l) = List.filter Q (List.filter P l).
Proof.
  induction l as [|x l IH]; simpl; [done|].
  destruct (P x) eqn:HP, (Q x) eqn:HQ; simpl; rewrite ?HP, ?HQ, ?IH; done.
Qed.

Lemma filter_andb {A} (P Q : A → bool) (l : list A) :
  List.filter (λ x, P x && Q x) l = List.filter Q (List.filter P l).
Proof.
  induction l as [|x l IH]; simpl; [done|].
  destruct (P x) eqn:HP, (Q x) eqn:HQ; simpl; rewrite ?HQ, ?IH; done.
Qed.

Section Readers.
Variable time_Format_RFC3339 : Time → string.

(** X19. Obligation and Delegation claims, and claims of any other type
    than Permission and Prohibition, have no part in an authorization
    answer: without them the answer is the same in every field. *)
Theorem IsAuthorized_reads_permissions_and_prohibitions
    (artifact : AuthorityArtifact.t) (subject action resource : string) :
  IsAuthorized time_Format_RFC3339 artifact subject action resource
  = IsAuthorized time_Format_RFC3339
      (AuthorityArtifact.withClaims artifact
         (List.filter decides (AuthorityArtifact.Claims artifact)))
      subject action resource.
Proof.
  unfold IsAuthorized, applicableClaims. simpl.
  rewrite (filter_filter_comm _ decides).
  rewrite !(find_filter_implied _ decides); [done|..];
    intros c Hc; cbv beta in Hc; unfold decides; rewrite Hc;
    by rewrite ?orb_true_r.
Qed.

(** X20. The three readers agree on the claims they look at.
    [GetAuthorityInfo] lists the claims whose three patterns match the
    query, in the order of the artifact, and counts all claims;
    [GetObligations] lists those of them that are Obligations; and the
    authority id [IsAuthorized] answers with is the id of one of them, or
    else the answer denies under the id of the artifact. *)
Theorem readers_agree (artifact : AuthorityArtifact.t)
    (subject action resource : string) :
  let applicable := applicableClaims artifact subject action resource in
  let info :=
    GetAuthorityInfo time_Format_RFC3339 artifact subject action resource in
  let obligations :=
    GetObligations time_Format_RFC3339 artifact subject action resource in
  let answer :=
    IsAuthorized time_Format_RFC3339 artifact subject action resource in
  map ClaimInfo.id (AuthorityInfo.applicable_claims info)
  = map Claim.ID applicable
  ∧ AuthorityInfo.total_claims info
    = Go.len (AuthorityArtifact.Claims artifact)
  ∧ map ObligationInfo.claim_id obligations
    = map Claim.ID
        (List.filter (λ c, bool_decide (Claim.Type_ c = Obligation))
                     applicable)
  ∧ ((∃ c, c ∈ applicable ∧ decides c = true
           ∧ AuthorizationResult.authority_id answer = Claim.ID c
           ∧ AuthorizationResult.allowed answer
             = bool_decide (Claim.Type_ c = Permission))
     ∨ (AuthorizationResult.allowed answer = false
        ∧ AuthorizationResult.authority_id answer
          = AuthorityArtifact.ID artifact
        ∧ ∀ c, c ∈ applicable → decides c = false)).
Proof.
  intros applicable info obligations answer.
  split; [|split; [done|split]].
  - subst info. unfold GetAuthorityInfo. simpl. fold applicable.
    rewrite map_map. simpl. done.
  - subst obligations applicable.
    unfold GetObligations, applicableClaims.
    rewrite map_map. simpl. f_equal.
    rewrite filter_filter_comm.
    apply (filter_andb (λ c, bool_decide (Claim.Type_ c = Obligation))).
  - subst answer. unfold IsAuthorized. fold applicable.
    destruct (List.find _ applicable) as [c|] eqn:Hpro.
    { left. apply find_some in Hpro as [Hin Ht].
      exists c. split; [by apply list_elem_of_In|].
      unfold decides. rewrite Ht. split; [done|]. split; [done|]. simpl.
      apply bool_decide_eq_true in Ht. rewrite Ht.
      by rewrite bool_decide_false. }
    destruct (List.find (λ claim, bool_decide (_ = Permission)) applicable)
      as [c|] eqn:Hper.
    { left. apply find_some in Hper as [Hin Ht].
      exists c. split; [by apply list_elem_of_In|].
      unfold decides. rewrite Ht, orb_true_r. done. }
    right. split; [done|]. split; [done|]. intros c Hc.
    apply list_elem_of_In in Hc. unfold decides.
    by rewrite (find_none _ _ Hpro c Hc), (find_none _ _ Hper c Hc).
Qed.

End Readers.

(** ** Conflict keys *)

Lemma colonFree_tail (c : ascii) (s : string) :
  colonFree (String c s) → colonFree s.
Proof.
  intros Hfree a b ->. by apply (Hfree (String c a) b).
Qed.

Lemma colon_split_inj (s1 s2 r1 r2 : string) :
  colonFree s1 → colonFree s2 →
  s1 +:+ ":" +:+ r1 = s2 +:+ ":" +:+ r2 → s1 = s2 ∧ r1 = r2.
Proof.
  revert s2. induction s1 as [|c s1 IH]; intros [|d s2] H1 H2 Heq.
  - change (String ":" r1 = String ":" r2) in Heq. by injection Heq.
  - change (String ":" r1 = String d (s2 +:+ ":" +:+ r2)) in Heq.
    injection Heq as <- _. by destruct (H2 "" s2).
  - change (String c (s1 +:+ ":" +:+ r1) = String ":" r2) in Heq.
    injection Heq as -> _. by destruct (H1 "" s1).
  - change (String c (s1 +:+ ":" +:+ r1) = String d (s2 +:+ ":" +:+ r2))
      in Heq.
    injection Heq as -> Heq.
    destruct (IH s2) as [-> ->];
      [by eapply colonFree_tail|by eapply colonFree_tail|done|done].
Qed.

(** X21. The conflict key joins subject, action and resource with colons
    and so is not injective: moving a colon-separated part from the end of
    the subject to the front of the action leaves the key as it is.  Where
    no subject and no action holds a colon, equal keys mean equal
    subjects, actions and resources. *)
Theorem conflictKey_injective_up_to_colons :
  (∀ c1 c2 part,
     Claim.Subject c1 = Claim.Subject c2 +:+ ":" +:+ part →
     Claim.Action c2 = part +:+ ":" +:+ Claim.Action c1 →
     Claim.Resource c1 = Claim.Resource c2 →
     conflictKey c1 = conflictKey c2)
  ∧ (∀ c1 c2,
       colonFree (Claim.Subject c1) → colonFree (Claim.Action c1) →
       colonFree (Claim.Subject c2) → colonFree (Claim.Action c2) →
       conflictKey c1 = conflictKey c2 →
       Claim.Subject c1 = Claim.Subject c2
       ∧ Claim.Action c1 = Claim.Action c2
       ∧ Claim.Resource c1 = Claim.Resource c2).
Proof.
  split.
  - intros c1 c2 part Hs Ha Hr. unfold conflictKey.
    rewrite Hs, Ha, Hr. by rewrite !string_app_assoc.
  - intros c1 c2 Hs1 Ha1 Hs2 Ha2 Hkey. unfold conflictKey in Hkey.
    apply colon_split_inj in Hkey as [Hs Hrest]; [|done|done].
    apply colon_split_inj in Hrest as [Ha Hr]; [|done|done]. done.
Qed.

Lemma colonFree_iff (s : string) :
  colonFree s ↔ ":"%char ∉ String.list_ascii_of_string s.
Proof.
  split.
  - intros Hfree Hin. induction s as [|c s IH]; simpl in Hin.
    + by apply elem_of_nil in Hin.
    + apply elem_of_cons in Hin as [<-|Hin].
      * by apply (Hfree "" s).
      * apply IH; [by eapply colonFree_tail|done].
  - intros Hnotin a b ->. apply Hnotin.
    rewrite !list_ascii_app. simpl. set_solver.
Qed.

(** X22. With pairwise distinct claim ids, at most one of the claims that
    take part in conflict detection survives per conflict key. *)
Theorem ResolveConflicts_one_survivor_per_key
    (sources : gmap string AuthoritySource.t)
    (artifact : AuthorityArtifact.t) (c1 c2 : Claim.t) :
  NoDup (map Claim.ID (AuthorityArtifact.Claims artifact)) →
  let survivors :=
    AuthorityArtifact.Claims (fst (ResolveConflicts sources None artifact)) in
  c1 ∈ survivors → c2 ∈ survivors →
  skipsConflict c1 = false → skipsConflict c2 = false →
  conflictKey c1 = conflictKey c2 →
  c1 = c2.
Proof.
  intros Hnd survivors H1 H2 Hskip1 Hskip2 Hkey. subst survivors.
  destruct (ResolveConflicts_exact sources artifact)
    as (claims' & Heq & Hsub & Hmem).
  rewrite Heq in H1, H2. simpl in H1, H2.
  apply Hmem in H1 as [Hr1 Hw1], H2 as [Hr2 Hw2].
  set (revoked := AuthorityArtifact.Claims
                    (applySupersessions (applyRevocations artifact))) in *.
  assert (Hnd' : NoDup (map Claim.ID revoked)).
  { eapply sublist_NoDup; [exact Hnd|]. apply fmap_sublist.
    subst revoked. etrans; apply dropTargets_sublist. }
  destruct (decide (Claim.ID c1 = Claim.ID c2)) as [Hid|Hid].
  { by apply (NoDup_map_inj Claim.ID revoked). }
  assert (c1 ≠ c2) as Hne by congruence.
  set (group := groupOf (conflictKey c1) revoked).
  assert (c1 ∈ group) as Hg1.
  { apply filter_elem_of. split; [done|]. rewrite Hskip1.
    by rewrite (bool_decide_true (conflictKey c1 = _)). }
  assert (c2 ∈ group) as Hg2.
  { apply filter_elem_of. split; [done|]. rewrite Hskip2.
    by rewrite (bool_decide_true (conflictKey c2 = _)). }
  assert (group ∈ findConflicts revoked) as Hconf.
  { apply findConflicts_spec. exists (conflictKey c1). split; [done|].
    by apply (two_members_length _ c1 c2). }
  assert (group ≠ []) as Hnil
    by (intros Hnil; rewrite Hnil in Hg1; by apply elem_of_nil in Hg1).
  destruct (sortSlice_head
              (precedenceLess sources (AuthorityArtifact.Graph artifact))
              group Hnil) as (w & Hw & _).
  destruct Hid.
  rewrite (Hw1 group w), (Hw2 group w); try done;
    apply list_elem_of_fmap; by eexists.
Qed.

(** ** Orders that do not depend on the order of the input *)

Lemma StronglySorted_unique {A} (R : A → A → Prop) (l1 l2 : list A) :
  (∀ a b, a ∈ l1 → b ∈ l1 → R a b → R b a → a = b) →
  StronglySorted R l1 → StronglySorted R l2 → Permutation l1 l2 → l1 = l2.
Proof.
  revert l2. induction l1 as [|x l1 IH]; intros l2 Hanti Hs1 Hs2 Hperm.
  - by apply Permutation_nil in Hperm.
  - destruct l2 as [|y l2].
    { symmetry in Hperm. by apply Permutation_nil in Hperm. }
    apply StronglySorted_inv in Hs1 as [Hs1 Hall1].
    apply StronglySorted_inv in Hs2 as [Hs2 Hall2].
    rewrite Forall_forall in Hall1, Hall2.
    assert (x = y) as <-.
    { assert (x ∈ y :: l2) as Hx by (rewrite <- Hperm; apply list_elem_of_here).
      assert (y ∈ x :: l1) as Hy by (rewrite Hperm; apply list_elem_of_here).
      apply elem_of_cons in Hx as [?|Hx]; [done|].
      apply elem_of_cons in Hy as [?|Hy]; [done|].
      apply Hanti; [apply list_elem_of_here|by apply list_elem_of_further|..];
        auto. }
    f_equal. apply IH; [|done|done|by eapply Permutation_cons_inv].
    intros a b Ha Hb. apply Hanti; by apply list_elem_of_further.
Qed.

Lemma sortSlice_Permutation_eq {A} (less : A → A → bool) (l1 l2 : list A) :
  (∀ x y, less x y = true → less y x = false) →
  (∀ x y z, less y x = false → less z y = false → less z x = false) →
  (∀ a b, a ∈ l1 → b ∈ l1 → less a b = false → less b a = false → a = b) →
  Permutation l1 l2 →
  Go.sortSlice less l1 = Go.sortSlice less l2.
Proof.
  intros Hasym Htrans Htotal Hperm.
  apply (StronglySorted_unique (λ a b, less b a = false)).
  - intros a b Ha%sortSlice_elem_of Hb%sortSlice_elem_of Hab Hba.
    by apply Htotal.
  - by apply sortSlice_StronglySorted.
  - by apply sortSlice_StronglySorted.
  - rewrite !sortSlice_Permutation. done.
Qed.

(** X23. [getClaimIDs] gives the ids of the claims in ascending order,
    each as often as it occurs, and the same list for every order of the
    claims. *)
Theorem getClaimIDs_sorted_and_order_independent (claims : list Claim.t) :
  StronglySorted (λ a b, String.leb a b = true) (getClaimIDs claims)
  ∧ Permutation (getClaimIDs claims) (map Claim.ID claims)
  ∧ ∀ claims', Permutation claims claims' →
               getClaimIDs claims' = getClaimIDs claims.
Proof.
  split; [apply sortStrings_sorted|].
  split; [apply sortSlice_Permutation|].
  intros claims' Hperm. unfold getClaimIDs, Go.sortStrings.
  apply sortSlice_Permutation_eq.
  - apply string_ltb_asym.
  - apply string_nlt_trans.
  - intros a b _ _. apply string_ltb_total.
  - by rewrite Hperm.
Qed.

Section Proof_order.
Variable time_Format_RFC3339 : Time → string.
Variable json_quote : string → string.

(** X24. The proof does not depend on the order of the claims: two
    artifacts that agree on id, source id, graph and time and hold the
    same claims, with pairwise distinct ids, in any order have the same
    proof. *)
Theorem EmitProof_claim_order_irrelevant (a1 a2 : AuthorityArtifact.t) :
  AuthorityArtifact.ID a1 = AuthorityArtifact.ID a2 →
  AuthorityArtifact.SourceID a1 = AuthorityArtifact.SourceID a2 →
  AuthorityArtifact.Graph a1 = AuthorityArtifact.Graph a2 →
  AuthorityArtifact.GeneratedAt a1 = AuthorityArtifact.GeneratedAt a2 →
  Permutation (AuthorityArtifact.Claims a1) (AuthorityArtifact.Claims a2) →
  NoDup (map Claim.ID (AuthorityArtifact.Claims a1)) →
  EmitProof time_Format_RFC3339 json_quote a1
  = EmitProof time_Format_RFC3339 json_quote a2.
Proof.
  intros Hid Hsrc Hgraph Htime Hperm Hnd.
  unfold EmitProof, proofData. rewrite Hid, Hsrc, Hgraph, Htime.
  assert (Go.len (AuthorityArtifact.Claims a1)
          = Go.len (AuthorityArtifact.Claims a2)) as ->.
  { unfold Go.len. by rewrite (Permutation_length Hperm). }
  rewrite (sortSlice_Permutation_eq _ (AuthorityArtifact.Claims a1)
             (AuthorityArtifact.Claims a2)); [done|..|done].
  - intros x y. apply string_ltb_asym.
  - intros x y z. apply string_nlt_trans.
  - intros a b Ha Hb Hab Hba.
    apply (NoDup_map_inj Claim.ID (AuthorityArtifact.Claims a1)); [done..|].
    by apply string_ltb_total.
Qed.

End Proof_order.

(** ** What validation accepts *)

Lemma validateClaims_None (claims : list Claim.t) (graph : AuthorityGraph.t) :
  validateClaims claims graph = None
  ↔ ∀ c, c ∈ claims → validateClaim c graph = true.
Proof.
  induction claims as [|c claims IH]; simpl.
  - split; [|done]. by intros _ c ?%elem_of_nil.
  - unfold validateClaimWithErrors.
    destruct (validateClaim c graph) eqn:Hc; simpl.
    + rewrite IH. split.
      * intros Hall c' [->|Hin]%elem_of_cons; [done|by apply Hall].
      * intros Hall c' Hin. by apply Hall, list_elem_of_further.
    + split; [done|]. intros Hall.
      rewrite (Hall c) in Hc; [done|apply list_elem_of_here].
Qed.

(** X25. [ValidateAirWithErrors] accepts an artifact exactly when its nodes
    table is initialized and either it has no claim and no node, whatever
    its edges, or every claim passes [validateClaim] and the graph passes
    [validateGraphWithErrors]; when a claim fails, the error names the
    first such claim, before the graph is looked at. *)
Theorem ValidateAirWithErrors_accepts_iff (artifact : AuthorityArtifact.t) :
  let claims := AuthorityArtifact.Claims artifact in
  let graph := AuthorityArtifact.Graph artifact in
  (ValidateAirWithErrors artifact = None
   ↔ ∃ nodes,
       AuthorityGraph.Nodes graph = Some nodes
       ∧ ((claims = [] ∧ nodes = ∅)
          ∨ ((∀ c, c ∈ claims → validateClaim c graph = true)
             ∧ validateGraphWithErrors graph = None)))
  ∧ ∀ passed c rest,
      claims = passed ++ c :: rest →
      is_Some (AuthorityGraph.Nodes graph) →
      (∀ p, p ∈ passed → validateClaim p graph = true) →
      validateClaim c graph = false →
      ValidateAirWithErrors artifact
      = Some (ValidationError "claim"
                ("claim " +:+ Claim.ID c +:+ " failed validation") None).
Proof.
  intros claims graph. unfold ValidateAirWithErrors. fold claims graph.
  split.
  - destruct (AuthorityGraph.Nodes graph) as [nodes|] eqn:Hnodes.
    2:{ split; [done|]. by intros (? & ? & _). }
    assert (Hempty : bool_decide (Go.len claims = 0)
                     && bool_decide (Go.lenMap (Some nodes) = 0) = true
                     ↔ claims = [] ∧ nodes = ∅).
    { rewrite andb_true_iff, !bool_decide_eq_true. unfold Go.len, Go.lenMap.
      split.
      - intros [Hl Hn]. split.
        + destruct claims; [done|]. simpl in Hl. lia.
        + apply map_size_empty_iff. lia.
      - intros [-> ->]. by rewrite map_size_empty. }
    destruct (_ && _) eqn:Hshort.
    + split; [intros _|done]. exists nodes. split; [done|]. left.
      by apply Hempty.
    + destruct (validateClaims claims graph) as [err|] eqn:Hclaims.
      * split; [done|]. intros (nodes' & Heq & [Hnone|[Hall _]]).
        -- injection Heq as Heq. subst nodes'.
           apply Hempty in Hnone. congruence.
        -- apply validateClaims_None in Hall. congruence.
      * split.
        -- intros Hgraph. exists nodes. split; [done|]. right.
           split; [by apply validateClaims_None|done].
        -- intros (nodes' & Heq & [Hnone|[_ Hgraph]]); [|done].
           injection Heq as Heq. subst nodes'.
           apply Hempty in Hnone. congruence.
  - intros passed c rest Hclaims [nodes Hnodes] Hpassed Hc.
    rewrite Hnodes.
    assert (Go.len claims ≠ 0) as Hlen.
    { rewrite Hclaims. unfold Go.len. rewrite length_app. simpl. lia. }
    rewrite (bool_decide_false (Go.len claims = 0)) by done. simpl.
    rewrite Hclaims. clear Hclaims Hlen.
    induction passed as [|p passed IH]; simpl.
    + unfold validateClaimWithErrors. by rewrite Hc.
    + unfold validateClaimWithErrors at 1.
      rewrite (Hpassed p) by apply list_elem_of_here. simpl.
      apply IH. intros q Hq. by apply Hpassed, list_elem_of_further.
Qed.

(** ** Ingestion *)

Section Ingest_facts.
Variable time_Format_RFC3339 : Time → string.

(** X26. [Ingest] fails exactly for a source without id, with
    [ErrEmptySourceID]; otherwise it reads the id of the source and nothing
    else of it, and returns an artifact without claims that validates and
    under which every authorization query is denied. *)
Theorem Ingest_gives_empty_artifact (uuid : string) (now : Time)
    (source : AuthoritySource.t) :
  let result := Ingest uuid now source in
  (AuthoritySource.ID source = ""
   → result = (AuthorityArtifact.zero, Some ErrEmptySourceID))
  ∧ (AuthoritySource.ID source ≠ ""
     → snd result = None
       ∧ AuthorityArtifact.Claims (fst result) = []
       ∧ AuthorityArtifact.SourceID (fst result) = AuthoritySource.ID source
       ∧ ValidateAirWithErrors (fst result) = None
       ∧ ∀ subject action resource,
           AuthorizationResult.allowed
             (IsAuthorized time_Format_RFC3339 (fst result)
                subject action resource) = false)
  ∧ ∀ source', AuthoritySource.ID source' = AuthoritySource.ID source →
               Ingest uuid now source' = result.
Proof.
  intros result. subst result. unfold Ingest. split; [|split].
  - intros Hid. by rewrite bool_decide_true.
  - intros Hid. by rewrite bool_decide_false.
  - intros source' ->. done.
Qed.

End Ingest_facts.

(** ** The stages at which the driver fails *)

Section Process_failures.
Variable time_Parse_RFC3339 : string → option Time.
Variable time_Format_RFC3339 : Time → string.
Variable json_quote : string → string.

(** X27. Every failure [ProcessWithContext] reports is marked fail-closed
    and carries the text of the error that caused it.  It names the stage
    normalization, with no claim id, when [Normalize] failed; the stage
    validation, with the sorted ids of the normalized claims, when
    validation rejected the artifact; and the stage resolution, with no
    claim id, only when the context was cancelled by the second poll.  No
    failure names the stage compilation. *)
Theorem ProcessWithContext_failure_stages (ctx : nat → option error)
    (uuid : string) (now : Time) (source : AuthoritySource.t)
    (sources : gmap string AuthoritySource.t) (f : CompilationFailure.t) :
  fst (ProcessWithContext time_Parse_RFC3339 time_Format_RFC3339 json_quote
         ctx uuid now source sources) = Failure f →
  let normalized :=
    fst (Normalize time_Parse_RFC3339 (ctx 0%nat) uuid now source sources) in
  CompilationFailure.FailClosed f = true
  ∧ ((∃ err, snd normalized = Some err
             ∧ f = CompilationFailure.mk "normalization" (error_Error err)
                     [] true)
     ∨ (∃ err, snd normalized = None
               ∧ ValidateAirWithErrors (fst normalized) = Some err
               ∧ f = CompilationFailure.mk "validation" (error_Error err)
                       (getClaimIDs
                          (AuthorityArtifact.Claims (fst normalized)))
                       true)
     ∨ (∃ err, snd normalized = None
               ∧ ValidateAirWithErrors (fst normalized) = None
               ∧ ctx 1%nat = Some err
               ∧ f = CompilationFailure.mk "resolution" (error_Error err)
                       [] true)).
Proof.
  unfold ProcessWithContext. cbv beta.
  destruct (Normalize _ _ _ _ _ _) as [[a [e|]] srcs]; cbn [fst snd].
  { intros [= <-]. split; [done|]. left. by exists e. }
  destruct (ValidateAirWithErrors a) as [e|]; cbn [fst snd].
  { intros [= <-]. split; [done|]. right. left. by exists e. }
  destruct (ctx 1%nat) as [e|] eqn:Hctx.
  - unfold ResolveConflicts. cbn [fst snd]. intros [= <-].
    split; [done|]. right. right. by exists e.
  - destruct (ResolveConflicts_exact srcs a) as (claims' & -> & _). done.
Qed.

End Process_failures.

(** ** Scope containment as an order *)

Lemma isScopeContained_parts (inner outer : Scope.t) :
  isScopeContained inner outer = true
  ↔ (∀ j, j ∈ Scope.Jurisdictions inner → j ∈ Scope.Jurisdictions outer)
    ∧ (∀ o, o ∈ Scope.Operations inner → o ∈ Scope.Operations outer)
    ∧ match Scope.TimeStart outer, Scope.TimeStart inner with
      | Some ostart, Some istart => ostart <= istart
      | _, _ => True
      end
    ∧ match Scope.TimeEnd outer, Scope.TimeEnd inner with
      | Some oend, Some iend => iend <= oend
      | _, _ => True
      end.
Proof.
  unfold isScopeContained.
  rewrite <- (forallb_stringSet (Scope.Jurisdictions inner)).
  rewrite <- (forallb_stringSet (Scope.Operations inner)).
  destruct (forallb _ (elements (stringSet (Scope.Jurisdictions inner))));
    simpl; [|split; [done|by intros (?&?&?)]].
  destruct (forallb _ (elements (stringSet (Scope.Operations inner))));
    simpl; [|split; [done|by intros (?&?&?)]].
  destruct (Scope.TimeStart outer) as [os|], (Scope.TimeStart inner) as [is_|],
    (Scope.TimeEnd outer) as [oe|], (Scope.TimeEnd inner) as [ie|];
    repeat match goal with
           | |- context [?a <? ?b] => destruct (Z.ltb_spec a b)
           | |- context [?a >? ?b] =>
               rewrite (Z.gtb_ltb a b); destruct (Z.ltb_spec b a)
           end;
    split; try done; try (intros _; repeat split; try done; lia);
    intros (_ & _ & Hs & He); lia.
Qed.

(** X28. Scope containment is reflexive.  It is transitive through a
    middle scope that has a start where both others have one and an end
    where both others have one; through a middle scope without bounds it
    is not, and a scope can be contained in a chain whose outer bounds it
    exceeds. *)
Theorem isScopeContained_order :
  (∀ s, isScopeContained s s = true)
  ∧ (∀ a b c,
       isScopeContained a b = true → isScopeContained b c = true →
       (is_Some (Scope.TimeStart a) → is_Some (Scope.TimeStart c) →
        is_Some (Scope.TimeStart b)) →
       (is_Some (Scope.TimeEnd a) → is_Some (Scope.TimeEnd c) →
        is_Some (Scope.TimeEnd b)) →
       isScopeContained a c = true)
  ∧ ¬ (∀ a b c,
         isScopeContained a b = true → isScopeContained b c = true →
         isScopeContained a c = true).
Proof.
  split; [|split].
  - intros s. apply isScopeContained_parts.
    split; [done|]. split; [done|].
    destruct (Scope.TimeStart s), (Scope.TimeEnd s); repeat split; lia.
  - intros a b c (Hj1 & Ho1 & Hs1 & He1)%isScopeContained_parts
      (Hj2 & Ho2 & Hs2 & He2)%isScopeContained_parts Hstart Hend.
    apply isScopeContained_parts.
    split; [auto|]. split; [auto|].
    destruct (Scope.TimeStart a) as [sa|], (Scope.TimeStart b) as [sb|],
      (Scope.TimeStart c) as [sc|], (Scope.TimeEnd a) as [ea|],
      (Scope.TimeEnd b) as [eb|], (Scope.TimeEnd c) as [ec|];
      repeat split; try lia;
      try (destruct Hstart as [? [=]]; by eexists);
      try (destruct Hend as [? [=]]; by eexists).
  - intros Htrans.
    specialize (Htrans (Scope.mk [] (Some 0) None [])
                       (Scope.mk [] None None [])
                       (Scope.mk [] (Some 10) None [])).
    by specialize (Htrans eq_refl eq_refl).
Qed.

(** ** Delegation depth *)

Lemma depthLoop_ge (fuel : nat) (edges : list Edge.t) (currentID : string)
    (visited : gset string) (depth r : Z) :
  depthLoop fuel edges currentID visited depth = Some r →
  r = 999 ∨ depth <= r.
Proof.
  revert currentID visited depth.
  induction fuel as [|fuel IH]; intros currentID visited depth; simpl;
    [done|].
  case_bool_decide; [intros [= <-]; right; lia|].
  case_bool_decide; [intros [= <-]; by left|].
  destruct (List.find _ edges) as [edge|]; [|intros [= <-]; right; lia].
  case_bool_decide; [intros [= <-]; right; lia|].
  intros [?|?]%IH; [by left|right; lia].
Qed.

(** X29. The delegation depth is never negative, and it is 0 exactly for
    a claim without id or a claim that no Delegates edge of the graph
    points at. *)
Theorem getDelegationDepth_zero_iff_root (claim : Claim.t)
    (graph : AuthorityGraph.t) :
  0 <= getDelegationDepth claim graph
  ∧ (getDelegationDepth claim graph = 0
     ↔ Claim.ID claim = ""
       ∨ ∀ e, e ∈ AuthorityGraph.Edges graph →
              ¬ (Edge.ToID e = Claim.ID claim
                 ∧ Edge.EdgeType_ e = Delegates)).
Proof.
  unfold getDelegationDepth.
  set (edges := AuthorityGraph.Edges graph).
  generalize (S (List.length edges)). intros fuel.
  cbn [depthLoop].
  case_bool_decide as Hid; [simpl; split; [lia|]; split; auto|].
  rewrite bool_decide_false by set_solver.
  destruct (List.find _ edges) as [edge|] eqn:Hfind.
  - assert (Hfound : ¬ ∀ e, e ∈ edges →
              ¬ (Edge.ToID e = Claim.ID claim ∧ Edge.EdgeType_ e = Delegates)).
    { intros Hnone. apply find_some in Hfind as [Hin Hedge].
      apply andb_true_iff in Hedge as [Hto Hty].
      apply bool_decide_eq_true in Hto, Hty.
      apply (Hnone edge); [by apply list_elem_of_In|done]. }
    case_bool_decide; simpl.
    + split; [lia|]. split; [done|]. by intros [?|?].
    + destruct (depthLoop _ _ _ _ _) as [r|] eqn:Hloop; simpl.
      * apply depthLoop_ge in Hloop.
        split; [lia|]. split; [lia|]. by intros [?|?].
      * split; [lia|]. split; [done|]. by intros [?|?].
  - simpl. split; [lia|]. split; [|done]. intros _. right.
    intros e He [Hto Hty].
    apply list_elem_of_In in He.
    pose proof (find_none _ _ Hfind e He) as Hno.
    unfold isDelegatesTo in Hno.
    by rewrite !bool_decide_true in Hno.
Qed.

(** ** Instances *)

(** An instance of X8: one source under two versions. *)
Lemma applyPrecedence_reads_types_only_witness :
  let cOld := Sample.claim "c_old" Permission "user" "read" "/doc" "src" [] [] in
  let cNew :=
    Sample.claim "c_new" Prohibition "user" "read" "/doc" "src" ["US"] [] in
  let artifact := Sample.artifact [cOld; cNew] (buildGraph [cOld; cNew]) in
  applyPrecedence (<["src" := Sample.source "src" Legal "2.0.0" []]> ∅)
    [cOld; cNew] artifact
  = applyPrecedence (<["src" := Sample.source "src" Legal "1.0.0" []]> ∅)
      [cOld; cNew] artifact.
Proof.
  intros cOld cNew artifact.
  apply applyPrecedence_reads_types_only.
  intros id. destruct (decide (id = "src")) as [->|Hne].
  - by rewrite !lookup_insert_eq.
  - by rewrite !lookup_insert_ne, !lookup_empty by done.
Defined.


(** An instance of X13: a claim revoked by another. *)
Lemma ResolveConflicts_graph_validates_witness :
  let cA :=
    Sample.claim "cA" Permission "user" "read" "/a" "src" []
      [("revokes", VString "cB")] in
  let cB := Sample.claim "cB" Permission "user" "read" "/b" "src" [] [] in
  let artifact := Sample.artifact [cA; cB] (buildGraph [cA; cB]) in
  validateGraphWithErrors
    (AuthorityArtifact.Graph (fst (ResolveConflicts ∅ None artifact)))
  = None.
Proof.
  intros cA cB artifact.
  apply (ResolveConflicts_graph_validates ∅ artifact).
  vm_compute. reflexivity.
Defined.

(** An instance of X14: a source with one claim record. *)
Lemma Normalize_success_postcondition_witness :
  let source :=
    Sample.source "src" Legal "1.0"
      [Sample.claimRecord "c1" "permission" "user" "read" "/doc" []] in
  let out := Normalize Sample.time_Parse None "artifact-1" 1000 source ∅ in
  snd out = <["src" := source]> ∅
  ∧ AuthorityArtifact.Graph (fst (fst out))
    = buildGraph (AuthorityArtifact.Claims (fst (fst out))).
Proof.
  intros source out.
  destruct (Normalize_success_postcondition Sample.time_Parse None
              "artifact-1" 1000 source ∅ (snd out) (fst (fst out)))
    as (_ & _ & Hsources & _ & _ & _ & Hgraph & _).
  - vm_compute. reflexivity.
  - split; [exact Hsources|exact Hgraph].
Defined.

(** An instance of X15: two claims that delegate to each other. *)
Lemma Normalize_then_validate_witness :
  let source :=
    Sample.source "src" Legal "1.0"
      [Sample.claimRecord "b" "delegation" "user" "read" "/b"
         [("delegates_to", VString "a")];
       Sample.claimRecord "a" "delegation" "user" "read" "/a"
         [("delegates_to", VString "b")]] in
  let out := Normalize Sample.time_Parse None "artifact-1" 1000 source ∅ in
  let artifact := fst (fst out) in
  (∃ c, c ∈ AuthorityArtifact.Claims artifact
        ∧ Claim.Type_ c = Delegation
        ∧ validateDelegationClaim c (AuthorityArtifact.Graph artifact) = false
        ∧ ErrCyclicGraph
          = ValidationError "claim"
              ("claim " +:+ Claim.ID c +:+ " failed validation") None)
  ∨ (ErrCyclicGraph = ErrCyclicGraph
     ∧ hasCycles (AuthorityArtifact.Graph artifact) = true).
Proof.
  intros source out artifact.
  apply (Normalize_then_validate Sample.time_Parse None "artifact-1" 1000
           source ∅ (snd out) artifact ErrCyclicGraph).
  - vm_compute. reflexivity.
  - vm_compute. reflexivity.
Defined.

(** An instance of X16: the run of the revocation scenario. *)
Lemma Process_success_postcondition_witness :
  let source :=
    Sample.source "src" Legal "1.0"
      [Sample.claimRecord "cA" "permission" "user" "read" "/a"
         [("revokes", VString "cB")];
       Sample.claimRecord "cB" "permission" "user" "read" "/b" []] in
  let out :=
    Process Sample.time_Parse Sample.time_Format Sample.json_quote
      "artifact-1" 1000 source ∅ in
  let success :=
    match fst out with
    | Success s => s
    | Failure _ => CompilationSuccess.mk AuthorityArtifact.zero "none"
    end in
  snd out = <["src" := source]> ∅
  ∧ validateGraphWithErrors
      (AuthorityArtifact.Graph (CompilationSuccess.Artifact success))
    = None.
Proof.
  intros source out success.
  destruct (Process_success_postcondition Sample.time_Parse
              Sample.time_Format Sample.json_quote "artifact-1" 1000
              source ∅ (snd out) success)
    as (Hsources & _ & _ & _ & _ & _ & Hgraph & _).
  - vm_compute. reflexivity.
  - split; [exact Hsources|exact Hgraph].
Defined.

(** An instance of X22: of a Permission and a Prohibition on one key, one
    claim is left. *)
Lemma ResolveConflicts_one_survivor_per_key_witness :
  let cP := Sample.claim "cP" Permission "user" "read" "/doc" "src" [] [] in
  let cX := Sample.claim "cX" Prohibition "user" "read" "/doc" "src" [] [] in
  let sources : gmap string AuthoritySource.t :=
    <["src" := Sample.source "src" Legal "1.0" []]> ∅ in
  let artifact := Sample.artifact [cP; cX] (buildGraph [cP; cX]) in
  AuthorityArtifact.Claims (fst (ResolveConflicts sources None artifact))
  = [cP]
  ∧ cP = cP.
Proof.
  intros cP cX sources artifact.
  split; [vm_compute; reflexivity|].
  apply (ResolveConflicts_one_survivor_per_key sources artifact cP cP).
  - apply (bool_decide_unpack _). vm_compute. reflexivity.
  - vm_compute. apply list_elem_of_here.
  - vm_compute. apply list_elem_of_here.
  - vm_compute. reflexivity.
  - vm_compute. reflexivity.
  - reflexivity.
Defined.

(** An instance of X24: two claims in the two orders. *)
Lemma EmitProof_claim_order_irrelevant_witness :
  let claim_a :=
    Sample.claim "claim_a" Permission "user" "read" "/a" "src" [] [] in
  let claim_b :=
    Sample.claim "claim_b" Permission "user" "read" "/b" "src" [] [] in
  let graph := buildGraph [claim_a; claim_b] in
  EmitProof Sample.time_Format Sample.json_quote
    (Sample.artifact [claim_b; claim_a] graph)
  = EmitProof Sample.time_Format Sample.json_quote
      (Sample.artifact [claim_a; claim_b] graph).
Proof.
  intros claim_a claim_b graph.
  apply EmitProof_claim_order_irrelevant; try reflexivity.
  - apply perm_swap.
  - apply (bool_decide_unpack _). vm_compute. reflexivity.
Defined.

(** An instance of X27: the cyclic delegation fails in the validation
    stage. *)
Lemma ProcessWithContext_failure_stages_witness :
  let source :=
    Sample.source "src" Legal "1.0"
      [Sample.claimRecord "b" "delegation" "user" "read" "/b"
         [("delegates_to", VString "a")];
       Sample.claimRecord "a" "delegation" "user" "read" "/a"
         [("delegates_to", VString "b")]] in
  let failure :=
    CompilationFailure.mk "validation" "authority graph contains cycles"
      ["a"; "b"] true in
  fst (ProcessWithContext Sample.time_Parse Sample.time_Format
         Sample.json_quote (λ _, None) "artifact-1" 1000 source ∅)
  = Failure failure
  ∧ CompilationFailure.FailClosed failure = true.
Proof.
  intros source failure.
  split; [vm_compute; reflexivity|].
  apply (ProcessWithContext_failure_stages Sample.time_Parse
           Sample.time_Format Sample.json_quote (λ _, None) "artifact-1"
           1000 source ∅ failure).
  vm_compute. reflexivity.
Defined.
